(** * EventBus: a static publish/subscribe registry

    Shallow embedding of [src/source/enums.ts] (the [EventBusEnum] catalog and
    the static class [EventBus]) and of the type aliases [IEventPayload],
    [IEventCallable] and [IEventSet].

    The class keeps one static [Map<EventBusEnum, IEventSet>] named [stack];
    an [IEventSet] is a JavaScript [Set] of functions.  Both containers are
    modelled as ECMAScript specifies them:

    - a [Set] is a heap object with its own identity; its data is the list of
      entries in insertion order, where a deleted entry leaves a hole
      ([None]) so that an iteration in progress keeps its index;
    - [Set.prototype.forEach] walks that list by index and re-reads its
      length after every callback, so entries appended during the walk are
      visited and entries deleted ahead of the index are skipped;
    - functions are compared by identity.

    Listeners are callbacks supplied by the application.  A listener is
    identified by a number, and its body is a sequence of calls back into the
    registry (or a [throw]); that is the part of a callback the registry can
    observe. *)

From Stdlib Require Import ZArith Lia.
From stdpp Require Import base list strings relations.

Local Open Scope string_scope.

(** ** The event catalog *)

Inductive EventBusEnum : Set :=
  | LOG | LOG_ERROR | LOG_INFO | LOG_WARNING | LOG_DEBUG | LOG_CRITICAL
  | LOG_EMERGENCY | LOG_NOTICE | LOG_TRACE | LOG_SILENT
  | SERVER_STARTED | SERVER_STOPPED | SERVER_SHUTDOWN | SERVER_ERROR
  | SERVER_WARNING | SERVER_CRITICAL | SERVER_DEBUG | SERVER_THROW
  | USER_CREATED | USER_UPDATED | USER_DELETED
  | CAPABILITY_CREATED | CAPABILITY_UPDATED | CAPABILITY_DELETED
  | CAPABILITY_ASSIGNED | CAPABILITY_UNASSIGNED | CAPABILITY_OPENED
  | CAPABILITY_CLOSED
  | ROLE_CREATED | ROLE_UPDATED | ROLE_DELETED
  | PERMISSION_CREATED | PERMISSION_UPDATED | PERMISSION_DELETED
  | ROUTE_OPENED | ROUTE_CLOSED.

(** The string each member of the enum stands for. *)
Definition EventBusEnum_value (e : EventBusEnum) : string :=
  match e with
  | LOG => "log"
  | LOG_ERROR => "log.error"
  | LOG_INFO => "log.info"
  | LOG_WARNING => "log.warning"
  | LOG_DEBUG => "log.debug"
  | LOG_CRITICAL => "log.critical"
  | LOG_EMERGENCY => "log.emergency"
  | LOG_NOTICE => "log.notice"
  | LOG_TRACE => "log.trace"
  | LOG_SILENT => "log.silent"
  | SERVER_STARTED => "server:started"
  | SERVER_STOPPED => "server:stopped"
  | SERVER_SHUTDOWN => "server:shutdown"
  | SERVER_ERROR => "server:error"
  | SERVER_WARNING => "server:warning"
  | SERVER_CRITICAL => "server:critical"
  | SERVER_DEBUG => "server:debug"
  | SERVER_THROW => "server:throw"
  | USER_CREATED => "user:created"
  | USER_UPDATED => "user:updated"
  | USER_DELETED => "user:deleted"
  | CAPABILITY_CREATED => "capability:created"
  | CAPABILITY_UPDATED => "capability:updated"
  | CAPABILITY_DELETED => "capability:deleted"
  | CAPABILITY_ASSIGNED => "capability:assigned"
  | CAPABILITY_UNASSIGNED => "capability:unassigned"
  | CAPABILITY_OPENED => "capability:opened"
  | CAPABILITY_CLOSED => "capability:closed"
  | ROLE_CREATED => "role:created"
  | ROLE_UPDATED => "role:updated"
  | ROLE_DELETED => "role:deleted"
  | PERMISSION_CREATED => "permission:created"
  | PERMISSION_UPDATED => "permission:updated"
  | PERMISSION_DELETED => "permission:deleted"
  | ROUTE_OPENED => "route:opened"
  | ROUTE_CLOSED => "route:closed"
  end.

Local Close Scope string_scope.

#[global] Instance EventBusEnum_eq_dec : EqDecision EventBusEnum.
Proof. solve_decision. Defined.

(** ** Payloads and callables *)

(** [Record<string, any>]: an open key/value record.  The registry never
    looks inside a payload; values are taken to be integers. *)
Definition IEventPayload : Type := list (string * Z).

(** A function value, compared by identity.  [Listener l] is the l-th
    function of the application.  [OnceClosure c event callable] is the arrow
    function allocated by the c-th call of [EventBus.once]; [event] and
    [callable] are the variables it captures. *)
Inductive IEventCallable : Type :=
  | Listener (id : nat)
  | OnceClosure (id : nat) (event : EventBusEnum) (callable : IEventCallable).

#[global] Instance IEventCallable_eq_dec : EqDecision IEventCallable.
Proof. solve_decision. Defined.

(** ** ECMAScript [Set] data *)

(** The [[SetData]] list of a [Set<IEventCallable>]: entries in insertion
    order, [None] for an entry that was deleted. *)
Abbreviation IEventSet := (list (option IEventCallable)).

Module ESSet.

(** [Set.prototype.has] *)
Definition has (d : IEventSet) (f : IEventCallable) : bool :=
  bool_decide (Some f ∈ d).

(** [Set.prototype.add]: append unless an entry with the same value is
    there already. *)
Definition add (f : IEventCallable) (d : IEventSet) : IEventSet :=
  if has d f then d else d ++ [Some f].

(** [Set.prototype.delete]: the entry becomes a hole. *)
Definition delete (f : IEventCallable) (d : IEventSet) : IEventSet :=
  (λ e, if decide (e = Some f) then None else e) <$> d.

(** [Set.prototype.clear]: every entry becomes a hole. *)
Definition clear (d : IEventSet) : IEventSet :=
  (λ _, None) <$> d.

(** The members, in insertion order. *)
Definition values (d : IEventSet) : list IEventCallable :=
  omap id d.

(** [Set.prototype.size] *)
Definition size (d : IEventSet) : nat := length (values d).

(** The first entry at an index [>= i] that is not a hole, with its
    index: the entry [forEach] visits next when its counter is [i]. *)
Fixpoint next (i : nat) (d : IEventSet) : option (nat * IEventCallable) :=
  match d with
  | [] => None
  | e :: d' =>
      match i, e with
      | O, Some f => Some (O, f)
      | O, None => prod_map S id <$> next O d'
      | S i', _ => prod_map S id <$> next i' d'
      end
  end.

End ESSet.

(** ** ECMAScript [Map] data *)

(** The entries of [Map<EventBusEnum, IEventSet>] in insertion order.  A value
    is a reference to a [Set] object, that is an address in the heap of the
    state below.  The class deletes no single key, and it never iterates the
    map around a callback, so the holes that [Map.prototype.clear] leaves
    cannot be observed: [clear] is modelled as the empty list. *)
Module ESMap.

Abbreviation t := (list (EventBusEnum * nat)).

(** [Map.prototype.get] *)
Fixpoint get (m : t) (k : EventBusEnum) : option nat :=
  match m with
  | [] => None
  | (k', v) :: m' => if decide (k' = k) then Some v else get m' k
  end.

(** [Map.prototype.has] *)
Definition has (m : t) (k : EventBusEnum) : bool :=
  match get m k with Some _ => true | None => false end.

(** [Map.prototype.set]: an existing key keeps its place. *)
Fixpoint set (k : EventBusEnum) (v : nat) (m : t) : t :=
  match m with
  | [] => [(k, v)]
  | (k', v') :: m' =>
      if decide (k' = k) then (k', v) :: m' else (k', v') :: set k v m'
  end.

(** [Map.prototype.clear] *)
Definition clear (m : t) : t := [].

(** [Map.prototype.keys], [values] and [size] *)
Definition keys (m : t) : list EventBusEnum := m.*1.
Definition values (m : t) : list nat := m.*2.
Definition size (m : t) : nat := length m.

End ESMap.

(** ** The state of the program *)

(** [stack] is the static field of the class.  [heap] holds the [Set] objects
    ever allocated, a reference being an index into it.  [closures] counts the
    arrow functions allocated by [once], which gives each its identity.
    [calls] is a ghost field: every function call made so far, with its
    argument, oldest first. *)
Record state : Type := mkState {
  stack : ESMap.t;
  heap : list IEventSet;
  closures : nat;
  calls : list (IEventCallable * IEventPayload)
}.

(** The state of a freshly loaded module: [new Map()]. *)
Definition initial : state :=
  {| stack := []; heap := []; closures := 0; calls := [] |}.

Definition with_stack (m : ESMap.t) (s : state) : state :=
  {| stack := m; heap := heap s; closures := closures s; calls := calls s |}.

Definition with_heap (h : list IEventSet) (s : state) : state :=
  {| stack := stack s; heap := h; closures := closures s; calls := calls s |}.

(** [new Set()]: the reference of the new object and the state holding it. *)
Definition new_Set (s : state) : nat * state :=
  (length (heap s), with_heap (heap s ++ [[]]) s).

(** A method of the [Set] object at reference [a], used as
    [this.stack.get(event)?.method(..)]: nothing happens without an object. *)
Definition on_set (a : option nat) (f : IEventSet → IEventSet) (s : state) : state :=
  match a with
  | Some a => with_heap (alter f a (heap s)) s
  | None => s
  end.

(** The arrow function of the next call of [once]. *)
Definition new_closure (event : EventBusEnum) (callable : IEventCallable)
    (s : state) : IEventCallable * state :=
  (OnceClosure (closures s) event callable,
   {| stack := stack s; heap := heap s; closures := S (closures s);
      calls := calls s |}).

(** Note a call in the ghost field. *)
Definition record (f : IEventCallable) (payload : IEventPayload) (s : state) : state :=
  {| stack := stack s; heap := heap s; closures := closures s;
     calls := calls s ++ [(f, payload)] |}.

(** ** The methods that call no listener *)

(** [static subscribe(event, callable)] *)
Definition subscribe (event : EventBusEnum) (callable : IEventCallable)
    (s : state) : state :=
  let s1 :=
    if ESMap.has (stack s) event then s
    else let '(a, s') := new_Set s in
         with_stack (ESMap.set event a (stack s')) s' in
  on_set (ESMap.get (stack s1) event) (ESSet.add callable) s1.

(** [static unsubscribe(event, callable)] *)
Definition unsubscribe (event : EventBusEnum) (callable : IEventCallable)
    (s : state) : state :=
  on_set (ESMap.get (stack s) event) (ESSet.delete callable) s.

(** [static once(event, callable)]: the closure is allocated, then
    subscribed.  What the closure does when called is [call] below. *)
Definition once (event : EventBusEnum) (callable : IEventCallable)
    (s : state) : state :=
  let '(once_, s') := new_closure event callable s in
  subscribe event once_ s'.

(** [static batch(event, callable[])] *)
Definition batch (event : EventBusEnum) (callable : list IEventCallable)
    (s : state) : state :=
  foldl (λ s c, subscribe event c s) s callable.

(** [static batchOnce(event, callable[])] *)
Definition batchOnce (event : EventBusEnum) (callable : list IEventCallable)
    (s : state) : state :=
  foldl (λ s c, once event c s) s callable.

(** [static multiple(events[], callable)] *)
Definition multiple (events : list EventBusEnum) (callable : IEventCallable)
    (s : state) : state :=
  foldl (λ s e, subscribe e callable s) s events.

(** [static multipleOnce(events[], callable)] *)
Definition multipleOnce (events : list EventBusEnum) (callable : IEventCallable)
    (s : state) : state :=
  foldl (λ s e, once e callable s) s events.

(** [static clear(event)] *)
Definition clear (event : EventBusEnum) (s : state) : state :=
  on_set (ESMap.get (stack s) event) ESSet.clear s.

(** [static clearAll()] *)
Definition clearAll (s : state) : state :=
  with_stack (ESMap.clear (stack s)) s.

(** [static get(event)]: the reference of the live [Set], if any. *)
Definition get (event : EventBusEnum) (s : state) : option nat :=
  ESMap.get (stack s) event.

(** [static get events()] *)
Definition events (s : state) : list EventBusEnum := ESMap.keys (stack s).

(** [static get listeners()] *)
Definition listeners (s : state) : list nat := ESMap.values (stack s).

(** [static get count()] *)
Definition count (s : state) : nat := ESMap.size (stack s).

(** [static get empty()] *)
Definition empty (s : state) : bool := bool_decide (ESMap.size (stack s) = 0).

(** The data of the [Set] that [get event] returns. *)
Definition set_of (event : EventBusEnum) (s : state) : option IEventSet :=
  a ← get event s; heap s !! a.

(** The listeners registered for [event], in insertion order; none when the
    kind has no entry. *)
Definition registered (event : EventBusEnum) (s : state) : list IEventCallable :=
  from_option ESSet.values [] (set_of event s).

(** ** Listener bodies *)

(** What the body of an application function does to the registry: a
    sequence of calls of the static methods, on the application's own
    functions, or a [throw]. *)
Inductive stmt : Type :=
  | Subscribe (event : EventBusEnum) (callable : nat)
  | Dispatch (event : EventBusEnum) (payload : IEventPayload)
  | Unsubscribe (event : EventBusEnum) (callable : nat)
  | Once (event : EventBusEnum) (callable : nat)
  | Batch (event : EventBusEnum) (callable : list nat)
  | BatchOnce (event : EventBusEnum) (callable : list nat)
  | Multiple (events : list EventBusEnum) (callable : nat)
  | MultipleOnce (events : list EventBusEnum) (callable : nat)
  | Clear (event : EventBusEnum)
  | ClearAll
  | Throw.

(** How a call ends: it returns, an exception leaves it, or the fuel of the
    interpreter ran out before either. *)
Inductive completion : Type := Normal | Thrown | OutOfFuel.

#[global] Instance completion_eq_dec : EqDecision completion.
Proof. solve_decision. Defined.

(** Sequencing: the rest runs only after a normal completion. *)
Definition and_then (r : state * completion) (k : state → state * completion)
    : state * completion :=
  match r with
  | (s, Normal) => k s
  | _ => r
  end.

Notation "r >>> k" := (and_then r k) (at level 61, left associativity).

(** A statement that calls no listener. *)
Definition quiet (c : stmt) (s : state) : state :=
  match c with
  | Subscribe e l => subscribe e (Listener l) s
  | Unsubscribe e l => unsubscribe e (Listener l) s
  | Once e l => once e (Listener l) s
  | Batch e ls => batch e (Listener <$> ls) s
  | BatchOnce e ls => batchOnce e (Listener <$> ls) s
  | Multiple es l => multiple es (Listener l) s
  | MultipleOnce es l => multipleOnce es (Listener l) s
  | Clear e => clear e s
  | ClearAll => clearAll s
  | Dispatch _ _ | Throw => s
  end.

Section Interpreter.

(** The application: the body of each of its functions, which may depend
    on the argument. *)
Variable code : nat → IEventPayload → list stmt.

(** [this.stack.get(event)?.forEach(callable => callable(payload))], given
    the loop. *)
Definition dispatch_with
    (forEach : nat → nat → IEventPayload → state → state * completion)
    (event : EventBusEnum) (payload : IEventPayload) (s : state)
    : state * completion :=
  match ESMap.get (stack s) event with
  | Some a => forEach a 0 payload s
  | None => (s, Normal)
  end.

(** [call n f payload]: the call [f(payload)].
    [run n body]: the statements of a listener body, in order.
    [forEach n a i payload]: the loop of [Set.prototype.forEach] on the
    object at [a] with its counter at [i]; the data is read again after
    each callback.
    Each call of a function and each statement takes one unit of [n]. *)
Fixpoint call (n : nat) (f : IEventCallable) (payload : IEventPayload)
    (s : state) {struct n} : state * completion :=
  match n with
  | O => (s, OutOfFuel)
  | S n' =>
      let s0 := record f payload s in
      match f with
      | Listener l => run n' (code l payload) s0
      | OnceClosure _ event callable =>
          call n' callable payload s0 >>>
          λ s1, (unsubscribe event f s1, Normal)
      end
  end
with run (n : nat) (body : list stmt) (s : state) {struct n}
    : state * completion :=
  match body with
  | [] => (s, Normal)
  | c :: rest =>
      match n with
      | O => (s, OutOfFuel)
      | S n' =>
          match c with
          | Dispatch e p => dispatch_with (forEach n') e p s
          | Throw => (s, Thrown)
          | _ => (quiet c s, Normal)
          end >>>
          run n' rest
      end
  end
with forEach (n : nat) (a : nat) (i : nat) (payload : IEventPayload)
    (s : state) {struct n} : state * completion :=
  match heap s !! a with
  | None => (s, Normal)
  | Some d =>
      match ESSet.next i d with
      | None => (s, Normal)
      | Some (j, f) =>
          match n with
          | O => (s, OutOfFuel)
          | S n' => call n' f payload s >>> forEach n' a (S j) payload
          end
      end
  end.

(** [static dispatch(event, payload)] *)
Definition dispatch (n : nat) (event : EventBusEnum) (payload : IEventPayload)
    (s : state) : state * completion :=
  dispatch_with (forEach n) event payload s.

End Interpreter.

(** ** Vocabulary of the properties *)

(** The functions called, in order, when [f(payload)] is called and the
    application function it reaches does nothing: [f] itself, and below a
    closure of [once] the callable it wraps. *)
Fixpoint invocations (payload : IEventPayload) (f : IEventCallable)
    : list (IEventCallable * IEventPayload) :=
  (f, payload) ::
  match f with
  | Listener _ => []
  | OnceClosure _ _ callable => invocations payload callable
  end.

(** The application function a function value ends up calling. *)
Fixpoint target (f : IEventCallable) : nat :=
  match f with
  | Listener l => l
  | OnceClosure _ _ callable => target callable
  end.

(** The identity of a closure of [once] is below the counter [c]. *)
Definition allocated (c : nat) (f : IEventCallable) : Prop :=
  match f with
  | Listener _ => True
  | OnceClosure c' _ _ => c' < c
  end.

#[global] Instance allocated_dec c f : Decision (allocated c f).
Proof. destruct f; simpl; apply _. Defined.

(** The states the class can be in: every key of [stack] has a [Set] object
    of its own in the heap, a [Set] holds a value at most once, and the
    closures held were allocated before. *)
Definition wf (s : state) : Prop :=
  NoDup (ESMap.keys (stack s)) ∧
  NoDup (ESMap.values (stack s)) ∧
  Forall (λ a, a < length (heap s)) (ESMap.values (stack s)) ∧
  Forall (λ d, NoDup (ESSet.values d)) (heap s) ∧
  Forall (λ d, Forall (allocated (closures s)) (ESSet.values d)) (heap s).

#[global] Instance wf_dec s : Decision (wf s).
Proof. unfold wf. apply _. Defined.

#[global] Instance stmt_eq_dec : EqDecision stmt.
Proof. solve_decision. Defined.

Section Listeners.

Variable code : nat → IEventPayload → list stmt.

(** An application function registered as it is, whose body for this
    payload does nothing: it returns without a call into the registry. *)
Definition inert (payload : IEventPayload) (f : IEventCallable) : Prop :=
  match f with
  | Listener l => code l payload = []
  | OnceClosure _ _ _ => False
  end.

(** An inert function, or the closure [once] makes for one. *)
Definition plain (payload : IEventPayload) (f : IEventCallable) : Prop :=
  match f with
  | Listener l => code l payload = []
  | OnceClosure _ _ (Listener l) => code l payload = []
  | OnceClosure _ _ (OnceClosure _ _ _) => False
  end.

#[global] Instance inert_dec payload f : Decision (inert payload f).
Proof. destruct f; simpl; apply _. Defined.

#[global] Instance plain_dec payload f : Decision (plain payload f).
Proof. destruct f as [|? ? []]; simpl; apply _. Defined.

(** No body of the application contains a [throw]. *)
Definition never_throws : Prop :=
  ∀ l payload, Throw ∉ code l payload.

End Listeners.

(** The state after the call [f(payload)] of a plain function: the calls are
    noted, and a closure of [once] has unsubscribed itself. *)
Definition after_call (payload : IEventPayload) (f : IEventCallable) (s : state)
    : state :=
  match f with
  | Listener _ => record f payload s
  | OnceClosure _ event callable =>
      unsubscribe event f (record callable payload (record f payload s))
  end.

(** An application for the examples: functions 10 and above re-enter the
    registry or throw, the others do nothing. *)
Definition app (l : nat) (payload : IEventPayload) : list stmt :=
  match l with
  | 10 => [Throw]
  | 20 => [Subscribe USER_CREATED 3]
  | 21 => [Unsubscribe USER_CREATED 2]
  | 22 => [Dispatch USER_UPDATED payload]
  | _ => []
  end.

(** The body of every function but 10 does nothing. *)
Definition calm (l : nat) (payload : IEventPayload) : list stmt :=
  match l with
  | 10 => [Throw]
  | _ => []
  end.

(** No function does anything. *)
Definition idle (l : nat) (payload : IEventPayload) : list stmt := [].

Definition id7 : IEventPayload := [("id"%string, 7%Z)].

(** The state after [forEach] has called the plain functions [vs] in turn. *)
Definition pass (payload : IEventPayload) (vs : list IEventCallable) (s : state)
    : state :=
  foldl (λ s f, after_call payload f s) s vs.

(** The state with further calls noted. *)
Definition noted (tr : list (IEventCallable * IEventPayload)) (s : state) : state :=
  {| stack := stack s; heap := heap s; closures := closures s;
     calls := calls s ++ tr |}.

(** A call ended in a state with property [Inv], with a completion with
    property [Q]. *)
Definition holds (Inv : state → Prop) (Q : completion → Prop)
    (r : state * completion) : Prop :=
  Inv r.1 ∧ Q r.2.

(** How often the call [c] (a function and its argument) occurs in a list
    of calls. *)
Definition times (c : IEventCallable * IEventPayload)
    (tr : list (IEventCallable * IEventPayload)) : nat :=
  length (filter (λ x, x = c) tr).

(** ** Reachable states *)

(** One call of a static method by the application: any method but
    [dispatch], written as the statement for it, or [dispatch], whose state
    is observed however the call ended. *)
Inductive step (code : nat → IEventPayload → list stmt) : state → state → Prop :=
  | step_quiet c s : step code s (quiet c s)
  | step_dispatch n event payload s :
      step code s (dispatch code n event payload s).1.

(** The states the application can bring the class into. *)
Definition reachable (code : nat → IEventPayload → list stmt) (s : state) : Prop :=
  rtc (step code) initial s.

(** ** Vocabulary of the further properties *)

(** The members of the enum, in the order of the source. *)
Definition EventBusEnum_members : list EventBusEnum :=
  [LOG; LOG_ERROR; LOG_INFO; LOG_WARNING; LOG_DEBUG; LOG_CRITICAL;
   LOG_EMERGENCY; LOG_NOTICE; LOG_TRACE; LOG_SILENT;
   SERVER_STARTED; SERVER_STOPPED; SERVER_SHUTDOWN; SERVER_ERROR;
   SERVER_WARNING; SERVER_CRITICAL; SERVER_DEBUG; SERVER_THROW;
   USER_CREATED; USER_UPDATED; USER_DELETED;
   CAPABILITY_CREATED; CAPABILITY_UPDATED; CAPABILITY_DELETED;
   CAPABILITY_ASSIGNED; CAPABILITY_UNASSIGNED; CAPABILITY_OPENED;
   CAPABILITY_CLOSED;
   ROLE_CREATED; ROLE_UPDATED; ROLE_DELETED;
   PERMISSION_CREATED; PERMISSION_UPDATED; PERMISSION_DELETED;
   ROUTE_OPENED; ROUTE_CLOSED].

(** A closure of [once] made for the kind [event]: the kind it unsubscribes
    itself from. *)
Definition once_for (event : EventBusEnum) (f : IEventCallable) : Prop :=
  match f with
  | Listener _ => False
  | OnceClosure _ e _ => e = event
  end.

#[global] Instance once_for_dec event f : Decision (once_for event f).
Proof. destruct f; simpl; apply _. Defined.

(** The closures that [batchOnce(event, gs)] allocates when the counter of
    closures stands at [c], in order. *)
Fixpoint batchOnce_closures (c : nat) (event : EventBusEnum) (gs : list IEventCallable)
    : list IEventCallable :=
  match gs with
  | [] => []
  | g :: gs' => OnceClosure c event g :: batchOnce_closures (S c) event gs'
  end.

(** The closures that [multipleOnce(es, g)] allocates for the kind [event]
    when the counter of closures stands at [c]: one for each occurrence of
    [event] in [es]. *)
Fixpoint multipleOnce_closures (c : nat) (event : EventBusEnum) (g : IEventCallable)
    (es : list EventBusEnum) : list IEventCallable :=
  match es with
  | [] => []
  | e :: es' =>
      (if decide (e = event) then [OnceClosure c e g] else []) ++
      multipleOnce_closures (S c) event g es'
  end.

(** A function of the application, or a closure of [once] made for the kind
    [event] around a function of the application. *)
Definition at_home (event : EventBusEnum) (f : IEventCallable) : Prop :=
  match f with
  | Listener _ => True
  | OnceClosure _ e g => e = event ∧ ∃ l, g = Listener l
  end.

(** Every function held by the [Set] of a kind is at home there. *)
Definition closures_at_home (s : state) : Prop :=
  Forall
    (λ ka : EventBusEnum * nat,
       Forall (at_home ka.1) (from_option ESSet.values [] (heap s !! ka.2)))
    (stack s).

(** The application that also has a function clearing the kind it listens
    to (30), one clearing the registry (31), and one dispatching again with
    an empty payload (32). *)
Definition app2 (l : nat) (payload : IEventPayload) : list stmt :=
  match l with
  | 10 => [Throw]
  | 30 => [Clear USER_CREATED]
  | 31 => [ClearAll]
  | 32 => [Dispatch USER_UPDATED []]
  | _ => []
  end.

(** ** What a dispatch can reach *)

(** The pairs of a kind and a function that a statement registers: [(e, l)]
    when it subscribes the function [l] to the kind [e], as itself or inside
    a closure of [once]. *)
Definition subscribes (c : stmt) : list (EventBusEnum * nat) :=
  match c with
  | Subscribe e l | Once e l => [(e, l)]
  | Batch e ls | BatchOnce e ls => (λ l, (e, l)) <$> ls
  | Multiple es l | MultipleOnce es l => (λ e, (e, l)) <$> es
  | Dispatch _ _ | Unsubscribe _ _ | Clear _ | ClearAll | Throw => []
  end.

(** A kind that is dispatched, or a function of the application that is
    called. *)
Inductive node : Type :=
  | Kind (event : EventBusEnum)
  | Fn (l : nat).

(** [reached code s K P x p]: the pass of [dispatch(K, P)] that starts in the
    state [s] can dispatch the kind [x], or call the function [x], with the
    payload [p].  It dispatches [K] with [P]; a kind that is dispatched has
    its listeners called, a closure of [once] calling the function it
    wraps; a function that is called dispatches the kinds its body
    dispatches, and the functions its body subscribes to a kind are called
    when that kind is dispatched. *)
Inductive reached (code : nat → IEventPayload → list stmt) (s : state)
    (K : EventBusEnum) (P : IEventPayload) : node → IEventPayload → Prop :=
  | reached_root : reached code s K P (Kind K) P
  | reached_member e p f :
      reached code s K P (Kind e) p →
      f ∈ registered e s →
      reached code s K P (Fn (target f)) p
  | reached_dispatch l p e p' :
      reached code s K P (Fn l) p →
      Dispatch e p' ∈ code l p →
      reached code s K P (Kind e) p'
  | reached_subscribe l p c e l' p' :
      reached code s K P (Fn l) p →
      c ∈ code l p →
      (e, l') ∈ subscribes c →
      reached code s K P (Kind e) p' →
      reached code s K P (Fn l') p'.

(** A footprint: [D e p] for the kinds that may be dispatched and [F l p]
    for the functions that may be called, each with a payload.  A statement
    is allowed by it when the kind it dispatches is in [D] and the functions
    it subscribes to a kind of [D] are in [F]. *)
Definition allowed (D : EventBusEnum → IEventPayload → Prop)
    (F : nat → IEventPayload → Prop) (c : stmt) : Prop :=
  (∀ e p, c = Dispatch e p → D e p) ∧
  (∀ e l p, (e, l) ∈ subscribes c → D e p → F l p).

(** The listeners of the kinds of [D] are in [F]. *)
Definition covered (D : EventBusEnum → IEventPayload → Prop)
    (F : nat → IEventPayload → Prop) (s : state) : Prop :=
  ∀ e p f, D e p → f ∈ registered e s → F (target f) p.

(** The [Set] object at [a] can be walked with the payload [p]: it holds
    functions of [F] only, and the kind it belongs to, if any, is in [D]. *)
Definition good (D : EventBusEnum → IEventPayload → Prop)
    (F : nat → IEventPayload → Prop) (p : IEventPayload) (s : state) (a : nat)
    : Prop :=
  a < length (heap s) ∧
  (∀ e, get e s = Some a → D e p) ∧
  (∀ d f, heap s !! a = Some d → f ∈ ESSet.values d → F (target f) p).

(** From [s] to [s'] the [Set] objects that could be walked still can, and
    the calls made in between are calls of functions of [F]. *)
Definition extends (D : EventBusEnum → IEventPayload → Prop)
    (F : nat → IEventPayload → Prop) (s s' : state) : Prop :=
  (∀ a p, good D F p s a → good D F p s' a) ∧
  ∃ tr, calls s' = calls s ++ tr ∧ Forall (λ c, F (target c.1) c.2) tr.

(** A run from [s] ended within the footprint. *)
Definition within (D : EventBusEnum → IEventPayload → Prop)
    (F : nat → IEventPayload → Prop) (s : state) (r : state * completion)
    : Prop :=
  wf r.1 ∧ covered D F r.1 ∧ extends D F s r.1.

(** A registry for the examples, in which function 1 is held in four
    places: by a [Set] that [clearAll] has dropped from the map, by the
    [Set] of [USER_CREATED] next to functions 20 and 2, by the [Set] of
    [USER_UPDATED], and inside a closure of [once] for [USER_DELETED]. *)
Definition crowded : state :=
  once USER_DELETED (Listener 1)
    (subscribe USER_UPDATED (Listener 1)
       (batch USER_CREATED [Listener 20; Listener 1; Listener 2]
          (clearAll (subscribe USER_CREATED (Listener 1) initial)))).

(** * Properties *)

(** ** Facts on [Set] data *)

Module ESSetFacts.
Import ESSet.

Lemma values_app (d1 d2 : IEventSet) : values (d1 ++ d2) = values d1 ++ values d2.
Proof. apply omap_app. Qed.

Lemma elem_of_values (d : IEventSet) f : f ∈ values d ↔ Some f ∈ d.
Proof.
  unfold values. rewrite list_elem_of_omap. split.
  - intros (x & Hx & Hid). simpl in Hid. by subst.
  - intros H. by exists (Some f).
Qed.

Lemma has_values (d : IEventSet) f : has d f = true ↔ f ∈ values d.
Proof. unfold has. rewrite bool_decide_eq_true. symmetry. apply elem_of_values. Qed.

Lemma values_add f (d : IEventSet) :
  values (add f d) = if decide (f ∈ values d) then values d else values d ++ [f].
Proof.
  unfold add, has. destruct (decide (f ∈ values d)) as [H|H].
  - apply elem_of_values in H. by rewrite bool_decide_eq_true_2.
  - rewrite bool_decide_eq_false_2 by by rewrite <- elem_of_values.
    by rewrite values_app.
Qed.

Lemma add_member f (d : IEventSet) : f ∈ values d → add f d = d.
Proof. intros H. unfold add. apply has_values in H. by rewrite H. Qed.

Lemma values_delete f (d : IEventSet) :
  values (delete f d) = filter (λ g, g ≠ f) (values d).
Proof.
  induction d as [|[g|] d IH]; simpl; [done| |done].
  rewrite filter_cons. destruct (decide (Some g = Some f)) as [E|N].
  - simplify_eq. rewrite decide_False by naive_solver. apply IH.
  - rewrite decide_True by congruence. simpl. f_equal. apply IH.
Qed.

Lemma delete_not_member f (d : IEventSet) : f ∉ values d → delete f d = d.
Proof.
  rewrite elem_of_values. intros H. unfold delete.
  induction d as [|e d IH]; simpl; [done|].
  rewrite not_elem_of_cons in H. destruct H as [Hne H].
  rewrite decide_False by done. f_equal. by apply IH.
Qed.

Lemma drop_delete f (d : IEventSet) i : drop i (delete f d) = delete f (drop i d).
Proof. unfold delete. by rewrite fmap_drop. Qed.

Lemma length_delete f (d : IEventSet) : length (delete f d) = length d.
Proof. unfold delete. by rewrite length_fmap. Qed.

Lemma values_clear (d : IEventSet) : values (clear d) = [].
Proof. induction d as [|e d IH]; simpl; done. Qed.

Lemma clear_of_holes (d : IEventSet) : values d = [] → clear d = d.
Proof.
  induction d as [|[g|] d IH]; simpl; [done|done|].
  intros H. f_equal. by apply IH.
Qed.

(** [next] finds the head of the members from index [i] on. *)
Lemma next_None i (d : IEventSet) : next i d = None ↔ values (drop i d) = [].
Proof.
  revert i. induction d as [|e d IH]; intros i; simpl.
  - by rewrite drop_nil.
  - destruct i as [|i]; simpl.
    + destruct e as [g|]; simpl; [done|].
      rewrite fmap_None. apply (IH 0).
    + rewrite fmap_None. apply IH.
Qed.

Lemma next_Some i (d : IEventSet) j f :
  next i d = Some (j, f) →
  i ≤ j ∧ d !! j = Some (Some f) ∧ values (drop i d) = f :: values (drop (S j) d).
Proof.
  revert i j. induction d as [|e d IH]; intros i j; simpl; [done|].
  destruct i as [|i].
  - destruct e as [g|]; simpl.
    + intros [= <- <-]. rewrite drop_0. done.
    + rewrite fmap_Some. intros ([j' f'] & H & [= -> ->]).
      apply IH in H as (_ & H1 & H2). rewrite drop_0 in H2. split; [lia|]. done.
  - rewrite fmap_Some. intros ([j' f'] & H & [= -> ->]).
    apply IH in H as (Hle & H1 & H2). split; [lia|]. done.
Qed.

Lemma next_values i (d : IEventSet) f vs :
  values (drop i d) = f :: vs →
  ∃ j, next i d = Some (j, f) ∧ values (drop (S j) d) = vs.
Proof.
  intros H. destruct (next i d) as [[j g]|] eqn:E.
  - apply next_Some in E as (_ & _ & E). rewrite H in E. simplify_eq. eauto.
  - apply next_None in E. congruence.
Qed.

End ESSetFacts.

(** ** Fields after each method *)

Lemma on_set_stack a f s : stack (on_set a f s) = stack s.
Proof. by destruct a. Qed.

Lemma on_set_calls a f s : calls (on_set a f s) = calls s.
Proof. by destruct a. Qed.

Lemma on_set_closures a f s : closures (on_set a f s) = closures s.
Proof. by destruct a. Qed.

Lemma on_set_length a f s : length (heap (on_set a f s)) = length (heap s).
Proof. destruct a; simpl; [apply length_alter|done]. Qed.

(** A method of one [Set] object leaves the data of the others alone. *)
Lemma on_set_lookup a f s b :
  heap (on_set a f s) !! b =
  if decide (a = Some b) then f <$> heap s !! b else heap s !! b.
Proof.
  destruct a as [a|]; unfold on_set, with_heap; cbn [heap].
  - rewrite list_lookup_alter. repeat case_decide; congruence.
  - by rewrite decide_False.
Qed.

Lemma unsubscribe_stack e f s : stack (unsubscribe e f s) = stack s.
Proof. apply on_set_stack. Qed.

Lemma unsubscribe_calls e f s : calls (unsubscribe e f s) = calls s.
Proof. apply on_set_calls. Qed.

Lemma get_record e f p s : get e (record f p s) = get e s.
Proof. done. Qed.

(** ** The equations of the interpreter *)

Section Equations.

Variable code : nat → IEventPayload → list stmt.

Lemma call_S n f payload s :
  call code (S n) f payload s =
  match f with
  | Listener l => run code n (code l payload) (record f payload s)
  | OnceClosure _ event callable =>
      call code n callable payload (record f payload s) >>>
      λ s1, (unsubscribe event f s1, Normal)
  end.
Proof. done. Qed.

Lemma run_nil n s : run code n [] s = (s, Normal).
Proof. by destruct n. Qed.

Lemma run_cons_S n c rest s :
  run code (S n) (c :: rest) s =
  match c with
  | Dispatch e p => dispatch code n e p s
  | Throw => (s, Thrown)
  | _ => (quiet c s, Normal)
  end >>> run code n rest.
Proof. done. Qed.

Lemma forEach_eq n a i payload s :
  forEach code n a i payload s =
  match heap s !! a with
  | None => (s, Normal)
  | Some d =>
      match ESSet.next i d with
      | None => (s, Normal)
      | Some (j, f) =>
          match n with
          | O => (s, OutOfFuel)
          | S n' =>
              call code n' f payload s >>> forEach code n' a (S j) payload
          end
      end
  end.
Proof. by destruct n. Qed.

Lemma dispatch_eq n event payload s :
  dispatch code n event payload s =
  match get event s with
  | Some a => forEach code n a 0 payload s
  | None => (s, Normal)
  end.
Proof. done. Qed.

End Equations.

Section Plain.

Variable code : nat → IEventPayload → list stmt.
Variable payload : IEventPayload.

Lemma inert_plain f : inert code payload f → plain code payload f.
Proof. by destruct f. Qed.

(** A plain function returns, with the effect [after_call] gives. *)
Lemma call_plain n f s :
  plain code payload f → 2 ≤ n →
  call code n f payload s = (after_call payload f s, Normal).
Proof.
  intros Hf Hn. destruct n as [|[|n]]; [lia|lia|].
  destruct f as [l|c e [l|]]; simpl in *; [by rewrite Hf| |done].
  rewrite Hf. by destruct n.
Qed.

Lemma after_call_stack f s : stack (after_call payload f s) = stack s.
Proof. destruct f; [done|]. unfold after_call. by rewrite unsubscribe_stack. Qed.

Lemma after_call_closures f s : closures (after_call payload f s) = closures s.
Proof.
  destruct f; [done|]. unfold after_call, unsubscribe.
  by rewrite on_set_closures.
Qed.

Lemma after_call_calls f s :
  plain code payload f →
  calls (after_call payload f s) = calls s ++ invocations payload f.
Proof.
  destruct f as [l|c e [l|]]; [done| |done].
  intros _. unfold after_call. rewrite unsubscribe_calls. simpl.
  by rewrite <- app_assoc.
Qed.

(** After the call, the [Set] at [a] has lost at most [f] itself. *)
Lemma after_call_heap f s a d :
  heap s !! a = Some d →
  ∃ d', heap (after_call payload f s) !! a = Some d' ∧
        (d' = d ∨ d' = ESSet.delete f d).
Proof.
  intros Hd. destruct f as [l|c e g]; [simpl; eauto|].
  unfold after_call, unsubscribe. rewrite on_set_lookup. cbn [heap record].
  rewrite Hd. case_decide; simpl; eauto.
Qed.

Lemma after_call_inert f s :
  inert code payload f → after_call payload f s = record f payload s.
Proof. by destruct f. Qed.

End Plain.

(** ** The loop over plain functions *)

Section ForEach.

Variable code : nat → IEventPayload → list stmt.
Variable payload : IEventPayload.
Variable a : nat.

Import ESSet ESSetFacts.

(** The loop with nothing left to visit returns at once. *)
Lemma forEach_done n i s d :
  heap s !! a = Some d → values (drop i d) = [] →
  forEach code n a i payload s = (s, Normal).
Proof.
  intros Hd Hv. apply next_None in Hv. by rewrite forEach_eq, Hd, Hv.
Qed.

Lemma forEach_dangling n i s :
  heap s !! a = None → forEach code n a i payload s = (s, Normal).
Proof. intros Hd. by rewrite forEach_eq, Hd. Qed.

(** One turn of the loop. *)
Lemma forEach_turn n i s d j f :
  heap s !! a = Some d → next i d = Some (j, f) →
  forEach code (S n) a i payload s =
  call code n f payload s >>> forEach code n a (S j) payload.
Proof. intros Hd Hn. by rewrite forEach_eq, Hd, Hn. Qed.

(** The loop passes over a run [vs] of plain functions: each is called in
    turn, and the loop stands before what came after them. *)
Lemma forEach_prefix vs : ∀ s i d rest n,
  heap s !! a = Some d →
  values (drop i d) = vs ++ rest →
  Forall (plain code payload) vs →
  NoDup (vs ++ rest) →
  2 ≤ n →
  ∃ j d',
    heap (foldl (λ s f, after_call payload f s) s vs) !! a = Some d' ∧
    values (drop j d') = rest ∧
    forEach code (length vs + n) a i payload s =
    forEach code n a j payload (foldl (λ s f, after_call payload f s) s vs).
Proof.
  induction vs as [|f vs IH]; intros s i d rest n Hd Hv Hp Hnd Hn.
  - exists i, d. done.
  - simpl in Hv, Hnd. cbn [length foldl Nat.add].
    apply next_values in Hv as (j0 & Hnext & Hv).
    rewrite (forEach_turn _ _ _ _ _ _ Hd Hnext).
    apply Forall_cons in Hp as [Hf Hp]. apply NoDup_cons in Hnd as [Hnotin Hnd].
    rewrite (call_plain code payload) by (done || lia). simpl.
    destruct (after_call_heap payload f s a d Hd) as (d1 & Hd1 & Hor).
    apply (IH _ (S j0) d1); try done.
    destruct Hor as [->| ->]; [done|].
    rewrite drop_delete, delete_not_member; [done|by rewrite Hv].
Qed.

(** The loop over a [Set] of plain functions returns, having called each
    member in insertion order. *)
Lemma forEach_plain s i d n :
  heap s !! a = Some d →
  Forall (plain code payload) (values (drop i d)) →
  NoDup (values (drop i d)) →
  length (values (drop i d)) + 2 ≤ n →
  forEach code n a i payload s =
  (foldl (λ s f, after_call payload f s) s (values (drop i d)), Normal).
Proof.
  intros Hd Hp Hnd Hn.
  replace n with (length (values (drop i d)) + (n - length (values (drop i d)))) by lia.
  destruct (forEach_prefix (values (drop i d)) s i d [] (n - length (values (drop i d))))
    as (j & d' & Hd' & Hv & ->); rewrite ?app_nil_r; try done; [lia|].
  by apply forEach_done with d'.
Qed.

End ForEach.

(** ** Facts on [Map] data *)

Module ESMapFacts.
Import ESMap.

Lemma get_Some (m : t) k v : get m k = Some v → (k, v) ∈ m.
Proof.
  induction m as [|[k' v'] m IH]; simpl; [done|].
  case_decide as E.
  - intros [= ->]. subst. apply list_elem_of_here.
  - intros H. apply list_elem_of_further. by apply IH.
Qed.

Lemma get_None (m : t) k : get m k = None ↔ k ∉ keys m.
Proof.
  unfold keys. induction m as [|[k' v'] m IH]; simpl.
  - split; [intros _; apply not_elem_of_nil|done].
  - rewrite not_elem_of_cons. case_decide as E; simpl.
    + split; [done|]. intros [? _]. by subst.
    + rewrite IH. split; [intros ?; split; [congruence|done]|by intros [_ ?]].
Qed.

Lemma has_get (m : t) k : has m k = true ↔ is_Some (get m k).
Proof.
  unfold has. rewrite <- not_eq_None_Some. by destruct (get m k).
Qed.

Lemma get_elem_of (m : t) k v : NoDup (keys m) → (k, v) ∈ m → get m k = Some v.
Proof.
  unfold keys. induction m as [|[k' v'] m IH]; simpl; intros Hnd Hin.
  - by apply elem_of_nil in Hin.
  - apply NoDup_cons in Hnd as [Hk Hnd]. apply elem_of_cons in Hin as [E|Hin].
    + simplify_eq. by rewrite decide_True.
    + case_decide as E; [|by apply IH]. subst. destruct Hk.
      apply list_elem_of_fmap. by exists (k, v).
Qed.

(** [set] on a key that is not there appends the entry. *)
Lemma set_fresh (m : t) k v : get m k = None → set k v m = m ++ [(k, v)].
Proof.
  induction m as [|[k' v'] m IH]; simpl; [done|].
  case_decide as E; [done|]. intros H. f_equal. by apply IH.
Qed.

Lemma get_snoc (m : t) k v k' :
  get (m ++ [(k, v)]) k' =
  match get m k' with
  | Some a => Some a
  | None => if decide (k = k') then Some v else None
  end.
Proof.
  induction m as [|[k0 v0] m IH]; simpl; [done|].
  destruct (decide (k0 = k')); [done|apply IH].
Qed.

End ESMapFacts.

(** ** Facts on the methods *)

Lemma alter_snoc {A} (f : A → A) (l : list A) x :
  alter f (length l) (l ++ [x]) = l ++ [f x].
Proof.
  replace (length l) with (length l + 0) by lia. by rewrite alter_app_r.
Qed.

Lemma get_on_set e a f s : get e (on_set a f s) = get e s.
Proof. unfold get. by rewrite on_set_stack. Qed.

(** [subscribe] on a kind that has its [Set]: only [add]. *)
Lemma subscribe_present e f s a :
  get e s = Some a → subscribe e f s = on_set (Some a) (ESSet.add f) s.
Proof.
  unfold get, subscribe, ESMap.has. intros H. by rewrite H, H.
Qed.

(** [subscribe] on a kind without entry: a new [Set] object, holding [f]. *)
Lemma subscribe_absent e f s :
  get e s = None →
  subscribe e f s =
  {| stack := stack s ++ [(e, length (heap s))];
     heap := heap s ++ [[Some f]];
     closures := closures s; calls := calls s |}.
Proof.
  unfold get, subscribe, ESMap.has. intros H. rewrite H.
  cbn [new_Set with_stack with_heap stack heap closures calls].
  rewrite (ESMapFacts.set_fresh _ _ _ H), ESMapFacts.get_snoc, H.
  rewrite decide_True by done. unfold on_set, with_heap.
  simpl. f_equal. by rewrite alter_snoc.
Qed.

Lemma subscribe_calls e f s : calls (subscribe e f s) = calls s.
Proof.
  destruct (get e s) as [a|] eqn:E.
  - rewrite (subscribe_present _ _ _ _ E). apply on_set_calls.
  - by rewrite (subscribe_absent _ _ _ E).
Qed.

Lemma subscribe_closures e f s : closures (subscribe e f s) = closures s.
Proof.
  destruct (get e s) as [a|] eqn:E.
  - rewrite (subscribe_present _ _ _ _ E). apply on_set_closures.
  - by rewrite (subscribe_absent _ _ _ E).
Qed.

(** The kind subscribed to has an entry afterwards, and the entries there
    were stay in place. *)
Lemma events_subscribe e f s :
  events (subscribe e f s) = if decide (e ∈ events s) then events s else events s ++ [e].
Proof.
  unfold events. destruct (get e s) as [a|] eqn:E.
  - rewrite (subscribe_present _ _ _ _ E), on_set_stack.
    rewrite decide_True; [done|].
    apply ESMapFacts.get_Some in E. unfold ESMap.keys.
    apply list_elem_of_fmap. by exists (e, a).
  - rewrite (subscribe_absent _ _ _ E). cbn [stack].
    apply ESMapFacts.get_None in E. rewrite decide_False by done.
    unfold ESMap.keys. by rewrite fmap_app.
Qed.

Lemma events_unsubscribe e f s : events (unsubscribe e f s) = events s.
Proof. unfold events, unsubscribe. by rewrite on_set_stack. Qed.

Lemma events_clear e s : events (clear e s) = events s.
Proof. unfold events, clear. by rewrite on_set_stack. Qed.

(** The members after [unsubscribe], [clear]: no well-formedness needed. *)
Lemma set_of_on_set e f s :
  set_of e (on_set (get e s) f s) = f <$> set_of e s.
Proof.
  unfold set_of. rewrite get_on_set. destruct (get e s) as [a|] eqn:E; [|done].
  cbn [mbind option_bind]. rewrite on_set_lookup. by rewrite decide_True.
Qed.

Lemma registered_unsubscribe e f s :
  registered e (unsubscribe e f s) = filter (λ g, g ≠ f) (registered e s).
Proof.
  unfold registered, unsubscribe. fold (get e s). rewrite set_of_on_set.
  destruct (set_of e s) as [d|]; simpl; [|done]. apply ESSetFacts.values_delete.
Qed.

Lemma registered_clear e s : registered e (clear e s) = [].
Proof.
  unfold registered, clear. fold (get e s). rewrite set_of_on_set.
  destruct (set_of e s) as [d|]; simpl; [|done]. apply ESSetFacts.values_clear.
Qed.

Lemma registered_record e f p s : registered e (record f p s) = registered e s.
Proof. done. Qed.

(** ** Well-formed states *)

Lemma NoDup_fmap_elem_eq {A B} (f : A → B) (l : list A) x y :
  NoDup (f <$> l) → x ∈ l → y ∈ l → f x = f y → x = y.
Proof.
  induction l as [|z l IH]; csimpl; intros Hnd Hx Hy E.
  - by apply elem_of_nil in Hx.
  - apply NoDup_cons in Hnd as [Hz Hnd].
    apply elem_of_cons in Hx as [->|Hx]; apply elem_of_cons in Hy as [->|Hy].
    + done.
    + destruct Hz. rewrite E. by apply list_elem_of_fmap_2.
    + destruct Hz. rewrite <- E. by apply list_elem_of_fmap_2.
    + by apply IH.
Qed.

Section WellFormed.

Variable s : state.
Hypothesis Hwf : wf s.

(** The reference a kind maps to is the reference of an object. *)
Lemma wf_bound e a : get e s = Some a → a < length (heap s).
Proof.
  destruct Hwf as (_ & _ & Hb & _). intros H.
  apply ESMapFacts.get_Some in H. rewrite Forall_forall in Hb. apply Hb.
  unfold ESMap.values. apply list_elem_of_fmap. by exists (e, a).
Qed.

Lemma wf_set_of e a : get e s = Some a → ∃ d, heap s !! a = Some d.
Proof. intros H. apply lookup_lt_is_Some_2. by apply wf_bound with e. Qed.

(** No two kinds share a [Set] object. *)
Lemma wf_inj e1 e2 a : get e1 s = Some a → get e2 s = Some a → e1 = e2.
Proof.
  destruct Hwf as (_ & Hv & _). intros H1 H2.
  apply ESMapFacts.get_Some in H1, H2.
  assert ((e1, a) = (e2, a)) as [=]; [|done].
  by apply (NoDup_fmap_elem_eq snd (stack s)).
Qed.

Lemma wf_heap_NoDup a d : heap s !! a = Some d → NoDup (ESSet.values d).
Proof.
  destruct Hwf as (_ & _ & _ & Hn & _). intros H.
  by apply (Forall_lookup_1 _ _ _ _ Hn H).
Qed.

Lemma wf_heap_allocated a d f :
  heap s !! a = Some d → f ∈ ESSet.values d → allocated (closures s) f.
Proof.
  destruct Hwf as (_ & _ & _ & _ & Hn). intros H Hf.
  pose proof (Forall_lookup_1 _ _ _ _ Hn H) as Hd.
  rewrite Forall_forall in Hd. by apply Hd.
Qed.

Lemma registered_set_of e f : f ∈ registered e s → ∃ d, set_of e s = Some d ∧ f ∈ ESSet.values d.
Proof.
  unfold registered. destruct (set_of e s) as [d|]; simpl; [eauto|].
  intros H. by apply elem_of_nil in H.
Qed.

Lemma wf_NoDup e : NoDup (registered e s).
Proof.
  unfold registered, set_of. destruct (get e s) as [a|]; simpl; [|constructor].
  destruct (heap s !! a) as [d|] eqn:E; simpl; [|constructor].
  by apply wf_heap_NoDup with a.
Qed.

Lemma wf_allocated e f : f ∈ registered e s → allocated (closures s) f.
Proof.
  unfold registered, set_of. destruct (get e s) as [a|]; simpl.
  - destruct (heap s !! a) as [d|] eqn:E; simpl.
    + by apply wf_heap_allocated with a.
    + intros H. by apply elem_of_nil in H.
  - intros H. by apply elem_of_nil in H.
Qed.

(** The closure the next [once] allocates is held nowhere yet. *)
Lemma wf_fresh e e' g : OnceClosure (closures s) e' g ∉ registered e s.
Proof. intros H. apply wf_allocated in H. simpl in H. lia. Qed.

(** The members of a kind after [subscribe]. *)
Lemma registered_subscribe e f :
  registered e (subscribe e f s) =
  if decide (f ∈ registered e s) then registered e s else registered e s ++ [f].
Proof.
  unfold registered at 1. destruct (get e s) as [a|] eqn:E.
  - rewrite (subscribe_present _ _ _ _ E). rewrite <- E, set_of_on_set.
    unfold registered, set_of. rewrite E. simpl.
    destruct (wf_set_of e a E) as [d ->]. simpl. apply ESSetFacts.values_add.
  - assert (registered e s = []) as ->.
    { unfold registered, set_of. by rewrite E. }
    rewrite decide_False by apply not_elem_of_nil.
    rewrite (subscribe_absent _ _ _ E). unfold set_of, get in *.
    cbn [stack heap]. rewrite ESMapFacts.get_snoc, E, decide_True by done.
    simpl. by rewrite lookup_app_r, Nat.sub_diag.
Qed.

(** [subscribe] leaves the members of the other kinds alone. *)
Lemma set_of_subscribe_ne e f e' :
  e' ≠ e → set_of e' (subscribe e f s) = set_of e' s.
Proof.
  intros Hne. destruct (get e s) as [a|] eqn:E.
  - rewrite (subscribe_present _ _ _ _ E). unfold set_of.
    rewrite get_on_set. destruct (get e' s) as [a'|] eqn:E'; [|done].
    cbn [mbind option_bind]. rewrite on_set_lookup. rewrite decide_False; [done|].
    intros [= ->]. destruct Hne. by apply wf_inj with a'.
  - rewrite (subscribe_absent _ _ _ E). unfold set_of, get in *.
    cbn [stack heap]. rewrite ESMapFacts.get_snoc.
    destruct (ESMap.get (stack s) e') as [a'|] eqn:E'; simpl.
    + apply lookup_app_l. by apply wf_bound with e'.
    + by rewrite decide_False.
Qed.

Lemma registered_subscribe_ne e f e' :
  e' ≠ e → registered e' (subscribe e f s) = registered e' s.
Proof. intros Hne. unfold registered. by rewrite set_of_subscribe_ne. Qed.

(** [unsubscribe] leaves the members of the other kinds alone. *)
Lemma registered_unsubscribe_ne e f e' :
  e' ≠ e → registered e' (unsubscribe e f s) = registered e' s.
Proof.
  intros Hne. unfold registered, set_of, unsubscribe. rewrite get_on_set.
  destruct (get e' s) as [a'|] eqn:E'; [|done].
  cbn [mbind option_bind]. rewrite on_set_lookup. rewrite decide_False; [done|].
  intros E. destruct Hne. by apply wf_inj with a'.
Qed.

End WellFormed.

(** ** The methods keep the state well-formed *)

Lemma wf_initial : wf initial.
Proof. unfold wf. simpl. repeat split; constructor. Qed.

Lemma wf_record f p s : wf s → wf (record f p s).
Proof. done. Qed.

Lemma allocated_mono c c' f : c ≤ c' → allocated c f → allocated c' f.
Proof. destruct f; simpl; [done|lia]. Qed.

(** A method of one [Set] that keeps it duplicate-free and brings in no
    unallocated closure. *)
Lemma wf_on_set a (f : IEventSet → IEventSet) s :
  wf s →
  (∀ d, NoDup (ESSet.values d) → NoDup (ESSet.values (f d))) →
  (∀ d, Forall (allocated (closures s)) (ESSet.values d) →
        Forall (allocated (closures s)) (ESSet.values (f d))) →
  wf (on_set a f s).
Proof.
  intros (Hk & Hv & Hb & Hn & Hc) Hf1 Hf2. unfold wf.
  rewrite on_set_stack, on_set_length, on_set_closures.
  repeat split; try done; destruct a as [a|]; try done; simpl.
  - apply Forall_alter; [done|]. intros d _. apply Hf1.
  - apply Forall_alter; [done|]. intros d _. apply Hf2.
Qed.

Lemma wf_unsubscribe e f s : wf s → wf (unsubscribe e f s).
Proof.
  intros Hwf. apply wf_on_set; [done|..]; intros d Hd;
    rewrite ESSetFacts.values_delete.
  - by apply NoDup_filter.
  - apply Forall_forall. intros g [_ Hg]%list_elem_of_filter.
    rewrite Forall_forall in Hd. by apply Hd.
Qed.

Lemma wf_clear e s : wf s → wf (clear e s).
Proof.
  intros Hwf. apply wf_on_set; [done|..]; intros d Hd;
    rewrite ESSetFacts.values_clear; constructor.
Qed.

Lemma wf_clearAll s : wf s → wf (clearAll s).
Proof.
  intros (Hk & Hv & Hb & Hn & Hc). unfold wf, clearAll. simpl.
  repeat split; try done; constructor.
Qed.

Lemma wf_subscribe e f s :
  wf s → allocated (closures s) f → wf (subscribe e f s).
Proof.
  intros Hwf Hf. destruct (get e s) as [a|] eqn:E.
  - rewrite (subscribe_present _ _ _ _ E).
    apply wf_on_set; [done|..]; intros d Hd; rewrite ESSetFacts.values_add;
      case_decide as Hin; try done.
    + apply NoDup_app. repeat split; [done| |apply NoDup_singleton].
      intros g Hg ->%list_elem_of_singleton. done.
    + apply Forall_app. split; [done|]. by apply Forall_singleton.
  - rewrite (subscribe_absent _ _ _ E).
    destruct Hwf as (Hk & Hv & Hb & Hn & Hc). unfold wf. simpl.
    unfold ESMap.keys, ESMap.values in *. rewrite !fmap_app. simpl.
    repeat split.
    + apply NoDup_app. repeat split; [done| |apply NoDup_singleton].
      intros k Hk' ->%list_elem_of_singleton.
      by apply ESMapFacts.get_None in E.
    + apply NoDup_app. repeat split; [done| |apply NoDup_singleton].
      intros a Ha ->%list_elem_of_singleton.
      rewrite Forall_forall in Hb. apply Hb in Ha. lia.
    + rewrite length_app. simpl. apply Forall_app. split.
      * eapply Forall_impl; [exact Hb|]. simpl. lia.
      * apply Forall_singleton. lia.
    + apply Forall_app. split; [done|]. apply Forall_singleton.
      apply NoDup_singleton.
    + apply Forall_app. split; [done|]. apply Forall_singleton.
      by apply Forall_singleton.
Qed.

(** Allocating a closure keeps the state well-formed, and the closure is
    allocated in the new state. *)
Lemma wf_new_closure e g s :
  wf s → wf (new_closure e g s).2 ∧
         allocated (closures (new_closure e g s).2) (new_closure e g s).1.
Proof.
  intros (Hk & Hv & Hb & Hn & Hc). unfold wf. simpl. repeat split; try done; [|lia].
  eapply Forall_impl; [exact Hc|]. intros d Hd. simpl in Hd.
  eapply Forall_impl; [exact Hd|]. intros f. apply allocated_mono. lia.
Qed.

Lemma wf_once e g s : wf s → wf (once e g s).
Proof.
  intros Hwf. unfold once.
  destruct (wf_new_closure e g s Hwf) as [H1 H2].
  destruct (new_closure e g s) as [c s'] eqn:E. by apply wf_subscribe.
Qed.

Lemma wf_multiple es l s : wf s → wf (multiple es (Listener l) s).
Proof.
  unfold multiple. revert s. induction es as [|e es IH]; intros s Hwf; simpl; [done|].
  apply IH. by apply wf_subscribe.
Qed.

Lemma wf_batch e ls s : wf s → wf (batch e (Listener <$> ls) s).
Proof.
  unfold batch. revert s. induction ls as [|l ls IH]; intros s Hwf; simpl; [done|].
  apply IH. by apply wf_subscribe.
Qed.

Lemma wf_multipleOnce es g s : wf s → wf (multipleOnce es g s).
Proof.
  unfold multipleOnce. revert s. induction es as [|e es IH]; intros s Hwf; simpl; [done|].
  apply IH. by apply wf_once.
Qed.

Lemma wf_batchOnce e gs s : wf s → wf (batchOnce e gs s).
Proof.
  unfold batchOnce. revert s. induction gs as [|g gs IH]; intros s Hwf; simpl; [done|].
  apply IH. by apply wf_once.
Qed.

(** A statement that calls no listener keeps the state well-formed. *)
Lemma wf_quiet c s : wf s → wf (quiet c s).
Proof.
  intros Hwf. destruct c; simpl; try done.
  - by apply wf_subscribe.
  - by apply wf_unsubscribe.
  - by apply wf_once.
  - by apply wf_batch.
  - by apply wf_batchOnce.
  - by apply wf_multiple.
  - by apply wf_multipleOnce.
  - by apply wf_clear.
  - by apply wf_clearAll.
Qed.

(** ** A pass of [dispatch] over plain functions *)

Section Pass.

Variable code : nat → IEventPayload → list stmt.
Variable payload : IEventPayload.

Lemma pass_cons f vs s :
  pass payload (f :: vs) s = pass payload vs (after_call payload f s).
Proof. done. Qed.

Lemma pass_app vs ws s :
  pass payload (vs ++ ws) s = pass payload ws (pass payload vs s).
Proof. apply foldl_app. Qed.

Lemma pass_stack vs s : stack (pass payload vs s) = stack s.
Proof.
  revert s. induction vs as [|f vs IH]; intros s; [done|].
  by rewrite pass_cons, IH, after_call_stack.
Qed.

Lemma pass_closures vs s : closures (pass payload vs s) = closures s.
Proof.
  revert s. induction vs as [|f vs IH]; intros s; [done|].
  by rewrite pass_cons, IH, after_call_closures.
Qed.

Lemma pass_calls vs s :
  Forall (plain code payload) vs →
  calls (pass payload vs s) = calls s ++ flat_map (invocations payload) vs.
Proof.
  revert s. induction vs as [|f vs IH]; intros s Hp.
  - simpl. by rewrite app_nil_r.
  - apply Forall_cons in Hp as [Hf Hp].
    rewrite pass_cons, IH by done. rewrite (after_call_calls code) by done.
    simpl. by rewrite <- app_assoc.
Qed.

(** Inert functions leave nothing but their calls. *)
Lemma pass_inert vs s :
  Forall (inert code payload) vs →
  pass payload vs s = noted ((λ f, (f, payload)) <$> vs) s.
Proof.
  revert s. induction vs as [|f vs IH]; intros s Hp.
  - unfold noted. simpl. rewrite app_nil_r. by destruct s.
  - apply Forall_cons in Hp as [Hf Hp].
    rewrite pass_cons, IH by done. rewrite (after_call_inert code) by done.
    unfold noted, record. simpl. by rewrite <- app_assoc.
Qed.

Lemma invocations_inert vs :
  Forall (inert code payload) vs →
  flat_map (invocations payload) vs = (λ f, (f, payload)) <$> vs.
Proof.
  induction 1 as [|f vs Hf _ IH]; simpl; [done|].
  destruct f; [|done]. simpl. by rewrite IH.
Qed.

(** [dispatch] on a kind whose members are plain: every member is called,
    in insertion order. *)
Lemma dispatch_plain n event s :
  Forall (plain code payload) (registered event s) →
  NoDup (registered event s) →
  length (registered event s) + 2 ≤ n →
  dispatch code n event payload s = (pass payload (registered event s) s, Normal).
Proof.
  rewrite dispatch_eq. unfold registered, set_of.
  destruct (get event s) as [a|]; [|done]. cbn [mbind option_bind].
  destruct (heap s !! a) as [d|] eqn:E; cbn [from_option].
  - intros Hp Hnd Hn. rewrite <- (drop_0 d) in Hp, Hnd, Hn |- *.
    by apply forEach_plain.
  - intros _ _ _. by apply forEach_dangling.
Qed.

(** [dispatch] on a kind without member returns at once, whatever the
    fuel: there is nothing to call. *)
Lemma dispatch_no_member n event s :
  registered event s = [] →
  dispatch code n event payload s = (s, Normal).
Proof.
  rewrite dispatch_eq. unfold registered, set_of.
  destruct (get event s) as [a|]; [|done]. cbn [mbind option_bind].
  destruct (heap s !! a) as [d|] eqn:E; cbn [from_option].
  - intros Hv. apply forEach_done with d; [done|]. by rewrite drop_0.
  - intros _. by apply forEach_dangling.
Qed.

End Pass.

(** ** Dispatch calls the registered listeners *)

(** Settles a decidable statement on concrete data by evaluation. *)
Ltac by_evaluation :=
  refine (bool_decide_unpack _ _); vm_compute; exact I.

(** C4. [dispatch(K, P)] calls every listener registered for [K] exactly once,
    in the order the listeners were added, with [P] as argument: the calls it
    adds are those of the members of [K]'s set, in insertion order (a closure
    of [once] calling the function it wraps).  Without a set for [K],
    [dispatch] changes nothing.  The listeners are plain: they return without
    calling into the registry. *)
Theorem dispatch_calls_registered_in_order code K P s :
  (get K s = None → ∀ n, dispatch code n K P s = (s, Normal)) ∧
  (∀ n,
     Forall (plain code P) (registered K s) →
     NoDup (registered K s) →
     length (registered K s) + 2 ≤ n →
     ∃ s', dispatch code n K P s = (s', Normal) ∧
           stack s' = stack s ∧
           calls s' = calls s ++ flat_map (invocations P) (registered K s)).
Proof.
  split.
  - intros H n. rewrite dispatch_eq. by rewrite H.
  - intros n Hp Hnd Hn. exists (pass P (registered K s) s).
    split; [by apply dispatch_plain|]. split; [apply pass_stack|].
    by apply pass_calls with code.
Qed.

(** Two listeners subscribed to ["user:created"] both receive [{id: 7}], once
    each, in the order of subscription; a kind without entry is left alone. *)
Lemma dispatch_calls_registered_in_order_witness :
  let s := subscribe USER_CREATED (Listener 2)
             (subscribe USER_CREATED (Listener 1) initial) in
  (get ROLE_CREATED s = None ∧
   dispatch app 0 ROLE_CREATED id7 s = (s, Normal)) ∧
  Forall (plain app id7) (registered USER_CREATED s) ∧
  NoDup (registered USER_CREATED s) ∧
  length (registered USER_CREATED s) + 2 ≤ 4 ∧
  ∃ s', dispatch app 4 USER_CREATED id7 s = (s', Normal) ∧
        stack s' = stack s ∧
        calls s' = [(Listener 1, id7); (Listener 2, id7)].
Proof.
  intros s.
  assert (Forall (plain app id7) (registered USER_CREATED s)) as Hp
    by (repeat constructor).
  assert (NoDup (registered USER_CREATED s)) as Hnd
    by by_evaluation.
  assert (length (registered USER_CREATED s) + 2 ≤ 4) as Hn by (simpl; lia).
  split; [split; [reflexivity|]|].
  - exact (proj1 (dispatch_calls_registered_in_order app ROLE_CREATED id7 s)
             eq_refl 0).
  - split; [exact Hp|]. split; [exact Hnd|]. split; [exact Hn|].
    exact (proj2 (dispatch_calls_registered_in_order app USER_CREATED id7 s)
             4 Hp Hnd Hn).
Defined.

(** ** Clearing a kind *)

Lemma events_subscribe_mono e e' f s : e ∈ events s → e ∈ events (subscribe e' f s).
Proof.
  intros H. rewrite events_subscribe. case_decide; [done|].
  apply elem_of_app. by left.
Qed.

Lemma events_subscribe_here e f s : e ∈ events (subscribe e f s).
Proof.
  rewrite events_subscribe. case_decide; [done|].
  apply elem_of_app. right. apply list_elem_of_here.
Qed.

Lemma events_batch_mono e e' fs s : e ∈ events s → e ∈ events (batch e' fs s).
Proof.
  unfold batch. revert s. induction fs as [|f fs IH]; intros s H; simpl; [done|].
  apply IH. by apply events_subscribe_mono.
Qed.

Lemma events_batch_here e fs s : fs ≠ [] → e ∈ events (batch e fs s).
Proof.
  destruct fs as [|f fs]; [done|]. intros _. unfold batch. simpl.
  apply (events_batch_mono e e fs). apply events_subscribe_here.
Qed.

(** C8. [clear(K)] removes every listener of [K] and keeps [K]'s entry: the
    keys of the registry are the same, [K] has no member left, and a
    [dispatch(K, P)] calls nothing.  So after [batch(K, [L1, L2, L3])] and
    [clear(K)], none of the three is called and [K] is among [events]. *)
Theorem clear_empties_set_keeps_entry code K P s :
  let s' := clear K s in
  events s' = events s ∧
  registered K s' = [] ∧
  (∀ n, dispatch code n K P s' = (s', Normal)) ∧
  (∀ L1 L2 L3,
     let s3 := clear K (batch K [L1; L2; L3] s) in
     K ∈ events s3 ∧ registered K s3 = [] ∧
     ∀ n, dispatch code n K P s3 = (s3, Normal)).
Proof.
  repeat split.
  - apply events_clear.
  - apply registered_clear.
  - intros n. apply dispatch_no_member, registered_clear.
  - rewrite events_clear. by apply events_batch_here.
  - apply registered_clear.
  - intros n. apply dispatch_no_member, registered_clear.
Qed.

(** ** Invariants of the interpreter *)

(** A property of states that the methods keep, together with a property of
    completions, holds of every call, body and loop, whatever the fuel.
    [okf] says which functions may be called, [okc] which statements may be
    run. *)
Section Invariant.

Variable code : nat → IEventPayload → list stmt.
Variable Inv : state → Prop.
Variable okf : IEventCallable → Prop.
Variable okc : stmt → Prop.
Variable Q : completion → Prop.

Hypothesis Q_normal : Q Normal.
Hypothesis Q_fuel : Q OutOfFuel.
Hypothesis Q_thrown : okc Throw → Q Thrown.
Hypothesis inv_record : ∀ f p s, Inv s → okf f → Inv (record f p s).
Hypothesis inv_unsubscribe : ∀ e f s, Inv s → okf f → Inv (unsubscribe e f s).
Hypothesis inv_quiet : ∀ c s, Inv s → okc c → Inv (quiet c s).
Hypothesis ok_code : ∀ l p, okf (Listener l) → Forall okc (code l p).
Hypothesis ok_callable : ∀ c e g, okf (OnceClosure c e g) → okf g.
Hypothesis ok_member :
  ∀ s a d f, Inv s → heap s !! a = Some d → f ∈ ESSet.values d → okf f.

Local Abbreviation holds := (holds Inv Q).

Lemma and_then_holds r k :
  holds r → (∀ s, Inv s → holds (k s)) → holds (r >>> k).
Proof.
  destruct r as [s []]; simpl; intros [Hi Hq] Hk; [by apply Hk|done|done].
Qed.

Lemma interp_invariant n :
  (∀ f p s, Inv s → okf f → holds (call code n f p s)) ∧
  (∀ body s, Inv s → Forall okc body → holds (run code n body s)) ∧
  (∀ a i p s, Inv s → holds (forEach code n a i p s)).
Proof.
  induction n as [|n (IHcall & IHrun & IHloop)].
  - split; [|split].
    + done.
    + intros body s Hi _. by destruct body.
    + intros a i p s Hi. rewrite forEach_eq.
      destruct (heap s !! a) as [d|]; [|done].
      by destruct (ESSet.next i d) as [[j f]|].
  - split; [|split].
    + intros f p s Hi Hf. rewrite call_S. destruct f as [l|c e g].
      * apply IHrun; [by apply inv_record|by apply ok_code].
      * apply and_then_holds.
        -- apply IHcall; [by apply inv_record|by apply ok_callable with c e].
        -- intros s1 Hi1. split; [by apply inv_unsubscribe|done].
    + intros body s Hi Hb. destruct body as [|c rest]; [by rewrite run_nil|].
      apply Forall_cons in Hb as [Hc Hb]. rewrite run_cons_S.
      apply and_then_holds; [|intros s1 Hi1; by apply IHrun].
      destruct c; try (split; [by apply inv_quiet|done]).
      * rewrite dispatch_eq. destruct (get event s) as [a|]; [by apply IHloop|done].
      * split; [done|by apply Q_thrown].
    + intros a i p s Hi. rewrite forEach_eq.
      destruct (heap s !! a) as [d|] eqn:Hd; [|done].
      destruct (ESSet.next i d) as [[j f]|] eqn:Hn; [|done].
      apply and_then_holds; [|intros s1 Hi1; by apply IHloop].
      apply IHcall; [done|]. apply ok_member with s a d; [done..|].
      apply ESSetFacts.next_Some in Hn as (_ & Hj & _).
      apply ESSetFacts.elem_of_values. by apply list_elem_of_lookup_2 with j.
Qed.

Lemma dispatch_invariant n e p s : Inv s → holds (dispatch code n e p s).
Proof.
  intros Hi. rewrite dispatch_eq. destruct (get e s) as [a|]; [|done].
  by apply interp_invariant.
Qed.

End Invariant.

(** [dispatch] keeps the state well-formed, however the listeners behave and
    however it ends. *)
Lemma wf_dispatch code n e p s : wf s → wf (dispatch code n e p s).1.
Proof.
  intros Hwf.
  apply (dispatch_invariant code wf (λ _, True) (λ _, True) (λ _, True));
    try done.
  - intros. by apply wf_unsubscribe.
  - intros. by apply wf_quiet.
  - intros. by apply Forall_true.
Qed.

(** Only a [throw] in a listener body makes [dispatch] throw. *)
Lemma dispatch_never_throws code n e p s :
  never_throws code → (dispatch code n e p s).2 ≠ Thrown.
Proof.
  intros Hnt.
  apply (dispatch_invariant code (λ _, True) (λ _, True)
           (λ c, c ≠ Throw) (λ o, o ≠ Thrown)); try done.
  intros l p' _. apply Forall_forall. intros c Hc ->. by apply (Hnt l p').
Qed.

(** ** The methods are total and have no failure of their own *)

Lemma alter_id_at {A} (f : A → A) (l : list A) i :
  (∀ x, l !! i = Some x → f x = x) → alter f i l = l.
Proof.
  intros H. apply list_eq. intros j. rewrite list_lookup_alter.
  case_decide as E; [|done]. subst j.
  destruct (l !! i) as [x|] eqn:Hx; simpl; [|done]. f_equal. by apply H.
Qed.

(** A method of the [Set] of a kind that does not change its data does not
    change the state. *)
Lemma on_set_id e (f : IEventSet → IEventSet) s :
  (∀ d, set_of e s = Some d → f d = d) → on_set (get e s) f s = s.
Proof.
  unfold set_of. destruct (get e s) as [a|]; cbn [mbind option_bind on_set];
    intros H; [|done].
  rewrite alter_id_at by done. by destruct s.
Qed.

Lemma registered_None e s : set_of e s = None → registered e s = [].
Proof. unfold registered. by intros ->. Qed.

Lemma subscribe_member e f s : f ∈ registered e s → subscribe e f s = s.
Proof.
  intros H. unfold registered in H.
  destruct (set_of e s) as [d|] eqn:Hd; simpl in H; [|by apply elem_of_nil in H].
  assert (∃ a, get e s = Some a) as [a Ha].
  { unfold set_of in Hd. destruct (get e s) as [a|]; [by exists a|done]. }
  rewrite (subscribe_present _ _ _ _ Ha), <- Ha. apply on_set_id.
  intros d' Hd'. rewrite Hd in Hd'. injection Hd' as <-.
  by apply ESSetFacts.add_member.
Qed.

Lemma unsubscribe_not_member e f s : f ∉ registered e s → unsubscribe e f s = s.
Proof.
  intros H. apply on_set_id. intros d Hd. unfold registered in H.
  rewrite Hd in H. by apply ESSetFacts.delete_not_member.
Qed.

Lemma clear_no_member e s : registered e s = [] → clear e s = s.
Proof.
  intros H. apply on_set_id. intros d Hd. unfold registered in H.
  rewrite Hd in H. by apply ESSetFacts.clear_of_holes.
Qed.

(** C6. Every method is a total function of the state, and none fails of its
    own: subscribing a listener that is subscribed, unsubscribing one that is
    not, dispatching to a kind without listener and clearing a kind that is
    empty or absent all leave the state as it is, and [dispatch] completes
    normally there.  [dispatch] throws only when a listener body does. *)
Theorem methods_total_without_failure code :
  (∀ K f s, f ∈ registered K s → subscribe K f s = s) ∧
  (∀ K f s, f ∉ registered K s → unsubscribe K f s = s) ∧
  (∀ K P s n, registered K s = [] → dispatch code n K P s = (s, Normal)) ∧
  (∀ K s, registered K s = [] → clear K s = s) ∧
  (∀ K s, get K s = None → registered K s = []) ∧
  (never_throws code → ∀ K P s n, (dispatch code n K P s).2 ≠ Thrown).
Proof.
  repeat split.
  - intros K f s. apply subscribe_member.
  - intros K f s. apply unsubscribe_not_member.
  - intros K P s n. apply dispatch_no_member.
  - intros K s. apply clear_no_member.
  - intros K s H. apply registered_None. unfold set_of. by rewrite H.
  - intros Hnt K P s n. by apply dispatch_never_throws.
Qed.

(** The four calls that change nothing, on a registry with one listener. *)
Lemma methods_total_without_failure_witness :
  let s := subscribe USER_CREATED (Listener 1) initial in
  (Listener 1 ∈ registered USER_CREATED s ∧
   subscribe USER_CREATED (Listener 1) s = s) ∧
  ((Listener 2 ∉ registered USER_CREATED s) ∧
   unsubscribe USER_CREATED (Listener 2) s = s) ∧
  (registered ROLE_CREATED s = [] ∧
   dispatch idle 0 ROLE_CREATED id7 s = (s, Normal) ∧
   clear ROLE_CREATED s = s) ∧
  (never_throws idle ∧ (dispatch idle 5 USER_CREATED id7 s).2 ≠ Thrown).
Proof.
  intros s.
  destruct (methods_total_without_failure idle) as (H1 & H2 & H3 & H4 & _ & H6).
  assert (Listener 1 ∈ registered USER_CREATED s) as M1 by by_evaluation.
  assert (Listener 2 ∉ registered USER_CREATED s) as M2 by by_evaluation.
  assert (registered ROLE_CREATED s = []) as M3 by reflexivity.
  assert (never_throws idle) as M4.
  { intros l p H. unfold idle in H. by apply elem_of_nil in H. }
  split; [split; [exact M1|exact (H1 _ _ _ M1)]|].
  split; [split; [exact M2|exact (H2 _ _ _ M2)]|].
  split; [split; [exact M3|split; [exact (H3 _ id7 _ 0 M3)|exact (H4 _ _ M3)]]|].
  split; [exact M4|exact (H6 M4 _ _ _ _)].
Defined.

(** ** Subscribing twice *)

Lemma times_nil c : times c [] = 0.
Proof. done. Qed.

Lemma times_app c tr1 tr2 : times c (tr1 ++ tr2) = times c tr1 + times c tr2.
Proof. unfold times. by rewrite filter_app, length_app. Qed.

Lemma times_cons c x tr :
  times c (x :: tr) = (if decide (x = c) then 1 else 0) + times c tr.
Proof. unfold times. rewrite filter_cons. by case_decide. Qed.

Lemma times_not_elem c tr : c ∉ tr → times c tr = 0.
Proof.
  induction tr as [|x tr IH]; [done|]. rewrite not_elem_of_cons, times_cons.
  intros [Hne Hn]. rewrite decide_False by done. by rewrite IH.
Qed.

(** The calls of a plain function [g] contain the call of the application
    function [l] once when [g] is that function, and not at all when [g]
    is another function that does not wrap it. *)
Lemma times_invocations code P l g :
  plain code P g →
  (∀ c e, g ≠ OnceClosure c e (Listener l)) →
  times (Listener l, P) (invocations P g) =
  if decide (g = Listener l) then 1 else 0.
Proof.
  intros Hp Hw. destruct g as [l'|c e [l'|]]; [| |done]; cbn [invocations].
  - rewrite times_cons, times_nil.
    destruct (decide (l' = l)) as [->|N].
    + by rewrite !decide_True.
    + rewrite !decide_False; [done|congruence|congruence].
  - rewrite !times_cons, times_nil.
    rewrite (decide_False (P:=OnceClosure c e (Listener l') = Listener l)) by done.
    rewrite decide_False by done.
    rewrite decide_False; [done|]. intros [= ->]. by destruct (Hw c e).
Qed.

(** In a pass over distinct plain functions of which none wraps [l], the
    function [l] is called once if it is a member and not at all if not. *)
Lemma times_pass code P l vs :
  Forall (plain code P) vs →
  NoDup vs →
  (∀ c e, OnceClosure c e (Listener l) ∉ vs) →
  times (Listener l, P) (flat_map (invocations P) vs) =
  if decide (Listener l ∈ vs) then 1 else 0.
Proof.
  induction vs as [|g vs IH]; intros Hp Hnd Hw.
  - cbn [flat_map]. by rewrite decide_False by apply not_elem_of_nil.
  - apply Forall_cons in Hp as [Hg Hp]. apply NoDup_cons in Hnd as [Hn Hnd].
    cbn [flat_map]. rewrite times_app.
    rewrite (times_invocations code) by
      (done || intros c e ->; apply (Hw c e), list_elem_of_here).
    rewrite IH; [|done..|intros c e H; apply (Hw c e); by apply list_elem_of_further].
    destruct (decide (g = Listener l)) as [->|N].
    + rewrite (decide_False (P:=Listener l ∈ vs)) by done.
      by rewrite decide_True by apply list_elem_of_here.
    + destruct (decide (Listener l ∈ vs)) as [Hin|Hin].
      * by rewrite decide_True by by apply list_elem_of_further.
      * rewrite decide_False; [done|]. rewrite not_elem_of_cons. split; congruence.
Qed.

Lemma subscribe_idempotent e f s :
  subscribe e f (subscribe e f s) = subscribe e f s.
Proof.
  destruct (get e s) as [a|] eqn:E.
  - rewrite (subscribe_present _ _ _ _ E).
    rewrite (subscribe_present _ _ _ a) by by rewrite get_on_set.
    unfold on_set, with_heap. simpl. f_equal. rewrite list_alter_alter_eq.
    apply list_alter_ext; [|done..]. intros d _. simpl.
    apply ESSetFacts.add_member. rewrite ESSetFacts.values_add.
    case_decide; [done|]. apply elem_of_app. right. apply list_elem_of_here.
  - rewrite (subscribe_absent _ _ _ E).
    rewrite (subscribe_present _ _ _ (length (heap s))).
    + unfold on_set, with_heap. simpl. f_equal.
      rewrite alter_snoc. f_equal. f_equal.
      apply ESSetFacts.add_member. apply list_elem_of_here.
    + unfold get in *. simpl. by rewrite ESMapFacts.get_snoc, E, decide_True.
Qed.

Lemma registered_subscribe_member s e f : wf s → f ∈ registered e (subscribe e f s).
Proof.
  intros Hwf. rewrite registered_subscribe by done. case_decide; [done|].
  apply elem_of_app. right. apply list_elem_of_here.
Qed.

(** What holds of the members of a kind holds after [subscribe] when it
    holds of the function subscribed. *)
Lemma registered_subscribe_Forall (Q : IEventCallable → Prop) s e f :
  wf s → Forall Q (registered e s) → Q f → Forall Q (registered e (subscribe e f s)).
Proof.
  intros Hwf Hvs Hf. rewrite registered_subscribe by done. case_decide; [done|].
  apply Forall_app. split; [done|]. by apply Forall_singleton.
Qed.

Lemma registered_subscribe_length s e f :
  wf s → length (registered e (subscribe e f s)) ≤ S (length (registered e s)).
Proof.
  intros Hwf. rewrite registered_subscribe by done. case_decide; [lia|].
  rewrite length_app. simpl. lia.
Qed.

(** C5. Calling [subscribe(K, L)] twice is the same as calling it once: the
    second call leaves the state as it is, [L] is a member of [K]'s set and
    no member occurs twice, so a [dispatch(K, P)] calls [L] exactly once.
    The members of [K] are plain and none is a closure of [once] around
    [L]. *)
Theorem subscribe_twice_calls_once code K L P s :
  wf s →
  let s1 := subscribe K (Listener L) s in
  let s2 := subscribe K (Listener L) s1 in
  s2 = s1 ∧
  Listener L ∈ registered K s2 ∧
  NoDup (registered K s2) ∧
  (∀ n,
     Forall (plain code P) (registered K s) →
     code L P = [] →
     (∀ c e, OnceClosure c e (Listener L) ∉ registered K s) →
     length (registered K s) + 3 ≤ n →
     ∃ s' tr, dispatch code n K P s2 = (s', Normal) ∧
              calls s' = calls s2 ++ tr ∧
              times (Listener L, P) tr = 1).
Proof.
  intros Hwf s1 s2.
  assert (s2 = s1) as -> by apply subscribe_idempotent.
  assert (wf s1) as Hwf1 by by apply wf_subscribe.
  assert (Listener L ∈ registered K s1) as Hin by by apply registered_subscribe_member.
  repeat split; [done|by apply wf_NoDup|].
  intros n Hp HL Hw Hn.
  assert (Forall (plain code P) (registered K s1)) as Hp1
    by by apply registered_subscribe_Forall.
  assert (∀ c e, OnceClosure c e (Listener L) ∉ registered K s1) as Hw1.
  { intros c e Hc.
    assert (Forall (λ g, g ≠ OnceClosure c e (Listener L)) (registered K s1)) as HF.
    { apply registered_subscribe_Forall; [done| |done].
      apply Forall_forall. intros g Hg ->. by apply (Hw c e). }
    rewrite Forall_forall in HF. by apply (HF _ Hc). }
  pose proof (registered_subscribe_length s K (Listener L) Hwf) as Hlen.
  fold s1 in Hlen.
  exists (pass P (registered K s1) s1), (flat_map (invocations P) (registered K s1)).
  split; [apply dispatch_plain; [done|by apply wf_NoDup|lia]|].
  split; [by apply pass_calls with code|].
  rewrite (times_pass code); [by rewrite decide_True|done|by apply wf_NoDup|done].
Qed.

(** Function 3 subscribed twice next to a listener and a closure of [once]. *)
Lemma subscribe_twice_calls_once_witness :
  let s := once USER_CREATED (Listener 2) (subscribe USER_CREATED (Listener 1) initial) in
  let s2 := subscribe USER_CREATED (Listener 3) (subscribe USER_CREATED (Listener 3) s) in
  wf s ∧
  Forall (plain app id7) (registered USER_CREATED s) ∧
  app 3 id7 = [] ∧
  (∀ c e, OnceClosure c e (Listener 3) ∉ registered USER_CREATED s) ∧
  length (registered USER_CREATED s) + 3 ≤ 5 ∧
  s2 = subscribe USER_CREATED (Listener 3) s ∧
  ∃ s' tr, dispatch app 5 USER_CREATED id7 s2 = (s', Normal) ∧
           calls s' = calls s2 ++ tr ∧
           times (Listener 3, id7) tr = 1.
Proof.
  intros s s2.
  assert (wf s) as Hwf by by_evaluation.
  assert (Forall (plain app id7) (registered USER_CREATED s)) as Hp
    by (repeat constructor).
  assert (∀ c e, OnceClosure c e (Listener 3) ∉ registered USER_CREATED s) as Hw.
  { intros c e H. vm_compute in H.
    apply elem_of_cons in H as [H|H]; [discriminate|].
    apply elem_of_cons in H as [H|H]; [discriminate|].
    by apply elem_of_nil in H. }
  assert (length (registered USER_CREATED s) + 3 ≤ 5) as Hn by (simpl; lia).
  destruct (subscribe_twice_calls_once app USER_CREATED 3 id7 s Hwf)
    as (H1 & _ & _ & H4).
  split; [exact Hwf|]. split; [exact Hp|]. split; [reflexivity|].
  split; [exact Hw|]. split; [exact Hn|]. split; [exact H1|].
  exact (H4 5 Hp eq_refl Hw Hn).
Defined.

(** ** One-shot subscription *)

Lemma filter_all {A} (Q : A → Prop) `{∀ x, Decision (Q x)} (l : list A) :
  (∀ x, x ∈ l → Q x) → filter Q l = l.
Proof.
  induction l as [|x l IH]; intros HQ; [done|].
  rewrite filter_cons_True by apply HQ, list_elem_of_here.
  f_equal. apply IH. intros y Hy. by apply HQ, list_elem_of_further.
Qed.

Lemma once_eq e g s :
  once e g s = subscribe e (OnceClosure (closures s) e g) (new_closure e g s).2.
Proof. done. Qed.

Lemma once_calls e g s : calls (once e g s) = calls s.
Proof. by rewrite once_eq, subscribe_calls. Qed.

Lemma once_closures e g s : closures (once e g s) = S (closures s).
Proof. by rewrite once_eq, subscribe_closures. Qed.

(** [once] adds a closure that is new, so the set grows by it. *)
Lemma registered_once s e g :
  wf s →
  registered e (once e g s) = registered e s ++ [OnceClosure (closures s) e g].
Proof.
  intros Hwf. rewrite once_eq.
  rewrite registered_subscribe by by apply wf_new_closure.
  change (registered e (new_closure e g s).2) with (registered e s).
  by rewrite decide_False by by apply wf_fresh.
Qed.

Lemma registered_once_ne s e g e' :
  wf s → e' ≠ e → registered e' (once e g s) = registered e' s.
Proof.
  intros Hwf Hne. rewrite once_eq.
  by rewrite registered_subscribe_ne by (done || by apply wf_new_closure).
Qed.

(** An inert function is not a closure, and calls only itself. *)
Lemma inert_not_closure code P vs c e g :
  Forall (inert code P) vs → OnceClosure c e g ∉ vs.
Proof.
  intros H Hin. rewrite Forall_forall in H. by apply H in Hin.
Qed.

Lemma times_pass_inert code P l vs :
  Forall (inert code P) vs →
  NoDup vs →
  times (Listener l, P) (flat_map (invocations P) vs) =
  if decide (Listener l ∈ vs) then 1 else 0.
Proof.
  intros Hi Hnd. apply (times_pass code); [|done|].
  - eapply Forall_impl; [exact Hi|]. apply inert_plain.
  - intros c e. by apply inert_not_closure with code P.
Qed.

(** C3. After [once(K, L)], the first [dispatch(K, P)] calls [L], once, and
    leaves [K] with exactly one listener less; a second [dispatch(K, P)]
    does not call [L].  [L] returns without throwing or calling into the
    registry, as do the listeners [K] had, of which [L] is none. *)
Theorem once_listener_fires_once code K L P s n :
  wf s →
  code L P = [] →
  Forall (inert code P) (registered K s) →
  Listener L ∉ registered K s →
  length (registered K s) + 3 ≤ n →
  let s0 := once K (Listener L) s in
  ∃ s1 s2 tr1 tr2,
    dispatch code n K P s0 = (s1, Normal) ∧
    calls s1 = calls s0 ++ tr1 ∧
    times (Listener L, P) tr1 = 1 ∧
    length (registered K s0) = S (length (registered K s1)) ∧
    dispatch code n K P s1 = (s2, Normal) ∧
    calls s2 = calls s1 ++ tr2 ∧
    times (Listener L, P) tr2 = 0.
Proof.
  intros Hwf HL Hi Hnot Hn s0.
  set (W := OnceClosure (closures s) K (Listener L)).
  set (vs := registered K s) in *.
  assert (registered K s0 = vs ++ [W]) as Hreg by by apply registered_once.
  assert (NoDup vs) as Hnd by by apply wf_NoDup.
  assert (NoDup (vs ++ [W])) as Hnd0.
  { rewrite <- Hreg. by apply wf_NoDup, wf_once. }
  assert (Forall (plain code P) vs) as Hp.
  { eapply Forall_impl; [exact Hi|]. apply inert_plain. }
  assert (Forall (plain code P) (vs ++ [W])) as Hp0.
  { apply Forall_app. split; [done|]. apply Forall_singleton. exact HL. }
  set (s1 := pass P (vs ++ [W]) s0).
  assert (registered K s1 = vs) as Hreg1.
  { unfold s1. rewrite pass_app, (pass_inert code P vs) by done.
    unfold pass. simpl. rewrite registered_unsubscribe.
    change (registered K _) with (registered K s0). rewrite Hreg.
    rewrite filter_app, (filter_cons_False _ W []), filter_nil, app_nil_r.
    + apply filter_all.
      intros g Hg ->. by apply (inert_not_closure code P vs) in Hg.
    + intros H. by apply H. }
  exists s1, (pass P vs s1), (flat_map (invocations P) (vs ++ [W])),
    (flat_map (invocations P) vs).
  split.
  { pose proof (dispatch_plain code P n K s0) as D. rewrite Hreg in D.
    apply D; [done..|rewrite length_app; simpl; lia]. }
  split; [by apply pass_calls with code|].
  split.
  { rewrite flat_map_app, times_app, (times_pass_inert code) by done.
    rewrite decide_False by done.
    change (flat_map (invocations P) [W]) with [(W, P); (Listener L, P)].
    unfold W. rewrite !times_cons, times_nil.
    rewrite decide_False by done. by rewrite decide_True. }
  split; [rewrite Hreg, Hreg1, length_app; simpl; lia|].
  split.
  { pose proof (dispatch_plain code P n K s1) as D. rewrite Hreg1 in D.
    apply D; [done..|lia]. }
  split; [by apply pass_calls with code|].
  rewrite (times_pass_inert code) by done. by rewrite decide_False.
Qed.

(** [once("server:started", L)] and two dispatches: [L] is called once. *)
Lemma once_listener_fires_once_witness :
  let s := subscribe SERVER_STARTED (Listener 1) initial in
  let s0 := once SERVER_STARTED (Listener 2) s in
  wf s ∧
  app 2 id7 = [] ∧
  Forall (inert app id7) (registered SERVER_STARTED s) ∧
  (Listener 2 ∉ registered SERVER_STARTED s) ∧
  length (registered SERVER_STARTED s) + 3 ≤ 4 ∧
  ∃ s1 s2 tr1 tr2,
    dispatch app 4 SERVER_STARTED id7 s0 = (s1, Normal) ∧
    calls s1 = calls s0 ++ tr1 ∧
    times (Listener 2, id7) tr1 = 1 ∧
    length (registered SERVER_STARTED s0) = S (length (registered SERVER_STARTED s1)) ∧
    dispatch app 4 SERVER_STARTED id7 s1 = (s2, Normal) ∧
    calls s2 = calls s1 ++ tr2 ∧
    times (Listener 2, id7) tr2 = 0.
Proof.
  intros s s0.
  assert (wf s) as Hwf by by_evaluation.
  assert (Forall (inert app id7) (registered SERVER_STARTED s)) as Hi
    by (repeat constructor).
  assert (Listener 2 ∉ registered SERVER_STARTED s) as Hnot by by_evaluation.
  assert (length (registered SERVER_STARTED s) + 3 ≤ 4) as Hn by (simpl; lia).
  split; [exact Hwf|]. split; [reflexivity|]. split; [exact Hi|].
  split; [exact Hnot|]. split; [exact Hn|].
  exact (once_listener_fires_once app SERVER_STARTED 2 id7 s 4
           Hwf eq_refl Hi Hnot Hn).
Defined.

(** C9. [once] is not idempotent.  Calling [once(K, L)] twice puts two
    closures with distinct identities into [K]'s set, after the members it
    had; a [dispatch(K, P)] then calls each closure, and each calls [L]: two
    calls of [L] more than the earlier members make. *)
Theorem once_twice_calls_twice code K L P s :
  wf s →
  let W1 := OnceClosure (closures s) K (Listener L) in
  let W2 := OnceClosure (S (closures s)) K (Listener L) in
  let s2 := once K (Listener L) (once K (Listener L) s) in
  W1 ≠ W2 ∧
  registered K s2 = registered K s ++ [W1; W2] ∧
  (∀ n,
     code L P = [] →
     Forall (plain code P) (registered K s) →
     length (registered K s) + 4 ≤ n →
     ∃ s',
       dispatch code n K P s2 = (s', Normal) ∧
       calls s' =
         calls s2 ++ flat_map (invocations P) (registered K s) ++
         [(W1, P); (Listener L, P); (W2, P); (Listener L, P)] ∧
       times (Listener L, P) (drop (length (calls s2)) (calls s')) =
         times (Listener L, P) (flat_map (invocations P) (registered K s)) + 2).
Proof.
  intros Hwf W1 W2 s2.
  assert (wf (once K (Listener L) s)) as Hwf1 by by apply wf_once.
  assert (wf s2) as Hwf2 by by apply wf_once.
  assert (registered K s2 = registered K s ++ [W1; W2]) as Hreg.
  { unfold s2. rewrite registered_once, registered_once by done.
    rewrite once_closures. by rewrite <- app_assoc. }
  split; [unfold W1, W2; intros [=]; lia|]. split; [done|].
  intros n HL Hp Hn.
  assert (Forall (plain code P) (registered K s2)) as Hp2.
  { rewrite Hreg. apply Forall_app. split; [done|].
    apply Forall_cons. split; [exact HL|]. apply Forall_singleton. exact HL. }
  assert (calls (pass P (registered K s2) s2) =
          calls s2 ++ flat_map (invocations P) (registered K s) ++
          [(W1, P); (Listener L, P); (W2, P); (Listener L, P)]) as Hcalls.
  { rewrite (pass_calls code) by done. by rewrite Hreg, flat_map_app. }
  exists (pass P (registered K s2) s2).
  split; [apply dispatch_plain; [done|by apply wf_NoDup|]|].
  { rewrite Hreg, length_app. simpl. lia. }
  split; [done|].
  rewrite Hcalls, drop_app_length, times_app. f_equal.
  unfold W1, W2. rewrite !times_cons, times_nil.
  rewrite (decide_True (P:=(Listener L, P) = (Listener L, P))) by done.
  by rewrite !decide_False by done.
Qed.

(** Function 2 given to [once] twice, after a listener subscribed before. *)
Lemma once_twice_calls_twice_witness :
  let s := subscribe USER_CREATED (Listener 1) initial in
  let W1 := OnceClosure 0 USER_CREATED (Listener 2) in
  let W2 := OnceClosure 1 USER_CREATED (Listener 2) in
  let s2 := once USER_CREATED (Listener 2) (once USER_CREATED (Listener 2) s) in
  wf s ∧
  app 2 id7 = [] ∧
  Forall (plain app id7) (registered USER_CREATED s) ∧
  length (registered USER_CREATED s) + 4 ≤ 5 ∧
  registered USER_CREATED s2 = [Listener 1; W1; W2] ∧
  ∃ s',
    dispatch app 5 USER_CREATED id7 s2 = (s', Normal) ∧
    calls s' =
      [(Listener 1, id7); (W1, id7); (Listener 2, id7); (W2, id7);
       (Listener 2, id7)] ∧
    times (Listener 2, id7) (drop (length (calls s2)) (calls s')) = 0 + 2.
Proof.
  intros s W1 W2 s2.
  assert (wf s) as Hwf by by_evaluation.
  assert (Forall (plain app id7) (registered USER_CREATED s)) as Hp
    by (repeat constructor).
  assert (length (registered USER_CREATED s) + 4 ≤ 5) as Hn by (simpl; lia).
  destruct (once_twice_calls_twice app USER_CREATED 2 id7 s Hwf) as (_ & H2 & H3).
  split; [exact Hwf|]. split; [reflexivity|]. split; [exact Hp|].
  split; [exact Hn|]. split; [exact H2|].
  exact (H3 5 eq_refl Hp Hn).
Defined.

(** ** One listener under several kinds *)

Lemma multiple_cons e es f s :
  multiple (e :: es) f s = multiple es f (subscribe e f s).
Proof. done. Qed.

Lemma multiple_calls es f s : calls (multiple es f s) = calls s.
Proof.
  revert s. induction es as [|e es IH]; intros s; [done|].
  by rewrite multiple_cons, IH, subscribe_calls.
Qed.

(** After [multiple], the kinds listed have [l] as a member, added at the
    end if it was none, and the other kinds are as they were. *)
Lemma registered_multiple es l s K :
  wf s →
  registered K (multiple es (Listener l) s) =
  if decide (K ∈ es ∧ Listener l ∉ registered K s)
  then registered K s ++ [Listener l] else registered K s.
Proof.
  revert s. induction es as [|e es IH]; intros s Hwf.
  - rewrite decide_False; [done|]. intros [H _]. by apply elem_of_nil in H.
  - rewrite multiple_cons, IH by by apply wf_subscribe.
    destruct (decide (e = K)) as [->|Hne].
    + rewrite registered_subscribe by done.
      destruct (decide (Listener l ∈ registered K s)) as [Hin|Hnot].
      * rewrite !decide_False; [done|tauto|tauto].
      * rewrite decide_False.
        -- rewrite decide_True; [done|]. split; [apply list_elem_of_here|done].
        -- intros [_ H]. apply H, elem_of_app. right. apply list_elem_of_here.
    + rewrite registered_subscribe_ne by done.
      apply decide_ext. rewrite elem_of_cons. split; [tauto|].
      intros [[->|H] H']; [done|tauto].
Qed.

Lemma invocations_member P f vs :
  f ∈ vs → (f, P) ∈ flat_map (invocations P) vs.
Proof.
  induction vs as [|g vs IH]; intros H; [by apply elem_of_nil in H|].
  cbn [flat_map]. apply elem_of_app. apply elem_of_cons in H as [->|H].
  - left. destruct g; apply list_elem_of_here.
  - right. by apply IH.
Qed.

(** C7. [multiple(kinds, L)] registers [L] under each kind on its own.
    After [multiple(kinds, L)] with [K2] among the kinds and
    [unsubscribe(K1, L)] for another kind [K1], [L] is still a member of
    [K2]'s set and a [dispatch(K2, P)] calls it, while [K1] has the listeners
    other than [L] that it had, in the same order. *)
Theorem multiple_tracks_each_kind code ks K1 K2 L P s :
  wf s →
  K1 ≠ K2 →
  K2 ∈ ks →
  let s1 := unsubscribe K1 (Listener L) (multiple ks (Listener L) s) in
  Listener L ∈ registered K2 s1 ∧
  registered K1 s1 = filter (λ g, g ≠ Listener L) (registered K1 s) ∧
  (∀ n,
     code L P = [] →
     Forall (plain code P) (registered K2 s) →
     length (registered K2 s) + 3 ≤ n →
     ∃ s' tr, dispatch code n K2 P s1 = (s', Normal) ∧
              calls s' = calls s1 ++ tr ∧
              (Listener L, P) ∈ tr).
Proof.
  intros Hwf Hne HK2 s1.
  assert (wf (multiple ks (Listener L) s)) as Hwfm by by apply wf_multiple.
  assert (wf s1) as Hwf1 by by apply wf_unsubscribe.
  assert (registered K2 s1 =
          if decide (Listener L ∈ registered K2 s)
          then registered K2 s else registered K2 s ++ [Listener L]) as Hreg2.
  { unfold s1. rewrite registered_unsubscribe_ne, registered_multiple by done.
    destruct (decide (Listener L ∈ registered K2 s)).
    - rewrite decide_False; [done|tauto].
    - by rewrite decide_True. }
  assert (Listener L ∈ registered K2 s1) as Hin.
  { rewrite Hreg2. case_decide; [done|].
    apply elem_of_app. right. apply list_elem_of_here. }
  split; [done|]. split.
  { unfold s1. rewrite registered_unsubscribe, registered_multiple by done.
    destruct (decide (K1 ∈ ks ∧ Listener L ∉ registered K1 s)) as [H|H]; [|done].
    rewrite filter_app, (filter_cons_False _ (Listener L) []), filter_nil.
    - by rewrite app_nil_r.
    - intros H'. by apply H'. }
  intros n HL Hp Hn.
  exists (pass P (registered K2 s1) s1), (flat_map (invocations P) (registered K2 s1)).
  split; [|split].
  - apply dispatch_plain; [|by apply wf_NoDup|].
    + rewrite Hreg2. case_decide; [done|]. apply Forall_app. split; [done|].
      apply Forall_singleton. exact HL.
    + rewrite Hreg2. case_decide; [lia|]. rewrite length_app. simpl. lia.
  - apply pass_calls with code. rewrite Hreg2. case_decide; [done|].
    apply Forall_app. split; [done|]. apply Forall_singleton. exact HL.
  - by apply invocations_member.
Qed.

(** Function 1 under ["user:created"] and ["user:updated"], unsubscribed from
    the first. *)
Lemma multiple_tracks_each_kind_witness :
  let s := subscribe USER_CREATED (Listener 2) initial in
  let s1 := unsubscribe USER_CREATED (Listener 1)
              (multiple [USER_CREATED; USER_UPDATED] (Listener 1) s) in
  wf s ∧
  USER_CREATED ≠ USER_UPDATED ∧
  USER_UPDATED ∈ [USER_CREATED; USER_UPDATED] ∧
  app 1 id7 = [] ∧
  Forall (plain app id7) (registered USER_UPDATED s) ∧
  length (registered USER_UPDATED s) + 3 ≤ 3 ∧
  Listener 1 ∈ registered USER_UPDATED s1 ∧
  registered USER_CREATED s1 = [Listener 2] ∧
  ∃ s' tr, dispatch app 3 USER_UPDATED id7 s1 = (s', Normal) ∧
           calls s' = calls s1 ++ tr ∧
           (Listener 1, id7) ∈ tr.
Proof.
  intros s s1.
  assert (wf s) as Hwf by by_evaluation.
  assert (USER_CREATED ≠ USER_UPDATED) as Hne by discriminate.
  assert (USER_UPDATED ∈ [USER_CREATED; USER_UPDATED]) as Hin by by_evaluation.
  assert (Forall (plain app id7) (registered USER_UPDATED s)) as Hp by constructor.
  assert (length (registered USER_UPDATED s) + 3 ≤ 3) as Hn by (simpl; lia).
  destruct (multiple_tracks_each_kind app [USER_CREATED; USER_UPDATED]
              USER_CREATED USER_UPDATED 1 id7 s Hwf Hne Hin) as (H1 & H2 & H3).
  split; [exact Hwf|]. split; [exact Hne|]. split; [exact Hin|].
  split; [reflexivity|]. split; [exact Hp|]. split; [exact Hn|].
  split; [exact H1|]. split; [exact H2|].
  exact (H3 3 eq_refl Hp Hn).
Defined.

(** ** Dispatch walks the live set *)

(** A kind with a member has its [Set] object. *)
Lemma registered_member_inv e s f :
  f ∈ registered e s →
  ∃ a d, get e s = Some a ∧ heap s !! a = Some d ∧ ESSet.values d = registered e s.
Proof.
  unfold registered, set_of. destruct (get e s) as [a|]; simpl.
  - destruct (heap s !! a) as [d|] eqn:E; simpl; [by exists a, d|].
    intros H. by apply elem_of_nil in H.
  - intros H. by apply elem_of_nil in H.
Qed.

Section Live.

Variable code : nat → IEventPayload → list stmt.
Variable payload : IEventPayload.
Variable a : nat.

Import ESSet ESSetFacts.

(** The turn of the loop for the member at the head of what is left. *)
Lemma forEach_head n i s (d : IEventSet) f rest :
  heap s !! a = Some d →
  values (drop i d) = f :: rest →
  ∃ j, j < length d ∧ values (drop (S j) d) = rest ∧
       forEach code (S n) a i payload s =
       call code n f payload s >>> forEach code n a (S j) payload.
Proof.
  intros Hd Hv. apply next_values in Hv as (j & Hnext & Hv). exists j.
  split; [|split; [done|by apply forEach_turn with d]].
  apply next_Some in Hnext as (_ & Hj & _). by apply lookup_lt_Some in Hj.
Qed.

(** The loop passes over a run of inert functions and stands before the
    next member, the data of the [Set] being as it was. *)
Lemma forEach_inert_prefix vs s i (d : IEventSet) rest n :
  heap s !! a = Some d →
  values (drop i d) = vs ++ rest →
  Forall (inert code payload) vs →
  NoDup (vs ++ rest) →
  2 ≤ n →
  ∃ j, values (drop j d) = rest ∧
       forEach code (length vs + n) a i payload s =
       forEach code n a j payload (noted ((λ f, (f, payload)) <$> vs) s).
Proof.
  intros Hd Hv Hi Hnd Hn.
  destruct (forEach_prefix code payload a vs s i d rest n) as (j & d' & Hd' & Hv' & E);
    try done.
  { eapply Forall_impl; [exact Hi|]. apply inert_plain. }
  fold (pass payload vs s) in Hd', E. rewrite (pass_inert code) in Hd', E by done.
  simpl in Hd'. rewrite Hd in Hd'. injection Hd' as <-. by exists j.
Qed.

End Live.

Lemma and_then_Normal s k : (s, Normal) >>> k = k s.
Proof. done. Qed.

Lemma add_not_member f (d : IEventSet) :
  f ∉ ESSet.values d → ESSet.add f d = d ++ [Some f].
Proof.
  intros H. unfold ESSet.add, ESSet.has.
  rewrite bool_decide_eq_false_2; [done|]. by rewrite <- ESSetFacts.elem_of_values.
Qed.

Lemma heap_noted tr s : heap (noted tr s) = heap s.
Proof. done. Qed.

(** A listener subscribed to the kind during the pass is visited in it. *)
Lemma dispatch_visits_added code K P s M N pre post n :
  registered K s = pre ++ Listener M :: post →
  NoDup (registered K s) →
  code M P = [Subscribe K N] →
  Forall (inert code P) (pre ++ post) →
  code N P = [] →
  Listener N ∉ registered K s →
  length (registered K s) + 3 ≤ n →
  ∃ s', dispatch code n K P s = (s', Normal) ∧
        calls s' =
          calls s ++
          ((λ f, (f, P)) <$> (pre ++ Listener M :: post ++ [Listener N])).
Proof.
  intros Hreg Hnd HM Hi HN Hnot Hn.
  destruct (registered_member_inv K s (Listener M)) as (a & d & Ha & Hd & Hv).
  { rewrite Hreg. apply elem_of_app. right. apply list_elem_of_here. }
  rewrite Hreg in Hv, Hnd, Hnot, Hn.
  apply Forall_app in Hi as [Hpre Hpost].
  rewrite length_app in Hn. simpl in Hn.
  rewrite dispatch_eq, Ha.
  set (m := n - length pre - 3).
  replace n with (length pre + S (S (S m))) by lia.
  destruct (forEach_inert_prefix code P a pre s 0 d (Listener M :: post)
              (S (S (S m)))) as (j & Hj & ->);
    [done|by rewrite drop_0|done|done|lia|].
  set (sA := noted ((λ f, (f, P)) <$> pre) s).
  destruct (forEach_head code P a (S (S m)) j sA d (Listener M) post)
    as (j' & Hlt & Hrest & ->); [done|done|].
  rewrite call_S, HM, run_cons_S, and_then_Normal, run_nil, and_then_Normal.
  cbn [quiet].
  set (sB := subscribe K (Listener N) (record (Listener M) P sA)).
  assert (heap sB !! a = Some (d ++ [Some (Listener N)])) as HdB.
  { unfold sB. rewrite (subscribe_present _ _ _ a) by done.
    rewrite on_set_lookup, decide_True by done.
    change (heap (record (Listener M) P sA)) with (heap s). rewrite Hd.
    simpl. f_equal. apply add_not_member. by rewrite Hv. }
  assert (ESSet.values (drop (S j') (d ++ [Some (Listener N)])) =
          post ++ [Listener N]) as HvB.
  { rewrite drop_app_le by lia. by rewrite ESSetFacts.values_app, Hrest. }
  assert (NoDup (post ++ [Listener N])) as HndB.
  { apply NoDup_app in Hnd as (_ & _ & Hnd). apply NoDup_cons in Hnd as [_ Hnd].
    apply NoDup_app. repeat split; [done| |apply NoDup_singleton].
    intros f Hf ->%list_elem_of_singleton. apply Hnot.
    apply elem_of_app. right. by apply list_elem_of_further. }
  assert (Forall (inert code P) (post ++ [Listener N])) as HiB.
  { apply Forall_app. split; [done|]. apply Forall_singleton. exact HN. }
  rewrite (forEach_plain code P a sB (S j') _ _ HdB); rewrite HvB.
  - eexists. split; [done|]. fold (pass P (post ++ [Listener N]) sB).
    rewrite (pass_inert code) by done. unfold sB. simpl.
    rewrite subscribe_calls. simpl.
    rewrite !fmap_app, !fmap_cons, !fmap_app. simpl.
    by rewrite <- !app_assoc.
  - eapply Forall_impl; [exact HiB|]. apply inert_plain.
  - done.
  - rewrite length_app. simpl. lia.
Qed.

(** A listener unsubscribed from the kind before its turn is not visited. *)
Lemma dispatch_skips_removed code K P s M X pre mid post n :
  registered K s = pre ++ Listener M :: mid ++ Listener X :: post →
  NoDup (registered K s) →
  code M P = [Unsubscribe K X] →
  Forall (inert code P) (pre ++ mid ++ post) →
  length (registered K s) + 3 ≤ n →
  ∃ s', dispatch code n K P s = (s', Normal) ∧
        calls s' =
          calls s ++ ((λ f, (f, P)) <$> (pre ++ Listener M :: mid ++ post)).
Proof.
  intros Hreg Hnd HM Hi Hn.
  destruct (registered_member_inv K s (Listener M)) as (a & d & Ha & Hd & Hv).
  { rewrite Hreg. apply elem_of_app. right. apply list_elem_of_here. }
  rewrite Hreg in Hv, Hnd, Hn.
  apply Forall_app in Hi as [Hpre Hrest].
  rewrite length_app in Hn. simpl in Hn. rewrite length_app in Hn. simpl in Hn.
  rewrite dispatch_eq, Ha.
  set (m := n - length pre - 3).
  replace n with (length pre + S (S (S m))) by lia.
  destruct (forEach_inert_prefix code P a pre s 0 d
              (Listener M :: mid ++ Listener X :: post)
              (S (S (S m)))) as (j & Hj & ->);
    [done|by rewrite drop_0|done|done|lia|].
  set (sA := noted ((λ f, (f, P)) <$> pre) s).
  destruct (forEach_head code P a (S (S m)) j sA d (Listener M)
              (mid ++ Listener X :: post))
    as (j' & Hlt & Hrest' & ->); [done|done|].
  rewrite call_S, HM, run_cons_S, and_then_Normal, run_nil, and_then_Normal.
  cbn [quiet].
  set (sB := unsubscribe K (Listener X) (record (Listener M) P sA)).
  assert (heap sB !! a = Some (ESSet.delete (Listener X) d)) as HdB.
  { unfold sB, unsubscribe.
    change (ESMap.get (stack (record (Listener M) P sA)) K) with (get K s).
    rewrite Ha, on_set_lookup, decide_True by done.
    change (heap (record (Listener M) P sA)) with (heap s). by rewrite Hd. }
  apply NoDup_app in Hnd as (_ & _ & Hnd). apply NoDup_cons in Hnd as [_ Hnd].
  assert (ESSet.values (drop (S j') (ESSet.delete (Listener X) d)) =
          mid ++ post) as HvB.
  { rewrite ESSetFacts.drop_delete, ESSetFacts.values_delete, Hrest'.
    apply NoDup_app in Hnd as (_ & Hmid & Hnd). apply NoDup_cons in Hnd as [HX _].
    rewrite filter_app, filter_cons_False by (intros H; by apply H).
    rewrite !filter_all; [done| |].
    - intros f Hf ->. done.
    - intros f Hf ->. apply (Hmid _ Hf), list_elem_of_here. }
  assert (NoDup (mid ++ post)) as HndB.
  { apply NoDup_app in Hnd as (H1 & H2 & H3). apply NoDup_cons in H3 as [_ H3].
    apply NoDup_app. repeat split; [done| |done].
    intros f Hf Hf'. apply (H2 _ Hf). by apply list_elem_of_further. }
  rewrite (forEach_plain code P a sB (S j') _ _ HdB); rewrite HvB.
  - eexists. split; [done|]. fold (pass P (mid ++ post) sB).
    rewrite (pass_inert code) by done. unfold sB. simpl.
    rewrite unsubscribe_calls. simpl.
    rewrite !fmap_app, !fmap_cons, !fmap_app. simpl.
    by rewrite <- !app_assoc.
  - eapply Forall_impl; [exact Hrest|]. apply inert_plain.
  - done.
  - rewrite length_app. lia.
Qed.

(** C10. [dispatch] walks the live set, not a copy of it.  When a listener
    [M] called during [dispatch(K, P)] subscribes a new listener [N] to [K],
    [N] is called with [P] in the same pass, after the listeners that were
    there; when [M] unsubscribes a listener [X] of [K] whose turn has not
    come, [X] is not called in that pass.  The other listeners of [K] are
    inert. *)
Theorem dispatch_walks_live_set code K P s M n :
  NoDup (registered K s) →
  length (registered K s) + 3 ≤ n →
  (∀ N pre post,
     registered K s = pre ++ Listener M :: post →
     code M P = [Subscribe K N] →
     Forall (inert code P) (pre ++ post) →
     code N P = [] →
     Listener N ∉ registered K s →
     ∃ s', dispatch code n K P s = (s', Normal) ∧
           calls s' =
             calls s ++
             ((λ f, (f, P)) <$> (pre ++ Listener M :: post ++ [Listener N]))) ∧
  (∀ X pre mid post,
     registered K s = pre ++ Listener M :: mid ++ Listener X :: post →
     code M P = [Unsubscribe K X] →
     Forall (inert code P) (pre ++ mid ++ post) →
     ∃ s', dispatch code n K P s = (s', Normal) ∧
           calls s' =
             calls s ++ ((λ f, (f, P)) <$> (pre ++ Listener M :: mid ++ post))).
Proof.
  intros Hnd Hn. split.
  - intros N pre post Hreg HM Hi HN Hnot.
    by apply dispatch_visits_added.
  - intros X pre mid post Hreg HM Hi.
    by apply dispatch_skips_removed with X.
Qed.

(** Function 20 subscribes function 3 during the pass; function 21
    unsubscribes function 2 before its turn. *)
Lemma dispatch_walks_live_set_witness :
  let sa := batch USER_CREATED [Listener 20; Listener 1] initial in
  let sb := batch USER_CREATED
              [Listener 21; Listener 1; Listener 2; Listener 3] initial in
  (NoDup (registered USER_CREATED sa) ∧
   length (registered USER_CREATED sa) + 3 ≤ 5 ∧
   registered USER_CREATED sa = [] ++ Listener 20 :: [Listener 1] ∧
   app 20 id7 = [Subscribe USER_CREATED 3] ∧
   Forall (inert app id7) ([] ++ [Listener 1]) ∧
   app 3 id7 = [] ∧
   (Listener 3 ∉ registered USER_CREATED sa) ∧
   ∃ s', dispatch app 5 USER_CREATED id7 sa = (s', Normal) ∧
         calls s' = [(Listener 20, id7); (Listener 1, id7); (Listener 3, id7)]) ∧
  (NoDup (registered USER_CREATED sb) ∧
   length (registered USER_CREATED sb) + 3 ≤ 7 ∧
   registered USER_CREATED sb =
     [] ++ Listener 21 :: [Listener 1] ++ Listener 2 :: [Listener 3] ∧
   app 21 id7 = [Unsubscribe USER_CREATED 2] ∧
   Forall (inert app id7) ([] ++ [Listener 1] ++ [Listener 3]) ∧
   ∃ s', dispatch app 7 USER_CREATED id7 sb = (s', Normal) ∧
         calls s' = [(Listener 21, id7); (Listener 1, id7); (Listener 3, id7)]).
Proof.
  intros sa sb.
  assert (NoDup (registered USER_CREATED sa)) as Hnda by by_evaluation.
  assert (length (registered USER_CREATED sa) + 3 ≤ 5) as Hna by (simpl; lia).
  assert (Forall (inert app id7) ([] ++ [Listener 1])) as Hia
    by (repeat constructor).
  assert (Listener 3 ∉ registered USER_CREATED sa) as Hnota by by_evaluation.
  assert (NoDup (registered USER_CREATED sb)) as Hndb by by_evaluation.
  assert (length (registered USER_CREATED sb) + 3 ≤ 7) as Hnb by (simpl; lia).
  assert (Forall (inert app id7) ([] ++ [Listener 1] ++ [Listener 3])) as Hib
    by (repeat constructor).
  split.
  - split; [exact Hnda|]. split; [exact Hna|]. split; [reflexivity|].
    split; [reflexivity|]. split; [exact Hia|]. split; [reflexivity|].
    split; [exact Hnota|].
    exact (proj1 (dispatch_walks_live_set app USER_CREATED id7 sa 20 5 Hnda Hna)
             3 [] [Listener 1] eq_refl eq_refl Hia eq_refl Hnota).
  - split; [exact Hndb|]. split; [exact Hnb|]. split; [reflexivity|].
    split; [reflexivity|]. split; [exact Hib|].
    exact (proj2 (dispatch_walks_live_set app USER_CREATED id7 sb 21 7 Hndb Hnb)
             2 [] [Listener 1] [Listener 3] eq_refl eq_refl Hib).
Defined.

(** ** A one-shot listener that throws *)

(** [dispatch] on a kind whose one listener is a closure of [once] around a
    function that throws: the exception leaves [dispatch], and the state is
    as before but for the two calls noted. *)
Lemma dispatch_once_closure_throws code K P s c L rest n :
  registered K s = [OnceClosure c K (Listener L)] →
  code L P = Throw :: rest →
  4 ≤ n →
  dispatch code n K P s =
  (record (Listener L) P (record (OnceClosure c K (Listener L)) P s), Thrown).
Proof.
  intros Hreg HL Hn.
  destruct (registered_member_inv K s (OnceClosure c K (Listener L)))
    as (a & d & Ha & Hd & Hv).
  { rewrite Hreg. apply list_elem_of_here. }
  rewrite Hreg in Hv. rewrite dispatch_eq, Ha.
  destruct n as [|[|[|[|n]]]]; try lia.
  destruct (forEach_head code P a (S (S (S n))) 0 s d
              (OnceClosure c K (Listener L)) [] Hd)
    as (j & _ & _ & ->); [by rewrite drop_0|].
  by rewrite !call_S, HL, run_cons_S.
Qed.

(** C1 (what the code does).  When [L] throws, the closure of [once(K, L)]
    does not reach its [unsubscribe]: the first [dispatch(K, P)] ends with
    the exception and leaves the closure in [K]'s set, and a second
    [dispatch(K, P)] calls [L] again. *)
Theorem once_listener_that_throws_stays code K L P s rest n :
  wf s →
  registered K s = [] →
  code L P = Throw :: rest →
  4 ≤ n →
  let W := OnceClosure (closures s) K (Listener L) in
  let s0 := once K (Listener L) s in
  ∃ s1 s2,
    dispatch code n K P s0 = (s1, Thrown) ∧
    calls s1 = calls s0 ++ [(W, P); (Listener L, P)] ∧
    registered K s1 = [W] ∧
    dispatch code n K P s1 = (s2, Thrown) ∧
    calls s2 = calls s1 ++ [(W, P); (Listener L, P)].
Proof.
  intros Hwf Hreg HL Hn W s0.
  assert (registered K s0 = [W]) as Hreg0.
  { unfold s0. by rewrite registered_once, Hreg. }
  set (s1 := record (Listener L) P (record W P s0)).
  assert (registered K s1 = [W]) as Hreg1 by done.
  exists s1, (record (Listener L) P (record W P s1)).
  split; [by apply dispatch_once_closure_throws with rest|].
  split; [simpl; by rewrite <- app_assoc|]. split; [done|].
  split; [by apply dispatch_once_closure_throws with rest|].
  simpl. by rewrite <- !app_assoc.
Qed.

(** Function 10 throws: two dispatches on ["server:started"] call it twice. *)
Lemma once_listener_that_throws_stays_witness :
  let W := OnceClosure 0 SERVER_STARTED (Listener 10) in
  let s0 := once SERVER_STARTED (Listener 10) initial in
  wf initial ∧
  registered SERVER_STARTED initial = [] ∧
  calm 10 id7 = Throw :: [] ∧
  4 ≤ 4 ∧
  ∃ s1 s2,
    dispatch calm 4 SERVER_STARTED id7 s0 = (s1, Thrown) ∧
    calls s1 = calls s0 ++ [(W, id7); (Listener 10, id7)] ∧
    registered SERVER_STARTED s1 = [W] ∧
    dispatch calm 4 SERVER_STARTED id7 s1 = (s2, Thrown) ∧
    calls s2 = calls s1 ++ [(W, id7); (Listener 10, id7)].
Proof.
  intros W s0.
  split; [exact wf_initial|]. split; [reflexivity|]. split; [reflexivity|].
  split; [lia|].
  exact (once_listener_that_throws_stays calm SERVER_STARTED 10 id7 initial []
           4 wf_initial eq_refl eq_refl (le_n 4)).
Defined.

(** ** Unsubscribing *)

(** The statements that call no listener leave the calls as they are. *)
Lemma batch_calls e fs s : calls (batch e fs s) = calls s.
Proof.
  unfold batch. revert s. induction fs as [|f fs IH]; intros s; simpl; [done|].
  by rewrite IH, subscribe_calls.
Qed.

Lemma batchOnce_calls e fs s : calls (batchOnce e fs s) = calls s.
Proof.
  unfold batchOnce. revert s. induction fs as [|f fs IH]; intros s; simpl; [done|].
  by rewrite IH, once_calls.
Qed.

Lemma multipleOnce_calls es f s : calls (multipleOnce es f s) = calls s.
Proof.
  unfold multipleOnce. revert s. induction es as [|e es IH]; intros s; simpl; [done|].
  by rewrite IH, once_calls.
Qed.

Lemma quiet_calls c s : calls (quiet c s) = calls s.
Proof.
  destruct c; simpl; try done.
  - apply subscribe_calls.
  - apply unsubscribe_calls.
  - apply once_calls.
  - apply batch_calls.
  - apply batchOnce_calls.
  - apply multiple_calls.
  - apply multipleOnce_calls.
  - apply on_set_calls.
Qed.

(** [unsubscribe] takes the listener out of the set of the kind. *)
Lemma unsubscribe_not_registered e f s : f ∉ registered e (unsubscribe e f s).
Proof.
  rewrite registered_unsubscribe. intros [H _]%list_elem_of_filter. by apply H.
Qed.

(** C2 (counterexample).  A listener registered with [once(K, L)] is held
    inside a closure; [unsubscribe(K, L)] looks for [L] itself, finds nothing
    and changes nothing, and the following [dispatch(K, P)] calls [L]. *)
Lemma unsubscribe_misses_once_closure :
  let s := once USER_CREATED (Listener 1) initial in
  let s1 := unsubscribe USER_CREATED (Listener 1) s in
  s1 = s ∧
  (Listener 1, id7) ∈ calls (dispatch idle 3 USER_CREATED id7 s1).1.
Proof.
  split; [reflexivity|]. vm_compute. apply list_elem_of_further, list_elem_of_here.
Qed.

(** ** A dispatch stays within what it can reach *)

(** A method of a [Set] that adds no member adds no listener to a kind. *)
Lemma registered_on_set_subset o (g : IEventSet → IEventSet) e s f :
  (∀ d x, x ∈ ESSet.values (g d) → x ∈ ESSet.values d) →
  f ∈ registered e (on_set o g s) → f ∈ registered e s.
Proof.
  intros Hg. unfold registered, set_of. rewrite get_on_set.
  destruct (get e s) as [a|]; [|done]. cbn [mbind option_bind].
  rewrite on_set_lookup. destruct (decide (o = Some a)); [|done].
  destruct (heap s !! a) as [d|]; [|done]. apply Hg.
Qed.

Section Footprint.

Variable code : nat → IEventPayload → list stmt.
Variable D : EventBusEnum → IEventPayload → Prop.
Variable F : nat → IEventPayload → Prop.

Local Abbreviation good := (good D F).
Local Abbreviation covered := (covered D F).
Local Abbreviation extends := (extends D F).
Local Abbreviation within := (within D F).

Lemma extends_refl s : extends s s.
Proof. split; [done|]. exists []. by rewrite app_nil_r. Qed.

Lemma extends_trans s1 s2 s3 : extends s1 s2 → extends s2 s3 → extends s1 s3.
Proof.
  intros [G1 (tr1 & E1 & T1)] [G2 (tr2 & E2 & T2)]. split.
  - intros a p H. by apply G2, G1.
  - exists (tr1 ++ tr2). rewrite E2, E1, <- app_assoc. split; [done|].
    by apply Forall_app.
Qed.

(** The [Set] of a kind of [D] can be walked. *)
Lemma good_of_covered s e p a :
  wf s → covered s → D e p → get e s = Some a → good p s a.
Proof.
  intros Hwf Hc HD Hg. split; [by apply (wf_bound s Hwf e)|]. split.
  - intros e' Hg'. by rewrite (wf_inj s Hwf e' e a).
  - intros d f Hd Hf. apply (Hc e p f HD).
    unfold registered, set_of. rewrite Hg. cbn [mbind option_bind].
    by rewrite Hd.
Qed.

(** A method that calls nothing: what it has to keep. *)
Lemma extends_quiet s s' :
  calls s' = calls s →
  length (heap s) ≤ length (heap s') →
  (∀ a e, a < length (heap s) → get e s' = Some a → get e s = Some a) →
  (∀ a p d' f, good p s a → heap s' !! a = Some d' → f ∈ ESSet.values d' →
     F (target f) p) →
  extends s s'.
Proof.
  intros Hc Hl Hg Hh. split.
  - intros a p Hgood. pose proof Hgood as (Ha & HD & HF). split; [lia|]. split.
    + intros e He. apply HD. by apply Hg.
    + intros d' f Hd' Hf. by apply (Hh a p d' f).
  - exists []. by rewrite app_nil_r.
Qed.

Lemma extends_record f p s : F (target f) p → extends s (record f p s).
Proof.
  intros HF. split; [done|]. exists [(f, p)]. split; [done|].
  by apply Forall_singleton.
Qed.

(** [unsubscribe] and [clear]: a [Set] loses members. *)
Lemma footprint_on_set o (g : IEventSet → IEventSet) s :
  (∀ d x, x ∈ ESSet.values (g d) → x ∈ ESSet.values d) →
  covered s → covered (on_set o g s) ∧ extends s (on_set o g s).
Proof.
  intros Hg Hc. split.
  - intros e p f HD Hf. apply (Hc e p f HD).
    by apply (registered_on_set_subset o g).
  - apply extends_quiet.
    + apply on_set_calls.
    + by rewrite on_set_length.
    + intros a e _. by rewrite get_on_set.
    + intros a p d' f (_ & _ & HF). rewrite on_set_lookup.
      destruct (decide (o = Some a)); [|apply HF].
      destruct (heap s !! a) as [d|] eqn:Hd; [|done].
      intros [= <-] Hf. apply (HF d f); [done|]. by apply Hg.
Qed.

Lemma delete_values f d x :
  x ∈ ESSet.values (ESSet.delete f d) → x ∈ ESSet.values d.
Proof. rewrite ESSetFacts.values_delete. by intros [_ H]%list_elem_of_filter. Qed.

Lemma clear_values d x : x ∈ ESSet.values (ESSet.clear d) → x ∈ ESSet.values d.
Proof. rewrite ESSetFacts.values_clear. by intros ?%elem_of_nil. Qed.

Lemma footprint_unsubscribe e f s :
  covered s → covered (unsubscribe e f s) ∧ extends s (unsubscribe e f s).
Proof. apply footprint_on_set, delete_values. Qed.

(** [subscribe]: the function must be in [F] when the kind is in [D]. *)
Lemma footprint_subscribe e f s :
  wf s → covered s → (∀ p, D e p → F (target f) p) →
  covered (subscribe e f s) ∧ extends s (subscribe e f s).
Proof.
  intros Hwf Hc Hf. split.
  - intros e' p f' HD. destruct (decide (e' = e)) as [->|Hne].
    + rewrite (registered_subscribe s Hwf).
      destruct (decide (f ∈ registered e s)); [by apply Hc|].
      intros [H| ->%list_elem_of_singleton]%elem_of_app; [by apply (Hc e)|].
      by apply Hf.
    + rewrite (registered_subscribe_ne s Hwf) by done. by apply Hc.
  - destruct (get e s) as [ae|] eqn:He.
    + rewrite (subscribe_present e f s ae He). apply extends_quiet.
      * apply on_set_calls.
      * by rewrite on_set_length.
      * intros a e' _. by rewrite get_on_set.
      * intros a p d' f' (_ & HD & HF). rewrite on_set_lookup.
        destruct (decide (Some ae = Some a)) as [[= ->]|]; [|apply HF].
        destruct (heap s !! a) as [d|] eqn:Hd; [|done].
        intros [= <-]. rewrite ESSetFacts.values_add.
        destruct (decide (f ∈ ESSet.values d)); [by apply HF|].
        intros [H| ->%list_elem_of_singleton]%elem_of_app; [by apply (HF d)|].
        by apply Hf, HD.
    + rewrite (subscribe_absent e f s He). apply extends_quiet.
      * done.
      * cbn [heap]. rewrite length_app. lia.
      * intros a e' Ha. unfold get. cbn [stack]. rewrite ESMapFacts.get_snoc.
        destruct (ESMap.get (stack s) e') as [a'|]; [done|].
        destruct (decide (e = e')); [|done]. intros [= <-]. lia.
      * intros a p d' f' (Ha & _ & HF). cbn [heap].
        rewrite lookup_app_l by done. apply HF.
Qed.

(** [once]: the closure counts for the function it wraps. *)
Lemma footprint_once e g s :
  wf s → covered s → (∀ p, D e p → F (target g) p) →
  covered (once e g s) ∧ extends s (once e g s).
Proof.
  intros Hwf Hc Hg. rewrite once_eq.
  destruct (footprint_subscribe e (OnceClosure (closures s) e g)
              (new_closure e g s).2) as [Hc' He'].
  - apply wf_new_closure, Hwf.
  - done.
  - done.
  - split; [done|]. apply extends_trans with (new_closure e g s).2; [|done].
    apply extends_quiet; [done..|]. intros a p d' f (_ & _ & HF). apply HF.
Qed.

(** A method applied to each element of an array in turn. *)
Lemma footprint_foldl {A} (op : state → A → state) (xs : list A) s :
  (∀ x s, x ∈ xs → wf s → covered s →
     wf (op s x) ∧ covered (op s x) ∧ extends s (op s x)) →
  wf s → covered s →
  wf (foldl op s xs) ∧ covered (foldl op s xs) ∧ extends s (foldl op s xs).
Proof.
  revert s. induction xs as [|x xs IH]; intros s Hop Hwf Hc; simpl.
  - split; [done|]. split; [done|]. apply extends_refl.
  - destruct (Hop x s) as (Hwf1 & Hc1 & He1); [apply list_elem_of_here|done..|].
    destruct (IH (op s x)) as (Hwf2 & Hc2 & He2); [|done..|].
    + intros y s' Hy. apply Hop. by apply list_elem_of_further.
    + split; [done|]. split; [done|]. by apply extends_trans with (op s x).
Qed.

Lemma footprint_clearAll s : covered (clearAll s) ∧ extends s (clearAll s).
Proof.
  split.
  - intros e p f _ Hf. by apply elem_of_nil in Hf.
  - apply extends_quiet; [done..| |].
    + intros a e _ He. discriminate He.
    + intros a p d' f (_ & _ & HF). apply HF.
Qed.

(** A statement that the footprint allows keeps the state within it. *)
Lemma footprint_quiet c s :
  wf s → covered s → allowed D F c → within s (quiet c s, Normal).
Proof.
  intros Hwf Hc [_ Hsub]. split; [by apply wf_quiet|]. cbn [fst].
  destruct c as [e l|e p|e l|e l|e ls|e ls|es l|es l|e| |]; cbn [quiet].
  - apply footprint_subscribe; [done..|]. intros p. apply Hsub, list_elem_of_here.
  - split; [done|apply extends_refl].
  - by apply footprint_unsubscribe.
  - apply footprint_once; [done..|]. intros p. apply Hsub, list_elem_of_here.
  - apply (footprint_foldl (λ s c, subscribe e c s) (Listener <$> ls) s);
      [|done..].
    intros x s' (l & -> & Hl)%list_elem_of_fmap Hwf' Hc'.
    split; [by apply wf_subscribe|]. apply footprint_subscribe; [done..|].
    intros p. apply Hsub. cbn [subscribes].
    apply list_elem_of_fmap. by exists l.
  - apply (footprint_foldl (λ s c, once e c s) (Listener <$> ls) s); [|done..].
    intros x s' (l & -> & Hl)%list_elem_of_fmap Hwf' Hc'.
    split; [by apply wf_once|]. apply footprint_once; [done..|].
    intros p. apply Hsub. cbn [subscribes].
    apply list_elem_of_fmap. by exists l.
  - apply (footprint_foldl (λ s e, subscribe e (Listener l) s) es s); [|done..].
    intros e s' He Hwf' Hc'.
    split; [by apply wf_subscribe|]. apply footprint_subscribe; [done..|].
    intros p. apply Hsub. cbn [subscribes].
    apply list_elem_of_fmap. by exists e.
  - apply (footprint_foldl (λ s e, once e (Listener l) s) es s); [|done..].
    intros e s' He Hwf' Hc'.
    split; [by apply wf_once|]. apply footprint_once; [done..|].
    intros p. apply Hsub. cbn [subscribes].
    apply list_elem_of_fmap. by exists e.
  - apply footprint_on_set; [|done]. apply clear_values.
  - apply footprint_clearAll.
  - split; [done|apply extends_refl].
Qed.

Lemma within_refl s o : wf s → covered s → within s (s, o).
Proof. intros Hwf Hc. split; [done|]. split; [done|]. apply extends_refl. Qed.

Lemma within_trans s s' r : extends s s' → within s' r → within s r.
Proof.
  intros He (Hwf & Hc & He'). split; [done|]. split; [done|].
  by apply extends_trans with s'.
Qed.

Lemma within_and_then s r k :
  within s r →
  (∀ s', wf s' → covered s' → extends s s' → within s' (k s')) →
  within s (r >>> k).
Proof.
  destruct r as [s' []]; cbn [and_then]; intros Hr Hk; [|done..].
  destruct Hr as (Hwf & Hc & He). apply within_trans with s'; [done|].
  by apply Hk.
Qed.

(** The bodies of the functions of [F] stay within the footprint. *)
Hypothesis closed : ∀ l p, F l p → Forall (allowed D F) (code l p).

Lemma interp_within n :
  (∀ f p s, wf s → covered s → F (target f) p →
     within s (call code n f p s)) ∧
  (∀ body s, wf s → covered s → Forall (allowed D F) body →
     within s (run code n body s)) ∧
  (∀ a i p s, wf s → covered s → good p s a →
     within s (forEach code n a i p s)).
Proof.
  induction n as [|n (IHcall & IHrun & IHloop)].
  - split; [|split].
    + intros f p s Hwf Hc _. by apply within_refl.
    + intros body s Hwf Hc _. destruct body; by apply within_refl.
    + intros a i p s Hwf Hc _. rewrite forEach_eq.
      destruct (heap s !! a) as [d|]; [|by apply within_refl].
      destruct (ESSet.next i d) as [[j f]|]; by apply within_refl.
  - split; [|split].
    + intros f p s Hwf Hc Hf. rewrite call_S.
      apply within_trans with (record f p s); [by apply extends_record|].
      destruct f as [l|c e g].
      * apply IHrun; [by apply wf_record|done|by apply closed].
      * apply within_and_then.
        -- apply IHcall; [by apply wf_record|done|done].
        -- intros s' Hwf' Hc' _. split; [by apply wf_unsubscribe|].
           by apply footprint_unsubscribe.
    + intros body s Hwf Hc Hb. destruct body as [|c rest].
      { rewrite run_nil. by apply within_refl. }
      apply Forall_cons in Hb as [Hal Hb]. rewrite run_cons_S.
      apply within_and_then; [|intros s' Hwf' Hc' _; by apply IHrun].
      destruct c; try (by apply footprint_quiet).
      * rewrite dispatch_eq. destruct (get event s) as [a|] eqn:Ha.
        -- apply IHloop; [done..|]. apply good_of_covered with event; [done..| |done].
           by apply Hal.
        -- by apply within_refl.
      * by apply within_refl.
    + intros a i p s Hwf Hc Hg. rewrite forEach_eq.
      destruct (heap s !! a) as [d|] eqn:Hd; [|by apply within_refl].
      destruct (ESSet.next i d) as [[j f]|] eqn:Hn; [|by apply within_refl].
      apply within_and_then.
      * apply IHcall; [done..|]. destruct Hg as (_ & _ & HF).
        apply (HF d f Hd).
        apply ESSetFacts.next_Some in Hn as (_ & Hj & _).
        apply ESSetFacts.elem_of_values. by apply list_elem_of_lookup_2 with j.
      * intros s' Hwf' Hc' [Hgood _]. apply IHloop; [done..|]. by apply Hgood.
Qed.

Lemma dispatch_within n e p s :
  wf s → covered s → D e p → within s (dispatch code n e p s).
Proof.
  intros Hwf Hc HD. rewrite dispatch_eq.
  destruct (get e s) as [a|] eqn:Ha; [|by apply within_refl].
  apply interp_within; [done..|]. by apply good_of_covered with e.
Qed.

End Footprint.

(** What can be reached is a footprint, and the least one. *)
Lemma reached_covered code s K P :
  covered (λ e p, reached code s K P (Kind e) p)
    (λ l p, reached code s K P (Fn l) p) s.
Proof. intros e p f HD Hf. by apply reached_member with e. Qed.

Lemma reached_closed code s K P l p :
  reached code s K P (Fn l) p →
  Forall (allowed (λ e p, reached code s K P (Kind e) p)
            (λ l p, reached code s K P (Fn l) p)) (code l p).
Proof.
  intros Hl. apply Forall_forall. intros c Hc. split.
  - intros e p' ->. by apply reached_dispatch with l p.
  - intros e l' p' Hs HD. by apply reached_subscribe with l p c e.
Qed.

Lemma reached_least code s K P D F :
  D K P → covered D F s → (∀ l p, F l p → Forall (allowed D F) (code l p)) →
  ∀ x p, reached code s K P x p →
    match x with Kind e => D e p | Fn l => F l p end.
Proof.
  intros HK Hc Hcl x p H. induction H as [|e p f _ IH Hf|l p e p' _ IH Hd|l p c e l' p' _ IH Hin Hs _ IH'].
  - done.
  - by apply (Hc e).
  - specialize (Hcl l p IH). rewrite Forall_forall in Hcl.
    by apply (Hcl _ Hd).
  - specialize (Hcl l p IH). rewrite Forall_forall in Hcl.
    by apply (Hcl c Hin) with e.
Qed.

(** Every call that a dispatch makes is the call of a function it can
    reach, with the payload it is reached with. *)
Lemma dispatch_calls_reached code n K P s :
  wf s →
  ∃ tr, calls (dispatch code n K P s).1 = calls s ++ tr ∧
        Forall (λ c, reached code s K P (Fn (target c.1)) c.2) tr.
Proof.
  intros Hwf.
  destruct (dispatch_within code (λ e p, reached code s K P (Kind e) p)
              (λ l p, reached code s K P (Fn l) p)
              (reached_closed code s K P) n K P s) as (_ & _ & _ & Htr).
  - done.
  - apply reached_covered.
  - apply reached_root.
  - done.
Qed.

(** ** Unsubscribing, then dispatching *)

(** The calls noted are never taken back. *)
Lemma interp_calls_grow code t n :
  (∀ f p s, t `prefix_of` calls s → t `prefix_of` calls (call code n f p s).1) ∧
  (∀ body s, t `prefix_of` calls s → t `prefix_of` calls (run code n body s).1) ∧
  (∀ a i p s, t `prefix_of` calls s →
     t `prefix_of` calls (forEach code n a i p s).1).
Proof.
  destruct (interp_invariant code (λ s, t `prefix_of` calls s) (λ _, True)
              (λ _, True) (λ _, True)) with (n := n) as (Hcall & Hrun & Hloop);
    try done.
  - intros f p s H _. cbn [record calls]. by apply prefix_app_r.
  - intros e f s H _. by rewrite unsubscribe_calls.
  - intros c s H _. by rewrite quiet_calls.
  - intros. by apply Forall_true.
  - split; [|split].
    + intros f p s H. by apply Hcall.
    + intros body s H. apply Hrun; [done|]. by apply Forall_true.
    + intros a i p s H. by apply Hloop.
Qed.

(** [unsubscribe(K, L)] after [once(K, L)] leaves the closure around [L]
    where it is, and a pass that gets to the closure calls [L]. *)
Lemma once_outlives_unsubscribe code K L P s :
  wf s →
  let w := OnceClosure (closures s) K (Listener L) in
  let s2 := unsubscribe K (Listener L) (once K (Listener L) s) in
  w ∈ registered K s2 ∧
  (Listener L ∉ registered K s → s2 = once K (Listener L) s) ∧
  ((∀ f, f ∈ registered K s → f ≠ Listener L → plain code P f) →
   ∀ n, length (registered K s) + 3 ≤ n →
   ∃ tr, calls (dispatch code n K P s2).1 = calls s2 ++ tr ∧
         (Listener L, P) ∈ tr).
Proof.
  intros Hwf w s2.
  assert (Hreg : registered K s2 =
            filter (λ g, g ≠ Listener L) (registered K s) ++ [w]).
  { unfold s2. rewrite registered_unsubscribe, registered_once by done.
    by rewrite filter_app. }
  assert (Hwf2 : wf s2) by (by apply wf_unsubscribe, wf_once).
  assert (Hw : w ∈ registered K s2).
  { rewrite Hreg. apply elem_of_app. right. apply list_elem_of_here. }
  split; [done|]. split.
  - intros HL. unfold s2. apply unsubscribe_not_member.
    rewrite registered_once by done.
    intros [H|H%list_elem_of_singleton]%elem_of_app; [done|discriminate H].
  - intros Hplain n Hn.
    set (vs := filter (λ g, g ≠ Listener L) (registered K s)) in *.
    assert (Hvs : Forall (plain code P) vs).
    { apply Forall_forall. intros f [Hne Hf]%list_elem_of_filter.
      by apply Hplain. }
    assert (Hlen : length vs ≤ length (registered K s))
      by apply length_filter.
    destruct (registered_member_inv K s2 w Hw) as (a & d & Ha & Hd & Hval).
    pose proof (wf_heap_NoDup s2 Hwf2 a d Hd) as Hnd.
    rewrite Hval, Hreg in Hnd.
    destruct (forEach_prefix code P a vs s2 0 d [w] (n - length vs))
      as (j & d' & Hd' & Hrest & Heq); [done| |done|done|lia|].
    { by rewrite drop_0, Hval. }
    replace (length vs + (n - length vs)) with n in Heq by lia.
    fold (pass P vs s2) in Hd', Heq.
    destruct (n - length vs) as [|[|[|m]]] eqn:Hm; [lia..|].
    destruct (forEach_head code P a (S (S m)) j (pass P vs s2) d' w [] Hd' Hrest)
      as (j' & _ & _ & Hturn).
    rewrite dispatch_eq, Ha, Heq, Hturn.
    unfold w at 1. rewrite call_S. fold w. rewrite call_S.
    set (s5 := record (Listener L) P (record w P (pass P vs s2))).
    set (tr := flat_map (invocations P) vs ++ [(w, P); (Listener L, P)]).
    assert (H5 : calls s5 = calls s2 ++ tr).
    { unfold s5, tr. cbn [record calls]. rewrite (pass_calls code) by done.
      by rewrite <- !app_assoc. }
    destruct (interp_calls_grow code (calls s5) m) as (_ & Hrun & _).
    destruct (interp_calls_grow code (calls s5) (S (S m))) as (_ & _ & Hloop).
    assert (Hpre : calls s5 `prefix_of`
              calls (run code m (code L P) s5 >>>
                     (λ s1, (unsubscribe K w s1, Normal)) >>>
                     forEach code (S (S m)) a (S j') P).1).
    { specialize (Hrun (code L P) s5 (reflexivity _)).
      destruct (run code m (code L P) s5) as [s6 []]; cbn [and_then fst] in *;
        [|done..].
      apply Hloop. by rewrite unsubscribe_calls. }
    destruct Hpre as [k Hk]. exists (tr ++ k). split.
    + by rewrite Hk, H5, <- app_assoc.
    + apply elem_of_app. left. unfold tr. apply elem_of_app. right.
      apply list_elem_of_further, list_elem_of_here.
Qed.

(** C2 (amended).  In a well-formed registry, which every registry built
    with the methods is, and with listeners whose bodies call the static
    methods on functions of the application:

    - [unsubscribe(K, L)] takes [L] itself out of the set of [K], and every
      call that the following [dispatch(K, P)] makes is the call of a
      function the pass can reach, with the payload it is reached with: a
      member of the set of a dispatched kind (a closure of [once] counting
      for the function it wraps), [K] being dispatched with [P] and a kind
      being dispatched when the body of a reached function dispatches it; or
      a function that the body of a reached function subscribes, by any of
      the subscribing methods, to a kind that is dispatched.  So the
      dispatch never calls [L] when [L] cannot be reached in this way,
      wherever else [L] is held.

    - After [once(K, L)], [unsubscribe(K, L)] leaves the closure around [L]
      in the set of [K]; it changes nothing at all when [L] was not also
      subscribed as itself; and [dispatch(K, P)] calls [L], whatever [L]
      does, if the bodies of the other listeners registered for [K], as
      themselves or through [once], make no call into the registry.  Three
      units of fuel more than [K] had listeners are enough for that. *)
Theorem unsubscribe_then_dispatch_calls_reached code K L P :
  (∀ s, wf s →
     let s1 := unsubscribe K (Listener L) s in
     (Listener L ∉ registered K s1) ∧
     ∀ n, ∃ tr,
       calls (dispatch code n K P s1).1 = calls s1 ++ tr ∧
       Forall (λ c, reached code s1 K P (Fn (target c.1)) c.2) tr ∧
       ((∀ p, ¬ reached code s1 K P (Fn L) p) →
        Forall (λ c, target c.1 ≠ L) tr)) ∧
  (∀ s, wf s →
     let w := OnceClosure (closures s) K (Listener L) in
     let s2 := unsubscribe K (Listener L) (once K (Listener L) s) in
     w ∈ registered K s2 ∧
     (Listener L ∉ registered K s → s2 = once K (Listener L) s) ∧
     ((∀ f, f ∈ registered K s → f ≠ Listener L → plain code P f) →
      ∀ n, length (registered K s) + 3 ≤ n →
      ∃ tr, calls (dispatch code n K P s2).1 = calls s2 ++ tr ∧
            (Listener L, P) ∈ tr)).
Proof.
  split.
  - intros s Hwf s1. split; [apply unsubscribe_not_registered|].
    intros n.
    destruct (dispatch_calls_reached code n K P s1) as (tr & Hc & Htr).
    { by apply wf_unsubscribe. }
    exists tr. split; [done|]. split; [done|].
    intros Hout. apply (Forall_impl _ _ _ Htr). intros [f p] Hf <-.
    by apply (Hout p).
  - intros s Hwf. by apply once_outlives_unsubscribe.
Qed.

(** In the registry [crowded] without function 1 under [USER_CREATED], a
    dispatch of [USER_CREATED] reaches functions 20, 2 and 3 only. *)
Lemma crowded_reach p :
  ¬ reached app (unsubscribe USER_CREATED (Listener 1) crowded)
      USER_CREATED id7 (Fn 1) p.
Proof.
  intros H.
  apply (reached_least app _ USER_CREATED id7
           (λ e _, e = USER_CREATED) (λ l _, l ∈ [20; 2; 3])) in H.
  - revert H. change (1 ∉ [20; 2; 3]). by_evaluation.
  - done.
  - intros e q f -> Hf.
    change (f ∈ [Listener 20; Listener 2]) in Hf.
    apply elem_of_cons in Hf as [->|Hf]; [by apply (bool_decide_unpack _)|].
    apply list_elem_of_singleton in Hf as ->. by apply (bool_decide_unpack _).
  - intros l q Hl. apply Forall_forall. intros c Hc.
    repeat (apply elem_of_cons in Hl as [->|Hl]); [| | |by apply elem_of_nil in Hl].
    + apply list_elem_of_singleton in Hc as ->. split; [done|].
      intros e l' q' [= -> ->]%list_elem_of_singleton _. by_evaluation.
    + by apply elem_of_nil in Hc.
    + by apply elem_of_nil in Hc.
Qed.

Lemma unsubscribe_then_dispatch_calls_reached_witness :
  let s1 := unsubscribe USER_CREATED (Listener 1) crowded in
  let s := subscribe USER_CREATED (Listener 2) initial in
  let s2 := unsubscribe USER_CREATED (Listener 1)
              (once USER_CREATED (Listener 1) s) in
  (wf crowded ∧
   (∀ p, ¬ reached app s1 USER_CREATED id7 (Fn 1) p) ∧
   (Listener 1 ∉ registered USER_CREATED s1) ∧
   ∃ tr, calls (dispatch app 9 USER_CREATED id7 s1).1 = calls s1 ++ tr ∧
         Forall (λ c, target c.1 ≠ 1) tr) ∧
  (wf s ∧
   (Listener 1 ∉ registered USER_CREATED s) ∧
   (∀ f, f ∈ registered USER_CREATED s → f ≠ Listener 1 → plain app id7 f) ∧
   length (registered USER_CREATED s) + 3 ≤ 9 ∧
   OnceClosure 0 USER_CREATED (Listener 1) ∈ registered USER_CREATED s2 ∧
   s2 = once USER_CREATED (Listener 1) s ∧
   ∃ tr, calls (dispatch app 9 USER_CREATED id7 s2).1 = calls s2 ++ tr ∧
         (Listener 1, id7) ∈ tr).
Proof.
  intros s1 s s2.
  assert (Hwf1 : wf crowded) by by_evaluation.
  assert (Hwf : wf s) by by_evaluation.
  assert (HL : Listener 1 ∉ registered USER_CREATED s) by by_evaluation.
  assert (Hplain : ∀ f, f ∈ registered USER_CREATED s → f ≠ Listener 1 →
            plain app id7 f).
  { intros f Hf _. change (f ∈ [Listener 2]) in Hf.
    by apply list_elem_of_singleton in Hf as ->. }
  assert (Hn : length (registered USER_CREATED s) + 3 ≤ 9) by (vm_compute; lia).
  pose proof (unsubscribe_then_dispatch_calls_reached app USER_CREATED 1 id7)
    as [HA HB].
  split.
  - destruct (HA crowded Hwf1) as [Hnot Hd].
    destruct (Hd 9) as (tr & Hc & _ & Hnever).
    split; [done|]. split; [apply crowded_reach|]. split; [done|].
    exists tr. split; [done|]. apply Hnever, crowded_reach.
  - destruct (HB s Hwf) as (Hw & Hsame & Hd).
    split; [done|]. split; [done|]. split; [done|]. split; [done|].
    split; [done|]. split; [by apply Hsame|]. by apply Hd.
Defined.

(** ** How a pass reaches a listener again *)

(** A listener of [K] that subscribes [L] to [K] brings [L] back during the
    pass: function 20 subscribes function 3, which [unsubscribe] had just
    removed, and the loop reaches it. *)
Lemma unsubscribe_undone_by_listener :
  let s := batch USER_CREATED [Listener 20; Listener 3] initial in
  let s1 := unsubscribe USER_CREATED (Listener 3) s in
  registered USER_CREATED s1 = [Listener 20] ∧
  calls (dispatch app 5 USER_CREATED id7 s1).1 =
    [(Listener 20, id7); (Listener 3, id7)].
Proof. split; reflexivity. Qed.

(** A listener of [K] that dispatches another kind reaches [L] when [L] is
    registered there: function 22 dispatches [USER_UPDATED]. *)
Lemma unsubscribe_leaves_other_kinds :
  let s := subscribe USER_UPDATED (Listener 1)
             (batch USER_CREATED [Listener 22; Listener 1] initial) in
  let s1 := unsubscribe USER_CREATED (Listener 1) s in
  registered USER_CREATED s1 = [Listener 22] ∧
  calls (dispatch app 5 USER_CREATED id7 s1).1 =
    [(Listener 22, id7); (Listener 1, id7)].
Proof. split; reflexivity. Qed.

(** ** The model and the program *)

(** The members of the enum stand for distinct strings, so the keys of the
    [Map], which are these strings, are told apart as the members are. *)
Lemma EventBusEnum_value_inj e1 e2 :
  EventBusEnum_value e1 = EventBusEnum_value e2 → e1 = e2.
Proof. destruct e1, e2; intros H; try reflexivity; discriminate H. Qed.

(** Every state the application can reach is well-formed. *)
Lemma reachable_wf code s : reachable code s → wf s.
Proof.
  unfold reachable. intros H.
  apply (rtc_ind_r (R:=step code) (λ s, wf s) initial); [apply wf_initial| |exact H].
  intros s1 s2 _ Hstep Hwf. destruct Hstep.
  - by apply wf_quiet.
  - by apply wf_dispatch.
Qed.

(** Fuel only decides whether a run is cut short: a run that ended with
    fuel [n] ends the same way with any more fuel. *)
Section Fuel.

Variable code : nat → IEventPayload → list stmt.

Lemma and_then_fuel r k k' :
  (r >>> k).2 ≠ OutOfFuel →
  (∀ s, (k s).2 ≠ OutOfFuel → k' s = k s) →
  r >>> k' = r >>> k.
Proof.
  destruct r as [s []]; simpl; intros H Hk; [by apply Hk|done|done].
Qed.

Lemma and_then_finished r k : (r >>> k).2 ≠ OutOfFuel → r.2 ≠ OutOfFuel.
Proof. by destruct r as [s []]. Qed.

Lemma fuel_monotone n :
  (∀ m f p s, n ≤ m → (call code n f p s).2 ≠ OutOfFuel →
     call code m f p s = call code n f p s) ∧
  (∀ m body s, n ≤ m → (run code n body s).2 ≠ OutOfFuel →
     run code m body s = run code n body s) ∧
  (∀ m a i p s, n ≤ m → (forEach code n a i p s).2 ≠ OutOfFuel →
     forEach code m a i p s = forEach code n a i p s).
Proof.
  induction n as [|n (IHcall & IHrun & IHloop)].
  - split; [|split].
    + by intros m f p s _ H.
    + intros m body s _ H. destruct body; [by rewrite !run_nil|done].
    + intros m a i p s _ H. rewrite !forEach_eq in *.
      destruct (heap s !! a) as [d|]; [|done].
      by destruct (ESSet.next i d) as [[j f]|].
  - split; [|split].
    + intros [|m] f p s Hm H; [lia|]. rewrite !call_S in *.
      destruct f as [l|c e g]; [apply IHrun; [lia|done]|].
      rewrite (IHcall m) by (lia || by apply and_then_finished in H). done.
    + intros [|m] body s Hm H; [lia|].
      destruct body as [|c rest]; [by rewrite !run_nil|].
      rewrite !run_cons_S in *.
      destruct c;
        try (apply and_then_fuel; [done|intros; apply IHrun; [lia|done]]).
      pose proof (and_then_finished _ _ H) as H1.
      rewrite !dispatch_eq in *. destruct (get event s) as [a|].
      * rewrite (IHloop m) by (lia || done).
        apply and_then_fuel; [done|intros; apply IHrun; [lia|done]].
      * apply and_then_fuel; [done|intros; apply IHrun; [lia|done]].
    + intros [|m] a i p s Hm H; [lia|]. rewrite !forEach_eq in *.
      destruct (heap s !! a) as [d|]; [|done].
      destruct (ESSet.next i d) as [[j f]|]; [|done].
      pose proof (and_then_finished _ _ H) as H1.
      rewrite (IHcall m) by (lia || done).
      apply and_then_fuel; [done|]. intros s' Hs'. apply IHloop; [lia|done].
Qed.

Lemma dispatch_fuel_monotone n m e p s :
  n ≤ m → (dispatch code n e p s).2 ≠ OutOfFuel →
  dispatch code m e p s = dispatch code n e p s.
Proof.
  intros Hm H. rewrite !dispatch_eq in *. destruct (get e s) as [a|]; [|done].
  by apply fuel_monotone.
Qed.

End Fuel.

(** * Further properties of the class *)

(** ** The catalog *)

(** X15. The catalog has thirty-six members, and no two of them stand for the
    same string: as keys of the [Map] they never collide. *)
Theorem EventBusEnum_values_distinct :
  (∀ e, e ∈ EventBusEnum_members) ∧
  length EventBusEnum_members = 36 ∧
  NoDup (EventBusEnum_value <$> EventBusEnum_members).
Proof.
  split; [|split].
  - intros e. destruct e; by_evaluation.
  - reflexivity.
  - by_evaluation.
Qed.

(** ** Clearing the registry *)

Lemma registered_clearAll e s : registered e (clearAll s) = [].
Proof. done. Qed.

(** The first listener of a kind without entry is alone in a new [Set]. *)
Lemma registered_subscribe_absent e f s :
  get e s = None → registered e (subscribe e f s) = [f].
Proof.
  intros E. rewrite (subscribe_absent _ _ _ E). unfold registered, set_of, get in *.
  cbn [stack heap]. rewrite ESMapFacts.get_snoc, E, decide_True by done.
  simpl. by rewrite lookup_app_r, Nat.sub_diag.
Qed.

(** X1. [clearAll()] forgets every kind and every listener: [empty] is true,
    [count] is 0, [events] and [listeners] are empty, a [dispatch] of any
    kind calls nothing, and a listener subscribed afterwards is alone under
    its kind, whatever the kind had before. *)
Theorem clearAll_forgets_everything code K f P s :
  let s' := clearAll s in
  empty s' = true ∧ count s' = 0 ∧ events s' = [] ∧ listeners s' = [] ∧
  get K s' = None ∧
  (∀ n, dispatch code n K P s' = (s', Normal)) ∧
  registered K (subscribe K f s') = [f].
Proof.
  intros s'. do 5 (split; [reflexivity|]). split.
  - intros n. by apply dispatch_no_member.
  - by apply registered_subscribe_absent.
Qed.

(** ** The accessors *)

(** X10. [events] and [listeners] have [count] elements each and are aligned:
    in a well-formed state, [get(K)] is the [Set] at the position of [K] in
    [events], and is absent exactly when [K] is not among [events].  [empty]
    says that there are no [events]. *)
Theorem events_listeners_aligned s :
  length (events s) = count s ∧
  length (listeners s) = count s ∧
  (empty s = true ↔ events s = []) ∧
  (∀ K, get K s = None ↔ K ∉ events s) ∧
  (wf s → ∀ K a,
     get K s = Some a ↔
     ∃ i, events s !! i = Some K ∧ listeners s !! i = Some a).
Proof.
  unfold events, listeners, count, empty, get, ESMap.keys, ESMap.values, ESMap.size.
  split; [by rewrite length_fmap|]. split; [by rewrite length_fmap|].
  split; [|split].
  - rewrite bool_decide_eq_true. destruct (stack s); simpl; split; done.
  - intros K. apply ESMapFacts.get_None.
  - intros (Hk & _) K a. split.
    + intros H%ESMapFacts.get_Some. apply list_elem_of_lookup in H as [i Hi].
      exists i. by rewrite !list_lookup_fmap, Hi.
    + intros (i & H1 & H2). rewrite list_lookup_fmap in H1. rewrite list_lookup_fmap in H2.
      destruct (stack s !! i) as [[k v]|] eqn:Hi; simplify_eq/=.
      apply ESMapFacts.get_elem_of; [done|]. by apply list_elem_of_lookup_2 with i.
Qed.

(** A registry with two kinds, the second of which has lost its listener. *)
Lemma events_listeners_aligned_witness :
  let s := unsubscribe USER_UPDATED (Listener 2)
             (subscribe USER_UPDATED (Listener 2)
                (subscribe USER_CREATED (Listener 1) initial)) in
  wf s ∧
  events s = [USER_CREATED; USER_UPDATED] ∧
  (get USER_UPDATED s = Some 1 ↔
   ∃ i, events s !! i = Some USER_UPDATED ∧ listeners s !! i = Some 1).
Proof.
  intros s. assert (wf s) as Hwf by by_evaluation.
  split; [exact Hwf|]. split; [reflexivity|].
  exact (proj2 (proj2 (proj2 (proj2 (events_listeners_aligned s))))
           Hwf USER_UPDATED 1).
Defined.

(** ** What a listener does to the pass it is called in *)

(** [dispatch] passes over inert listeners and comes to the body of the
    listener [M]; what is left of the loop starts behind [M]. *)
Lemma dispatch_at_listener code K P s M pre post m :
  registered K s = pre ++ Listener M :: post →
  NoDup (registered K s) →
  Forall (inert code P) pre →
  ∃ a d j,
    get K s = Some a ∧ heap s !! a = Some d ∧ j < length d ∧
    ESSet.values (drop (S j) d) = post ∧
    dispatch code (length pre + S (S m)) K P s =
    run code m (code M P)
      (record (Listener M) P (noted ((λ f, (f, P)) <$> pre) s)) >>>
    forEach code (S m) a (S j) P.
Proof.
  intros Hreg Hnd Hpre.
  destruct (registered_member_inv K s (Listener M)) as (a & d & Ha & Hd & Hv).
  { rewrite Hreg. apply elem_of_app. right. apply list_elem_of_here. }
  rewrite Hreg in Hv, Hnd.
  destruct (forEach_inert_prefix code P a pre s 0 d (Listener M :: post)
              (S (S m))) as (j0 & Hj0 & E);
    [done|by rewrite drop_0|done|done|lia|].
  destruct (forEach_head code P a (S m) j0
              (noted ((λ f, (f, P)) <$> pre) s) d (Listener M) post)
    as (j & Hlt & Hrest & E'); [done|done|].
  exists a, d, j. repeat split; try done.
  by rewrite dispatch_eq, Ha, E, E', call_S.
Qed.

(** X4. A listener that throws ends the pass: the listeners before it have
    been called, those after it are not, the exception leaves [dispatch],
    and the registry is as it was. *)
Theorem dispatch_stops_at_throw code K P s M pre post rest n :
  registered K s = pre ++ Listener M :: post →
  NoDup (registered K s) →
  Forall (inert code P) pre →
  code M P = Throw :: rest →
  length pre + 3 ≤ n →
  dispatch code n K P s =
  (noted ((λ f, (f, P)) <$> (pre ++ [Listener M])) s, Thrown).
Proof.
  intros Hreg Hnd Hpre HM Hn.
  destruct (dispatch_at_listener code K P s M pre post (S (n - length pre - 3))
              Hreg Hnd Hpre) as (a & d & j & _ & _ & _ & _ & E).
  replace (length pre + S (S (S (n - length pre - 3)))) with n in E by lia.
  rewrite E, HM, run_cons_S. simpl. unfold noted, record. simpl.
  by rewrite fmap_app, app_assoc.
Qed.

(** Function 10 throws between functions 1 and 2. *)
Lemma dispatch_stops_at_throw_witness :
  let s := batch USER_CREATED [Listener 1; Listener 10; Listener 2] initial in
  registered USER_CREATED s = [Listener 1] ++ Listener 10 :: [Listener 2] ∧
  NoDup (registered USER_CREATED s) ∧
  Forall (inert app2 id7) [Listener 1] ∧
  app2 10 id7 = Throw :: [] ∧
  length [Listener 1] + 3 ≤ 4 ∧
  dispatch app2 4 USER_CREATED id7 s =
  (noted [(Listener 1, id7); (Listener 10, id7)] s, Thrown).
Proof.
  intros s.
  assert (NoDup (registered USER_CREATED s)) as Hnd by by_evaluation.
  assert (Forall (inert app2 id7) [Listener 1]) as Hi by (repeat constructor).
  assert (length [Listener 1] + 3 ≤ 4) as Hn by (simpl; lia).
  split; [reflexivity|]. split; [exact Hnd|]. split; [exact Hi|].
  split; [reflexivity|]. split; [exact Hn|].
  exact (dispatch_stops_at_throw app2 USER_CREATED id7 s 10 [Listener 1]
           [Listener 2] [] 4 eq_refl Hnd Hi eq_refl Hn).
Defined.

(** X3. A listener that clears its own kind ends the pass: the listeners
    after it are not called, [dispatch] returns normally, and the kind is
    left without listener, with its entry. *)
Theorem clear_in_listener_ends_pass code K P s M pre post n :
  registered K s = pre ++ Listener M :: post →
  NoDup (registered K s) →
  Forall (inert code P) pre →
  code M P = [Clear K] →
  length pre + 3 ≤ n →
  ∃ s', dispatch code n K P s = (s', Normal) ∧
        calls s' = calls s ++ ((λ f, (f, P)) <$> (pre ++ [Listener M])) ∧
        registered K s' = [] ∧
        events s' = events s.
Proof.
  intros Hreg Hnd Hpre HM Hn.
  destruct (dispatch_at_listener code K P s M pre post (S (n - length pre - 3))
              Hreg Hnd Hpre) as (a & d & j & Ha & Hd & _ & _ & E).
  replace (length pre + S (S (S (n - length pre - 3)))) with n in E by lia.
  rewrite E, HM, run_cons_S, and_then_Normal, run_nil, and_then_Normal.
  cbn [quiet].
  set (sM := record (Listener M) P (noted ((λ f, (f, P)) <$> pre) s)).
  assert (heap (clear K sM) !! a = Some (ESSet.clear d)) as Hd'.
  { unfold clear. change (ESMap.get (stack sM) K) with (get K s).
    rewrite Ha, on_set_lookup, decide_True by done.
    change (heap sM) with (heap s). by rewrite Hd. }
  exists (clear K sM). split; [|split; [|split]].
  - apply forEach_done with (ESSet.clear d); [done|].
    unfold ESSet.clear. rewrite <- fmap_drop. apply ESSetFacts.values_clear.
  - unfold clear. rewrite on_set_calls. simpl. by rewrite fmap_app, app_assoc.
  - apply registered_clear.
  - by rewrite events_clear.
Qed.

(** Function 30 clears ["user:created"] between functions 1 and 2. *)
Lemma clear_in_listener_ends_pass_witness :
  let s := batch USER_CREATED [Listener 1; Listener 30; Listener 2] initial in
  registered USER_CREATED s = [Listener 1] ++ Listener 30 :: [Listener 2] ∧
  NoDup (registered USER_CREATED s) ∧
  Forall (inert app2 id7) [Listener 1] ∧
  app2 30 id7 = [Clear USER_CREATED] ∧
  length [Listener 1] + 3 ≤ 4 ∧
  ∃ s', dispatch app2 4 USER_CREATED id7 s = (s', Normal) ∧
        calls s' = calls s ++ [(Listener 1, id7); (Listener 30, id7)] ∧
        registered USER_CREATED s' = [] ∧
        events s' = events s.
Proof.
  intros s.
  assert (NoDup (registered USER_CREATED s)) as Hnd by by_evaluation.
  assert (Forall (inert app2 id7) [Listener 1]) as Hi by (repeat constructor).
  assert (length [Listener 1] + 3 ≤ 4) as Hn by (simpl; lia).
  split; [reflexivity|]. split; [exact Hnd|]. split; [exact Hi|].
  split; [reflexivity|]. split; [exact Hn|].
  exact (clear_in_listener_ends_pass app2 USER_CREATED id7 s 30 [Listener 1]
           [Listener 2] 4 eq_refl Hnd Hi eq_refl Hn).
Defined.

(** X2. A listener that calls [clearAll()] does not end the pass it is called
    in: the loop holds the [Set] object, which [clearAll] only takes out of
    the [Map], so the listeners after it are still called; afterwards the
    registry is empty. *)
Theorem clearAll_in_listener_keeps_pass code K P s M pre post n :
  registered K s = pre ++ Listener M :: post →
  NoDup (registered K s) →
  Forall (inert code P) (pre ++ post) →
  code M P = [ClearAll] →
  length (registered K s) + 3 ≤ n →
  ∃ s', dispatch code n K P s = (s', Normal) ∧
        calls s' =
          calls s ++ ((λ f, (f, P)) <$> (pre ++ Listener M :: post)) ∧
        empty s' = true ∧
        registered K s' = [].
Proof.
  intros Hreg Hnd Hi HM Hn. apply Forall_app in Hi as [Hpre Hpost].
  destruct (dispatch_at_listener code K P s M pre post (S (n - length pre - 3))
              Hreg Hnd Hpre) as (a & d & j & Ha & Hd & _ & Hrest & E).
  rewrite Hreg, length_app in Hn. simpl in Hn.
  replace (length pre + S (S (S (n - length pre - 3)))) with n in E by lia.
  rewrite E, HM, run_cons_S, and_then_Normal, run_nil, and_then_Normal.
  cbn [quiet].
  set (sM := record (Listener M) P (noted ((λ f, (f, P)) <$> pre) s)).
  assert (heap (clearAll sM) !! a = Some d) as Hd' by done.
  rewrite (forEach_plain code P a (clearAll sM) (S j) d _ Hd'); rewrite Hrest.
  - eexists. split; [done|]. fold (pass P post (clearAll sM)).
    rewrite (pass_inert code) by done. split; [|done]. simpl.
    rewrite !fmap_app, !fmap_cons. by rewrite <- !app_assoc.
  - eapply Forall_impl; [exact Hpost|]. apply inert_plain.
  - rewrite Hreg in Hnd. apply NoDup_app in Hnd as (_ & _ & Hnd).
    by apply NoDup_cons in Hnd as [_ Hnd].
  - lia.
Qed.

(** Function 31 clears the registry between functions 1 and 2. *)
Lemma clearAll_in_listener_keeps_pass_witness :
  let s := batch USER_CREATED [Listener 1; Listener 31; Listener 2] initial in
  registered USER_CREATED s = [Listener 1] ++ Listener 31 :: [Listener 2] ∧
  NoDup (registered USER_CREATED s) ∧
  Forall (inert app2 id7) ([Listener 1] ++ [Listener 2]) ∧
  app2 31 id7 = [ClearAll] ∧
  length (registered USER_CREATED s) + 3 ≤ 6 ∧
  ∃ s', dispatch app2 6 USER_CREATED id7 s = (s', Normal) ∧
        calls s' =
          calls s ++ [(Listener 1, id7); (Listener 31, id7); (Listener 2, id7)] ∧
        empty s' = true ∧
        registered USER_CREATED s' = [].
Proof.
  intros s.
  assert (NoDup (registered USER_CREATED s)) as Hnd by by_evaluation.
  assert (Forall (inert app2 id7) ([Listener 1] ++ [Listener 2])) as Hi
    by (repeat constructor).
  assert (length (registered USER_CREATED s) + 3 ≤ 6) as Hn by (simpl; lia).
  split; [reflexivity|]. split; [exact Hnd|]. split; [exact Hi|].
  split; [reflexivity|]. split; [exact Hn|].
  exact (clearAll_in_listener_keeps_pass app2 USER_CREATED id7 s 31 [Listener 1]
           [Listener 2] 6 eq_refl Hnd Hi eq_refl Hn).
Defined.

(** X5. [dispatch] is synchronous and depth first: when a listener dispatches
    a second event, the listeners of that event are all called, in order and
    with the second payload, before the next listener of the first event. *)
Theorem nested_dispatch_runs_first code K P K2 P2 s M pre post n :
  registered K s = pre ++ Listener M :: post →
  NoDup (registered K s) →
  Forall (inert code P) (pre ++ post) →
  code M P = [Dispatch K2 P2] →
  Forall (inert code P2) (registered K2 s) →
  NoDup (registered K2 s) →
  length (registered K s) + length (registered K2 s) + 4 ≤ n →
  ∃ s', dispatch code n K P s = (s', Normal) ∧
        calls s' =
          calls s ++
          ((λ f, (f, P)) <$> (pre ++ [Listener M])) ++
          ((λ f, (f, P2)) <$> registered K2 s) ++
          ((λ f, (f, P)) <$> post).
Proof.
  intros Hreg Hnd Hi HM Hi2 Hnd2 Hn. apply Forall_app in Hi as [Hpre Hpost].
  destruct (dispatch_at_listener code K P s M pre post (S (n - length pre - 3))
              Hreg Hnd Hpre) as (a & d & j & Ha & Hd & _ & Hrest & E).
  rewrite Hreg, length_app in Hn. simpl in Hn.
  replace (length pre + S (S (S (n - length pre - 3)))) with n in E by lia.
  rewrite E, HM, run_cons_S.
  set (sM := record (Listener M) P (noted ((λ f, (f, P)) <$> pre) s)).
  change (registered K2 s) with (registered K2 sM) in Hi2, Hnd2, Hn |- *.
  rewrite (dispatch_plain code P2) by
    (done || (eapply Forall_impl; [exact Hi2|]; apply inert_plain) || lia).
  rewrite (pass_inert code) by done.
  rewrite and_then_Normal, run_nil, and_then_Normal.
  set (sN := noted ((λ f, (f, P2)) <$> registered K2 sM) sM).
  assert (heap sN !! a = Some d) as Hd' by done.
  rewrite (forEach_plain code P a sN (S j) d _ Hd'); rewrite Hrest.
  - eexists. split; [done|]. fold (pass P post sN).
    rewrite (pass_inert code) by done. simpl.
    rewrite !fmap_app. simpl. by rewrite <- !app_assoc.
  - eapply Forall_impl; [exact Hpost|]. apply inert_plain.
  - rewrite Hreg in Hnd. apply NoDup_app in Hnd as (_ & _ & Hnd).
    by apply NoDup_cons in Hnd as [_ Hnd].
  - lia.
Qed.

(** Function 32, between functions 1 and 2 of ["user:created"], dispatches
    ["user:updated"], to which functions 3 and 4 listen. *)
Lemma nested_dispatch_runs_first_witness :
  let s := batch USER_UPDATED [Listener 3; Listener 4]
             (batch USER_CREATED [Listener 1; Listener 32; Listener 2] initial) in
  registered USER_CREATED s = [Listener 1] ++ Listener 32 :: [Listener 2] ∧
  NoDup (registered USER_CREATED s) ∧
  Forall (inert app2 id7) ([Listener 1] ++ [Listener 2]) ∧
  app2 32 id7 = [Dispatch USER_UPDATED []] ∧
  Forall (inert app2 []) (registered USER_UPDATED s) ∧
  NoDup (registered USER_UPDATED s) ∧
  length (registered USER_CREATED s) + length (registered USER_UPDATED s) + 4 ≤ 9 ∧
  ∃ s', dispatch app2 9 USER_CREATED id7 s = (s', Normal) ∧
        calls s' =
          calls s ++
          [(Listener 1, id7); (Listener 32, id7)] ++
          [(Listener 3, []); (Listener 4, [])] ++
          [(Listener 2, id7)].
Proof.
  intros s.
  assert (NoDup (registered USER_CREATED s)) as Hnd by by_evaluation.
  assert (Forall (inert app2 id7) ([Listener 1] ++ [Listener 2])) as Hi
    by (repeat constructor).
  assert (Forall (inert app2 []) (registered USER_UPDATED s)) as Hi2
    by (repeat constructor).
  assert (NoDup (registered USER_UPDATED s)) as Hnd2 by by_evaluation.
  assert (length (registered USER_CREATED s) +
          length (registered USER_UPDATED s) + 4 ≤ 9) as Hn by (simpl; lia).
  split; [reflexivity|]. split; [exact Hnd|]. split; [exact Hi|].
  split; [reflexivity|]. split; [exact Hi2|]. split; [exact Hnd2|].
  split; [exact Hn|].
  exact (nested_dispatch_runs_first app2 USER_CREATED id7 USER_UPDATED [] s 32
           [Listener 1] [Listener 2] 9 eq_refl Hnd Hi eq_refl Hi2 Hnd2 Hn).
Defined.

(** ** Subscribing several listeners at once *)

Lemma batch_cons e f fs s : batch e (f :: fs) s = batch e fs (subscribe e f s).
Proof. done. Qed.

Lemma batch_closures e fs s : closures (batch e fs s) = closures s.
Proof.
  revert s. induction fs as [|f fs IH]; intros s; [done|].
  by rewrite batch_cons, IH, subscribe_closures.
Qed.

Lemma wf_batch_allocated e fs s :
  wf s → Forall (allocated (closures s)) fs → wf (batch e fs s).
Proof.
  revert s. induction fs as [|f fs IH]; intros s Hwf Hfs; [done|].
  apply Forall_cons in Hfs as [Hf Hfs]. rewrite batch_cons.
  apply IH; [by apply wf_subscribe|]. by rewrite subscribe_closures.
Qed.

Lemma registered_subscribe_elem s e f g :
  wf s → g ∈ registered e (subscribe e f s) ↔ g ∈ registered e s ∨ g = f.
Proof.
  intros Hwf. rewrite registered_subscribe by done. case_decide as Hin.
  - split; [by left|]. by intros [?| ->].
  - by rewrite elem_of_app, list_elem_of_singleton.
Qed.

Lemma registered_subscribe_prefix s e f :
  wf s → registered e s `prefix_of` registered e (subscribe e f s).
Proof.
  intros Hwf. rewrite registered_subscribe by done. case_decide; [done|].
  by apply prefix_app_r.
Qed.

Lemma registered_batch_elem e fs s g :
  wf s → Forall (allocated (closures s)) fs →
  g ∈ registered e (batch e fs s) ↔ g ∈ registered e s ∨ g ∈ fs.
Proof.
  revert s. induction fs as [|f fs IH]; intros s Hwf Hfs.
  - simpl. split; [by left|]. intros [?|H]; [done|by apply elem_of_nil in H].
  - apply Forall_cons in Hfs as [Hf Hfs].
    rewrite batch_cons, IH, registered_subscribe_elem, elem_of_cons;
      [tauto|done|by apply wf_subscribe|by rewrite subscribe_closures].
Qed.

Lemma registered_batch_prefix e fs s :
  wf s → Forall (allocated (closures s)) fs →
  registered e s `prefix_of` registered e (batch e fs s).
Proof.
  revert s. induction fs as [|f fs IH]; intros s Hwf Hfs; [done|].
  apply Forall_cons in Hfs as [Hf Hfs]. rewrite batch_cons.
  trans (registered e (subscribe e f s)); [by apply registered_subscribe_prefix|].
  apply IH; [by apply wf_subscribe|by rewrite subscribe_closures].
Qed.

Lemma registered_batch_ne e fs s e' :
  wf s → Forall (allocated (closures s)) fs → e' ≠ e →
  registered e' (batch e fs s) = registered e' s.
Proof.
  revert s. induction fs as [|f fs IH]; intros s Hwf Hfs Hne; [done|].
  apply Forall_cons in Hfs as [Hf Hfs].
  rewrite batch_cons, IH, registered_subscribe_ne;
    [done..|by apply wf_subscribe|by rewrite subscribe_closures|done].
Qed.

(** A [batch] of listeners that are all members changes nothing. *)
Lemma batch_members e fs s :
  Forall (λ f, f ∈ registered e s) fs → batch e fs s = s.
Proof.
  induction 1 as [|f fs Hf _ IH]; [done|].
  by rewrite batch_cons, subscribe_member.
Qed.

(** X6. After [batch(K, listeners)] the listeners of [K] are those it had,
    in the same places, followed by the new ones; every listener of the
    array is among them, none is there twice however often the array names
    it, the other kinds are as they were, and a second [batch] of the same
    array changes nothing. *)
Theorem batch_adds_each_once K fs s :
  wf s →
  Forall (allocated (closures s)) fs →
  let s' := batch K fs s in
  (∀ g, g ∈ registered K s' ↔ g ∈ registered K s ∨ g ∈ fs) ∧
  registered K s `prefix_of` registered K s' ∧
  NoDup (registered K s') ∧
  (∀ K', K' ≠ K → registered K' s' = registered K' s) ∧
  batch K fs s' = s'.
Proof.
  intros Hwf Hfs s'.
  split; [intros g; by apply registered_batch_elem|].
  split; [by apply registered_batch_prefix|].
  split; [by apply wf_NoDup, wf_batch_allocated|].
  split; [intros K' Hne; by apply registered_batch_ne|].
  apply batch_members. apply Forall_forall. intros f Hf.
  apply registered_batch_elem; [done..|by right].
Qed.

(** Function 2 is subscribed already, and the array names function 3
    twice. *)
Lemma batch_adds_each_once_witness :
  let s := subscribe USER_CREATED (Listener 2) initial in
  let fs := [Listener 3; Listener 2; Listener 3; Listener 1] in
  wf s ∧
  Forall (allocated (closures s)) fs ∧
  registered USER_CREATED (batch USER_CREATED fs s) =
    [Listener 2; Listener 3; Listener 1] ∧
  NoDup (registered USER_CREATED (batch USER_CREATED fs s)) ∧
  batch USER_CREATED fs (batch USER_CREATED fs s) = batch USER_CREATED fs s.
Proof.
  intros s fs.
  assert (wf s) as Hwf by by_evaluation.
  assert (Forall (allocated (closures s)) fs) as Hfs by (repeat constructor).
  destruct (batch_adds_each_once USER_CREATED fs s Hwf Hfs)
    as (_ & _ & H3 & _ & H5).
  split; [exact Hwf|]. split; [exact Hfs|]. split; [reflexivity|].
  split; [exact H3|exact H5].
Defined.

(** ** Subscribing again *)



(** ** What a pass leaves of the one-shot listeners *)

Lemma filter_iff_in {A} (Q1 Q2 : A → Prop)
    `{!∀ x, Decision (Q1 x), !∀ x, Decision (Q2 x)} (l : list A) :
  (∀ x, x ∈ l → Q1 x ↔ Q2 x) → filter Q1 l = filter Q2 l.
Proof.
  induction l as [|x l IH]; intros Hiff; [done|].
  rewrite !filter_cons.
  rewrite IH by (intros y Hy; by apply Hiff, list_elem_of_further).
  destruct (decide (Q1 x)) as [H1|H1], (decide (Q2 x)) as [H2|H2]; try done.
  - destruct H2. apply (Hiff x); [apply list_elem_of_here|done].
  - destruct H1. apply (Hiff x); [apply list_elem_of_here|done].
Qed.

Lemma wf_after_call P f s : wf s → wf (after_call P f s).
Proof.
  intros Hwf. destruct f as [l|c e g]; [done|]. by apply wf_unsubscribe.
Qed.

Lemma wf_pass P vs s : wf s → wf (pass P vs s).
Proof.
  revert s. induction vs as [|f vs IH]; intros s Hwf; [done|].
  rewrite pass_cons. by apply IH, wf_after_call.
Qed.

(** A call of a plain function takes out of the set of [K] the function
    itself if it is a closure made for [K], and nothing else. *)
Lemma registered_after_call P f K s :
  wf s →
  registered K (after_call P f s) =
  filter (λ g, ¬ (g = f ∧ once_for K g)) (registered K s).
Proof.
  intros Hwf. destruct f as [l|c e g0].
  - simpl. symmetry. apply filter_all. intros g _ [-> H]. done.
  - unfold after_call. destruct (decide (e = K)) as [->|Hne].
    + rewrite registered_unsubscribe. apply list_filter_iff. intros g. split.
      * intros Hg [-> _]. done.
      * intros Hg ->. apply Hg. done.
    + rewrite registered_unsubscribe_ne by done.
      symmetry. apply filter_all. intros g _ [-> H]. done.
Qed.

Lemma registered_pass P vs K s :
  wf s →
  registered K (pass P vs s) =
  filter (λ g, ¬ (g ∈ vs ∧ once_for K g)) (registered K s).
Proof.
  revert s. induction vs as [|f vs IH]; intros s Hwf.
  - simpl. symmetry. apply filter_all. intros g _ [H _]. by apply elem_of_nil in H.
  - rewrite pass_cons, IH by by apply wf_after_call.
    rewrite registered_after_call by done. rewrite list_filter_filter.
    apply list_filter_iff. intros g. rewrite elem_of_cons. split.
    + intros [H1 H2] [[->|Hin] Hof]; [by apply H2|by apply H1].
    + intros H. split.
      * intros [Hin Hof]. apply H. split; [by right|done].
      * intros [-> Hof]. apply H. split; [by left|done].
Qed.

(** X9. A [dispatch(K, P)] over plain listeners takes out of [K]'s set the
    closures that [once] made for [K], which have fired, and leaves the
    other listeners of [K] in their places; the set of another kind loses
    nothing unless [K]'s set held a closure made for that kind. *)
Theorem dispatch_consumes_once_closures code K P s n :
  wf s →
  Forall (plain code P) (registered K s) →
  length (registered K s) + 2 ≤ n →
  ∃ s', dispatch code n K P s = (s', Normal) ∧
        wf s' ∧
        registered K s' = filter (λ g, ¬ once_for K g) (registered K s) ∧
        ∀ K', Forall (λ g, ¬ once_for K' g) (registered K s) →
              registered K' s' = registered K' s.
Proof.
  intros Hwf Hp Hn. exists (pass P (registered K s) s).
  split; [apply dispatch_plain; [done|by apply wf_NoDup|done]|].
  split; [by apply wf_pass|]. split.
  - rewrite registered_pass by done. apply filter_iff_in. intros g Hg.
    split; [|tauto]. intros H Hof. by apply H.
  - intros K' HK'. rewrite registered_pass by done. apply filter_all.
    intros g _ [Hin Hof]. rewrite Forall_forall in HK'. by apply (HK' g).
Qed.

(** A listener, a closure of [once], and a second listener. *)
Lemma dispatch_consumes_once_closures_witness :
  let s := subscribe USER_CREATED (Listener 3)
             (once USER_CREATED (Listener 2)
                (subscribe USER_CREATED (Listener 1) initial)) in
  wf s ∧
  Forall (plain app id7) (registered USER_CREATED s) ∧
  length (registered USER_CREATED s) + 2 ≤ 5 ∧
  ∃ s', dispatch app 5 USER_CREATED id7 s = (s', Normal) ∧
        wf s' ∧
        registered USER_CREATED s' = [Listener 1; Listener 3] ∧
        ∀ K', Forall (λ g, ¬ once_for K' g) (registered USER_CREATED s) →
              registered K' s' = registered K' s.
Proof.
  intros s.
  assert (wf s) as Hwf by by_evaluation.
  assert (Forall (plain app id7) (registered USER_CREATED s)) as Hp
    by (repeat constructor).
  assert (length (registered USER_CREATED s) + 2 ≤ 5) as Hn by (simpl; lia).
  split; [exact Hwf|]. split; [exact Hp|]. split; [exact Hn|].
  exact (dispatch_consumes_once_closures app USER_CREATED id7 s 5 Hwf Hp Hn).
Defined.

(** ** One-shot subscription of several listeners, or under several kinds *)

Lemma filter_none {A} (Q : A → Prop) `{!∀ x, Decision (Q x)} (l : list A) :
  (∀ x, x ∈ l → ¬ Q x) → filter Q l = [].
Proof.
  induction l as [|x l IH]; intros Hno; [done|].
  rewrite filter_cons_False by apply Hno, list_elem_of_here.
  apply IH. intros y Hy. by apply Hno, list_elem_of_further.
Qed.

Lemma batchOnce_cons e g gs s :
  batchOnce e (g :: gs) s = batchOnce e gs (once e g s).
Proof. done. Qed.

Lemma multipleOnce_cons e es g s :
  multipleOnce (e :: es) g s = multipleOnce es g (once e g s).
Proof. done. Qed.

(** [batchOnce] appends its closures to the set of the kind, in the order
    of the array. *)
Lemma registered_batchOnce e gs s :
  wf s →
  registered e (batchOnce e gs s) =
  registered e s ++ batchOnce_closures (closures s) e gs.
Proof.
  revert s. induction gs as [|g gs IH]; intros s Hwf.
  - simpl. by rewrite app_nil_r.
  - rewrite batchOnce_cons, IH by by apply wf_once.
    rewrite registered_once, once_closures by done. simpl.
    by rewrite <- app_assoc.
Qed.

(** [multipleOnce] appends to the set of each kind a closure for each time
    the array names the kind. *)
Lemma registered_multipleOnce es g s K :
  wf s →
  registered K (multipleOnce es g s) =
  registered K s ++ multipleOnce_closures (closures s) K g es.
Proof.
  revert s. induction es as [|e es IH]; intros s Hwf.
  - simpl. by rewrite app_nil_r.
  - rewrite multipleOnce_cons, IH by by apply wf_once.
    rewrite once_closures. simpl. destruct (decide (e = K)) as [->|Hne].
    + rewrite registered_once by done. by rewrite <- app_assoc.
    + by rewrite registered_once_ne by done.
Qed.

Section Closures.

Variable code : nat → IEventPayload → list stmt.
Variable P : IEventPayload.

Lemma batchOnce_closures_plain c K ls :
  Forall (λ l, code l P = []) ls →
  Forall (plain code P) (batchOnce_closures c K (Listener <$> ls)).
Proof.
  intros H. revert c. induction H as [|l ls Hl _ IH]; intros c; simpl;
    constructor; [done|apply IH].
Qed.

Lemma batchOnce_closures_once_for c K gs :
  Forall (once_for K) (batchOnce_closures c K gs).
Proof.
  revert c. induction gs as [|g gs IH]; intros c; simpl; constructor; [done|apply IH].
Qed.

Lemma batchOnce_closures_length c K gs :
  length (batchOnce_closures c K gs) = length gs.
Proof.
  revert c. induction gs as [|g gs IH]; intros c; simpl; [done|]. by rewrite IH.
Qed.

(** Each closure of [batchOnce] calls its listener: a listener is called as
    often as the array names it. *)
Lemma times_batchOnce_closures c K ls l :
  times (Listener l, P)
    (flat_map (invocations P) (batchOnce_closures c K (Listener <$> ls))) =
  length (filter (λ l', l' = l) ls).
Proof.
  revert c. induction ls as [|l' ls IH]; intros c; [done|].
  change (flat_map (invocations P)
            (batchOnce_closures c K (Listener <$> l' :: ls)))
    with ([(OnceClosure c K (Listener l'), P); (Listener l', P)] ++
          flat_map (invocations P)
            (batchOnce_closures (S c) K (Listener <$> ls))).
  rewrite times_app, !times_cons, times_nil, IH, filter_cons.
  rewrite (decide_False (P:=(OnceClosure c K (Listener l'), P) = (Listener l, P)))
    by done.
  destruct (decide (l' = l)) as [->|Hne].
  - rewrite decide_True by done. simpl. lia.
  - rewrite decide_False; [simpl; lia|congruence].
Qed.

Lemma multipleOnce_closures_plain c K l es :
  code l P = [] →
  Forall (plain code P) (multipleOnce_closures c K (Listener l) es).
Proof.
  intros Hl. revert c. induction es as [|e es IH]; intros c; simpl; [done|].
  apply Forall_app. split; [|apply IH]. case_decide; by repeat constructor.
Qed.

Lemma multipleOnce_closures_once_for c K g es :
  Forall (once_for K) (multipleOnce_closures c K g es).
Proof.
  revert c. induction es as [|e es IH]; intros c; simpl; [done|].
  apply Forall_app. split; [|apply IH]. case_decide; by repeat constructor.
Qed.

Lemma multipleOnce_closures_length c K g es :
  length (multipleOnce_closures c K g es) = length (filter (λ e, e = K) es).
Proof.
  revert c. induction es as [|e es IH]; intros c; simpl; [done|].
  rewrite length_app, IH, filter_cons. by case_decide.
Qed.

(** A pass over inert listeners followed by closures of [once] for the kind
    leaves the inert listeners. *)
Lemma filter_once_for K vs ws :
  Forall (inert code P) vs → Forall (once_for K) ws →
  filter (λ g, ¬ once_for K g) (vs ++ ws) = vs.
Proof.
  intros Hvs Hws. rewrite filter_app, filter_all, filter_none.
  - by rewrite app_nil_r.
  - intros g Hg H. rewrite Forall_forall in Hws. by apply H, Hws.
  - intros g Hg H. rewrite Forall_forall in Hvs. apply Hvs in Hg. by destruct g.
Qed.

End Closures.

(** X7. [batchOnce(K, listeners)] gives every listener of the array a closure
    of its own, appended to [K]'s set in the order of the array.  The next
    [dispatch(K, P)] calls the earlier listeners of [K] and then every
    closure, a listener as often as the array names it, and leaves [K] with
    the listeners it had before. *)
Theorem batchOnce_fires_each_once code K ls P s n :
  wf s →
  Forall (inert code P) (registered K s) →
  Forall (λ l, code l P = []) ls →
  length (registered K s) + length ls + 2 ≤ n →
  let s0 := batchOnce K (Listener <$> ls) s in
  let ws := batchOnce_closures (closures s) K (Listener <$> ls) in
  registered K s0 = registered K s ++ ws ∧
  ∃ s1, dispatch code n K P s0 = (s1, Normal) ∧
        calls s1 =
          calls s0 ++ ((λ f, (f, P)) <$> registered K s) ++
          flat_map (invocations P) ws ∧
        (∀ l, times (Listener l, P) (flat_map (invocations P) ws) =
              length (filter (λ l', l' = l) ls)) ∧
        registered K s1 = registered K s.
Proof.
  intros Hwf Hi Hls Hn s0 ws.
  assert (registered K s0 = registered K s ++ ws) as Hreg
    by by apply registered_batchOnce.
  assert (wf s0) as Hwf0 by by apply wf_batchOnce.
  assert (Forall (plain code P) (registered K s0)) as Hp.
  { rewrite Hreg. apply Forall_app. split.
    - eapply Forall_impl; [exact Hi|]. apply inert_plain.
    - by apply batchOnce_closures_plain. }
  split; [done|].
  destruct (dispatch_consumes_once_closures code K P s0 n Hwf0 Hp)
    as (s1 & Hd & _ & Hreg1 & _).
  { rewrite Hreg, length_app. unfold ws.
    rewrite batchOnce_closures_length, length_fmap. lia. }
  exists s1. split; [done|]. split; [|split].
  - rewrite (dispatch_plain code P n K s0 Hp) in Hd;
      [|by apply wf_NoDup|rewrite Hreg, length_app; unfold ws;
        rewrite batchOnce_closures_length, length_fmap; lia].
    injection Hd as <-. rewrite (pass_calls code) by done.
    by rewrite Hreg, flat_map_app, (invocations_inert code).
  - intros l. apply times_batchOnce_closures.
  - rewrite Hreg1, Hreg. apply (filter_once_for code P); [done|].
    apply batchOnce_closures_once_for.
Qed.

(** The array names function 2 twice; function 1 was subscribed before. *)
Lemma batchOnce_fires_each_once_witness :
  let s := subscribe USER_CREATED (Listener 1) initial in
  let s0 := batchOnce USER_CREATED (Listener <$> [2; 3; 2]) s in
  wf s ∧
  Forall (inert app id7) (registered USER_CREATED s) ∧
  Forall (λ l, app l id7 = []) [2; 3; 2] ∧
  length (registered USER_CREATED s) + length [2; 3; 2] + 2 ≤ 6 ∧
  registered USER_CREATED s0 =
    [Listener 1; OnceClosure 0 USER_CREATED (Listener 2);
     OnceClosure 1 USER_CREATED (Listener 3);
     OnceClosure 2 USER_CREATED (Listener 2)] ∧
  ∃ s1, dispatch app 6 USER_CREATED id7 s0 = (s1, Normal) ∧
        calls s1 =
          [(Listener 1, id7);
           (OnceClosure 0 USER_CREATED (Listener 2), id7); (Listener 2, id7);
           (OnceClosure 1 USER_CREATED (Listener 3), id7); (Listener 3, id7);
           (OnceClosure 2 USER_CREATED (Listener 2), id7); (Listener 2, id7)] ∧
        registered USER_CREATED s1 = [Listener 1].
Proof.
  intros s s0.
  assert (wf s) as Hwf by by_evaluation.
  assert (Forall (inert app id7) (registered USER_CREATED s)) as Hi
    by (repeat constructor).
  assert (Forall (λ l, app l id7 = []) [2; 3; 2]) as Hls by (repeat constructor).
  assert (length (registered USER_CREATED s) + length [2; 3; 2] + 2 ≤ 6) as Hn
    by (simpl; lia).
  destruct (batchOnce_fires_each_once app USER_CREATED [2; 3; 2] id7 s 6
              Hwf Hi Hls Hn) as (H1 & s1 & H2 & H3 & _ & H5).
  split; [exact Hwf|]. split; [exact Hi|]. split; [exact Hls|].
  split; [exact Hn|]. split; [exact H1|].
  exists s1. split; [exact H2|]. split; [exact H3|exact H5].
Defined.

(** X8. [multipleOnce(kinds, L)] gives [L] a closure of its own under every
    kind of the array.  A [dispatch(K1, P)] calls the closures under [K1]
    and takes them out of [K1]'s set; the closures under another kind [K2]
    stay where they are, so [L] remains registered there. *)
Theorem multipleOnce_fires_per_kind code ks K1 K2 L P s n :
  wf s →
  K1 ≠ K2 →
  code L P = [] →
  Forall (inert code P) (registered K1 s) →
  length (registered K1 s) + length ks + 2 ≤ n →
  let s0 := multipleOnce ks (Listener L) s in
  let ws1 := multipleOnce_closures (closures s) K1 (Listener L) ks in
  let ws2 := multipleOnce_closures (closures s) K2 (Listener L) ks in
  length ws1 = length (filter (λ e, e = K1) ks) ∧
  length ws2 = length (filter (λ e, e = K2) ks) ∧
  ∃ s1, dispatch code n K1 P s0 = (s1, Normal) ∧
        calls s1 =
          calls s0 ++ ((λ f, (f, P)) <$> registered K1 s) ++
          flat_map (invocations P) ws1 ∧
        registered K1 s1 = registered K1 s ∧
        registered K2 s1 = registered K2 s ++ ws2.
Proof.
  intros Hwf Hne HL Hi Hn s0 ws1 ws2.
  assert (registered K1 s0 = registered K1 s ++ ws1) as Hreg1
    by by apply registered_multipleOnce.
  assert (registered K2 s0 = registered K2 s ++ ws2) as Hreg2
    by by apply registered_multipleOnce.
  assert (wf s0) as Hwf0 by by apply wf_multipleOnce.
  assert (length ws1 ≤ length ks) as Hlen.
  { unfold ws1. rewrite multipleOnce_closures_length. apply length_filter. }
  assert (Forall (plain code P) (registered K1 s0)) as Hp.
  { rewrite Hreg1. apply Forall_app. split.
    - eapply Forall_impl; [exact Hi|]. apply inert_plain.
    - by apply multipleOnce_closures_plain. }
  split; [apply multipleOnce_closures_length|].
  split; [apply multipleOnce_closures_length|].
  destruct (dispatch_consumes_once_closures code K1 P s0 n Hwf0 Hp)
    as (s1 & Hd & _ & Hr1 & Hr2).
  { rewrite Hreg1, length_app. lia. }
  exists s1. split; [done|]. split; [|split].
  - rewrite (dispatch_plain code P n K1 s0 Hp) in Hd;
      [|by apply wf_NoDup|rewrite Hreg1, length_app; lia].
    injection Hd as <-. rewrite (pass_calls code) by done.
    by rewrite Hreg1, flat_map_app, (invocations_inert code).
  - rewrite Hr1, Hreg1. apply (filter_once_for code P); [done|].
    apply multipleOnce_closures_once_for.
  - rewrite Hr2, Hreg2; [done|]. rewrite Hreg1. apply Forall_app. split.
    + eapply Forall_impl; [exact Hi|]. intros g Hg Hof. by destruct g.
    + eapply Forall_impl; [apply (multipleOnce_closures_once_for _ K1)|].
      intros g Hg Hg'. destruct g; [done|]. simpl in *. congruence.
Qed.

(** Function 1 under ["user:created"] and ["user:updated"]; the first kind is
    dispatched. *)
Lemma multipleOnce_fires_per_kind_witness :
  let s0 := multipleOnce [USER_CREATED; USER_UPDATED] (Listener 1) initial in
  wf initial ∧
  USER_CREATED ≠ USER_UPDATED ∧
  app 1 id7 = [] ∧
  Forall (inert app id7) (registered USER_CREATED initial) ∧
  length (registered USER_CREATED initial) +
    length [USER_CREATED; USER_UPDATED] + 2 ≤ 4 ∧
  ∃ s1, dispatch app 4 USER_CREATED id7 s0 = (s1, Normal) ∧
        calls s1 =
          [(OnceClosure 0 USER_CREATED (Listener 1), id7); (Listener 1, id7)] ∧
        registered USER_CREATED s1 = [] ∧
        registered USER_UPDATED s1 = [OnceClosure 1 USER_UPDATED (Listener 1)].
Proof.
  intros s0.
  assert (USER_CREATED ≠ USER_UPDATED) as Hne by discriminate.
  assert (Forall (inert app id7) (registered USER_CREATED initial)) as Hi
    by constructor.
  assert (length (registered USER_CREATED initial) +
          length [USER_CREATED; USER_UPDATED] + 2 ≤ 4) as Hn by (simpl; lia).
  destruct (multipleOnce_fires_per_kind app [USER_CREATED; USER_UPDATED]
              USER_CREATED USER_UPDATED 1 id7 initial 4
              wf_initial Hne eq_refl Hi Hn) as (_ & _ & s1 & H1 & H2 & H3 & H4).
  split; [exact wf_initial|]. split; [exact Hne|]. split; [reflexivity|].
  split; [exact Hi|]. split; [exact Hn|].
  exists s1. split; [exact H1|]. split; [exact H2|]. split; [exact H3|exact H4].
Defined.

(** ** Entries stay *)

Lemma get_prefix (m m' : ESMap.t) k a :
  m `prefix_of` m' → ESMap.get m k = Some a → ESMap.get m' k = Some a.
Proof.
  intros [m2 ->]. induction m as [|[k' v'] m IH]; simpl; [done|].
  case_decide; [done|]. apply IH.
Qed.

Lemma stack_subscribe e f s : stack s `prefix_of` stack (subscribe e f s).
Proof.
  destruct (get e s) as [a|] eqn:E.
  - by rewrite (subscribe_present _ _ _ _ E), on_set_stack.
  - rewrite (subscribe_absent _ _ _ E). simpl. by apply prefix_app_r.
Qed.

Lemma stack_once e f s : stack s `prefix_of` stack (once e f s).
Proof. rewrite once_eq. apply (stack_subscribe e _ (new_closure e f s).2). Qed.

Lemma stack_foldl {A} (g : state → A → state) (l : list A) s :
  (∀ s x, stack s `prefix_of` stack (g s x)) →
  stack s `prefix_of` stack (foldl g s l).
Proof.
  intros Hg. revert s. induction l as [|x l IH]; intros s; simpl; [done|].
  trans (stack (g s x)); [apply Hg|apply IH].
Qed.

Lemma stack_quiet c s : c ≠ ClearAll → stack s `prefix_of` stack (quiet c s).
Proof.
  intros Hc. destruct c; simpl; try done.
  - apply stack_subscribe.
  - by rewrite unsubscribe_stack.
  - apply stack_once.
  - apply stack_foldl. intros. apply stack_subscribe.
  - apply stack_foldl. intros. apply stack_once.
  - apply stack_foldl. intros. apply stack_subscribe.
  - apply stack_foldl. intros. apply stack_once.
  - unfold clear. by rewrite on_set_stack.
Qed.

Lemma stack_dispatch code n e p s :
  (∀ l q, ClearAll ∉ code l q) →
  stack s `prefix_of` stack (dispatch code n e p s).1.
Proof.
  intros Hcode.
  assert (holds (λ s', stack s `prefix_of` stack s') (λ _, True)
            (dispatch code n e p s)) as [H _]; [|done].
  apply (dispatch_invariant code _ (λ _, True) (λ c, c ≠ ClearAll)); try done.
  - intros e' f s' H _. by rewrite unsubscribe_stack.
  - intros c s' H Hc. trans (stack s'); [done|by apply stack_quiet].
  - intros l q _. apply Forall_forall. intros c Hc ->. by apply (Hcode l q).
Qed.

(** X11. Only [clearAll] takes an entry out of the registry.  Any other
    method, and any [dispatch] whose listeners do not call [clearAll], leaves
    the entries there were in their places and adds new ones behind them: the
    earlier [events] are a prefix of the later ones, [count] does not go
    down, and [get(K)] returns the same [Set] object as before. *)
Theorem entries_stay_without_clearAll code :
  (∀ c s, c ≠ ClearAll → stack s `prefix_of` stack (quiet c s)) ∧
  ((∀ l q, ClearAll ∉ code l q) →
   ∀ n e p s, stack s `prefix_of` stack (dispatch code n e p s).1) ∧
  (∀ s s', stack s `prefix_of` stack s' →
     events s `prefix_of` events s' ∧
     count s ≤ count s' ∧
     ∀ K a, get K s = Some a → get K s' = Some a).
Proof.
  split; [|split].
  - intros c s. apply stack_quiet.
  - intros Hcode n e p s. by apply stack_dispatch.
  - intros s s' H. split; [|split].
    + unfold events, ESMap.keys. destruct H as [m ->]. rewrite fmap_app.
      by apply prefix_app_r.
    + unfold count, ESMap.size. by apply prefix_length.
    + intros K a. by apply get_prefix.
Qed.

(** No body of [app] calls [clearAll]. *)
Lemma app_keeps_entries l q : ClearAll ∉ app l q.
Proof.
  do 23 (destruct l as [|l];
         [by (simpl; intros H; repeat (apply elem_of_cons in H as [H|H]; [done|]);
              apply elem_of_nil in H)|]).
  simpl. apply not_elem_of_nil.
Qed.

(** Function 20, dispatched, subscribes function 3; the entry of
    ["user:created"] stays where it is. *)
Lemma entries_stay_without_clearAll_witness :
  let s := subscribe USER_CREATED (Listener 20) initial in
  let s' := (dispatch app 5 USER_CREATED id7 (unsubscribe USER_CREATED (Listener 20) s)).1 in
  (∀ l q, ClearAll ∉ app l q) ∧
  (Unsubscribe USER_CREATED 20 ≠ ClearAll) ∧
  stack s `prefix_of` stack (quiet (Unsubscribe USER_CREATED 20) s) ∧
  stack (unsubscribe USER_CREATED (Listener 20) s) `prefix_of` stack s' ∧
  get USER_CREATED s' = Some 0.
Proof.
  intros s s'.
  destruct (entries_stay_without_clearAll app) as (H1 & H2 & H3).
  assert (Unsubscribe USER_CREATED 20 ≠ ClearAll) as Hc by discriminate.
  split; [exact app_keeps_entries|]. split; [exact Hc|].
  split; [exact (H1 _ s Hc)|].
  split; [exact (H2 app_keeps_entries 5 USER_CREATED id7 _)|].
  exact (proj2 (proj2 (H3 _ s' (H2 app_keeps_entries 5 USER_CREATED id7 _)))
           USER_CREATED 0 eq_refl).
Defined.

(** ** What holds in every reachable state *)

(** X12. In every state the application can reach, by any sequence of calls
    of the methods and whatever its listeners do: a listener is registered
    at most once per kind, a kind is listed once in [events], every kind of
    the registry has a [Set] object, and no two kinds share one. *)
Theorem reachable_registry_invariants code s :
  reachable code s →
  (∀ K, NoDup (registered K s)) ∧
  NoDup (events s) ∧
  (∀ K a, get K s = Some a → is_Some (heap s !! a)) ∧
  (∀ K1 K2 a, get K1 s = Some a → get K2 s = Some a → K1 = K2).
Proof.
  intros Hwf%reachable_wf. split; [|split; [|split]].
  - intros K. by apply wf_NoDup.
  - by destruct Hwf as (H & _).
  - intros K a Ha. destruct (wf_set_of s Hwf K a Ha) as [d Hd]. by exists d.
  - intros K1 K2 a. by apply wf_inj.
Qed.

(** The state after a dispatch in which function 20 subscribes function 3,
    then a second subscription of function 3. *)
Lemma reachable_registry_invariants_witness :
  let s := quiet (Subscribe USER_CREATED 3)
             (dispatch app 5 USER_CREATED id7
                (quiet (Batch USER_CREATED [20; 1]) initial)).1 in
  reachable app s ∧
  registered USER_CREATED s = [Listener 20; Listener 1; Listener 3] ∧
  (∀ K, NoDup (registered K s)) ∧
  NoDup (events s).
Proof.
  intros s.
  assert (reachable app s) as Hr.
  { unfold reachable, s.
    eapply rtc_l; [apply (step_quiet app (Batch USER_CREATED [20; 1]))|].
    eapply rtc_l; [apply (step_dispatch app 5 USER_CREATED id7)|].
    eapply rtc_l; [apply (step_quiet app (Subscribe USER_CREATED 3))|].
    apply rtc_refl. }
  destruct (reachable_registry_invariants app s Hr) as (H1 & H2 & _).
  split; [exact Hr|]. split; [reflexivity|]. split; [exact H1|exact H2].
Defined.

(** ** Closures of [once] and their kind *)

Lemma at_home_lookup s k a d f :
  closures_at_home s → (k, a) ∈ stack s → heap s !! a = Some d →
  f ∈ ESSet.values d → at_home k f.
Proof.
  intros H Hka Hd Hf. unfold closures_at_home in H. rewrite Forall_forall in H.
  specialize (H _ Hka). simpl in H. rewrite Hd in H. simpl in H.
  rewrite Forall_forall in H. by apply H.
Qed.

(** A method of the [Set] of the kind [e] that brings in only functions at
    home under [e]. *)
Lemma home_on_set e (g : IEventSet → IEventSet) s :
  wf s → closures_at_home s →
  (∀ d, Forall (at_home e) (ESSet.values d) →
        Forall (at_home e) (ESSet.values (g d))) →
  closures_at_home (on_set (get e s) g s).
Proof.
  intros Hwf Hhome Hg. unfold closures_at_home. rewrite on_set_stack.
  apply Forall_forall. intros [k a] Hka. simpl. rewrite on_set_lookup.
  assert (Forall (at_home k) (from_option ESSet.values [] (heap s !! a))) as Hold.
  { unfold closures_at_home in Hhome. rewrite Forall_forall in Hhome.
    apply (Hhome _ Hka). }
  case_decide as E; [|done].
  assert (k = e) as ->.
  { apply (wf_inj s Hwf k e a); [|done].
    apply ESMapFacts.get_elem_of; [by destruct Hwf|done]. }
  destruct (heap s !! a) as [d|]; simpl in *; [by apply Hg|constructor].
Qed.

Lemma home_unsubscribe e f s :
  wf s → closures_at_home s → closures_at_home (unsubscribe e f s).
Proof.
  intros Hwf Hhome. apply home_on_set; [done..|]. intros d Hd.
  rewrite ESSetFacts.values_delete. apply Forall_forall.
  intros g' [_ Hg']%list_elem_of_filter. rewrite Forall_forall in Hd. by apply Hd.
Qed.

Lemma home_clear e s :
  wf s → closures_at_home s → closures_at_home (clear e s).
Proof.
  intros Hwf Hhome. apply home_on_set; [done..|]. intros d Hd.
  rewrite ESSetFacts.values_clear. constructor.
Qed.

Lemma home_subscribe e f s :
  wf s → closures_at_home s → at_home e f → closures_at_home (subscribe e f s).
Proof.
  intros Hwf Hhome Hf. destruct (get e s) as [a|] eqn:E.
  - rewrite (subscribe_present _ _ _ _ E), <- E. apply home_on_set; [done..|].
    intros d Hd. rewrite ESSetFacts.values_add. case_decide; [done|].
    apply Forall_app. split; [done|]. by apply Forall_singleton.
  - rewrite (subscribe_absent _ _ _ E). unfold closures_at_home. simpl.
    apply Forall_app. split.
    + apply Forall_forall. intros [k a] Hka. simpl.
      assert (a < length (heap s)) as Hlt.
      { destruct Hwf as (_ & _ & Hb & _). rewrite Forall_forall in Hb.
        apply Hb. unfold ESMap.values. apply list_elem_of_fmap. by exists (k, a). }
      rewrite lookup_app_l by done.
      unfold closures_at_home in Hhome. rewrite Forall_forall in Hhome.
      apply (Hhome _ Hka).
    + apply Forall_singleton. simpl.
      rewrite lookup_app_r, Nat.sub_diag by done. simpl.
      by apply Forall_singleton.
Qed.

Lemma home_once e l s :
  wf s → closures_at_home s → closures_at_home (once e (Listener l) s).
Proof.
  intros Hwf Hhome. rewrite once_eq.
  apply home_subscribe; [by apply wf_new_closure|done|].
  split; [done|by exists l].
Qed.

Lemma home_quiet c s :
  wf s → closures_at_home s → closures_at_home (quiet c s).
Proof.
  intros Hwf Hhome. destruct c; simpl; try done.
  - by apply home_subscribe.
  - by apply home_unsubscribe.
  - by apply home_once.
  - unfold batch. revert s Hwf Hhome.
    induction callable as [|l ls IH]; intros s Hwf Hhome; simpl; [done|].
    apply IH; [by apply wf_subscribe|by apply home_subscribe].
  - unfold batchOnce. revert s Hwf Hhome.
    induction callable as [|l ls IH]; intros s Hwf Hhome; simpl; [done|].
    apply IH; [by apply wf_once|by apply home_once].
  - unfold multiple. revert s Hwf Hhome.
    induction events0 as [|e es IH]; intros s Hwf Hhome; simpl; [done|].
    apply IH; [by apply wf_subscribe|by apply home_subscribe].
  - unfold multipleOnce. revert s Hwf Hhome.
    induction events0 as [|e es IH]; intros s Hwf Hhome; simpl; [done|].
    apply IH; [by apply wf_once|by apply home_once].
  - by apply home_clear.
  - unfold closures_at_home. simpl. constructor.
Qed.

Lemma home_dispatch code n e p s :
  wf s → closures_at_home s → closures_at_home (dispatch code n e p s).1.
Proof.
  intros Hwf Hhome.
  assert (holds (λ s', wf s' ∧ closures_at_home s') (λ _, True)
            (dispatch code n e p s)) as [[_ H] _]; [|done].
  apply (dispatch_invariant code _ (λ _, True) (λ _, True)); try done.
  - intros e' f s' [H1 H2] _. split; [by apply wf_unsubscribe|by apply home_unsubscribe].
  - intros c s' [H1 H2] _. split; [by apply wf_quiet|by apply home_quiet].
  - intros. by apply Forall_true.
Qed.

(** A kind holds only functions at home there. *)
Lemma home_member s K f :
  closures_at_home s → f ∈ registered K s → at_home K f.
Proof.
  intros Hhome Hf.
  destruct (registered_member_inv K s f Hf) as (a & d & Ha & Hd & Hv).
  apply (at_home_lookup s K a d); [done| |done|by rewrite Hv].
  by apply ESMapFacts.get_Some.
Qed.

Lemma subscribe_registers s e f :
  wf s → f ∈ registered e (subscribe e f s).
Proof.
  intros Hwf. rewrite (registered_subscribe s Hwf).
  destruct (decide (f ∈ registered e s)); [done|].
  apply elem_of_app. right. apply list_elem_of_here.
Qed.

(** X13. A closure of [once] is at home where it sits in the [Set] of the
    kind it was made for, which is the kind it unsubscribes itself from, and
    wraps a function of the application.  The class keeps the closures at
    home only as long as its callers move none: in a well-formed registry
    where every closure is at home,
    - [subscribe(e, f)] keeps them so exactly when [f] is a function of the
      application or a closure made for [e] around one; a closure read out
      of the [Set] of one kind through [get] and subscribed to another kind
      is then registered under a kind it does not unsubscribe itself from;
    - [once(e, g)] keeps them so exactly when [g] is a function of the
      application;
    - [unsubscribe], [clear] and [clearAll] keep them so, whatever they are
      given, and so does [dispatch], whatever the listeners do with the
      methods and the functions of the application. *)
Theorem closures_at_home_unless_moved code s :
  wf s → closures_at_home s →
  (∀ e f, closures_at_home (subscribe e f s) ↔ at_home e f) ∧
  (∀ e g, closures_at_home (once e g s) ↔ ∃ l, g = Listener l) ∧
  (∀ e f, closures_at_home (unsubscribe e f s)) ∧
  (∀ e, closures_at_home (clear e s)) ∧
  closures_at_home (clearAll s) ∧
  (∀ n e p, closures_at_home (dispatch code n e p s).1).
Proof.
  intros Hwf Hhome.
  assert (Hsub : ∀ s e f, wf s → closures_at_home s →
            closures_at_home (subscribe e f s) ↔ at_home e f).
  { intros s' e f Hwf' Hhome'. split.
    - intros H. apply (home_member (subscribe e f s')); [done|].
      by apply subscribe_registers.
    - by apply home_subscribe. }
  split; [intros e f; by apply Hsub|]. split; [|split; [|split; [|split]]].
  - intros e g. rewrite once_eq.
    rewrite (Hsub (new_closure e g s).2 e (OnceClosure (closures s) e g));
      [|by apply wf_new_closure|done].
    cbn [at_home]. split; [by intros [_ H]|done].
  - intros e f. by apply home_unsubscribe.
  - intros e. by apply home_clear.
  - constructor.
  - intros n e p. by apply home_dispatch.
Qed.

(** After [once("user:created", 1)]: the closure it made is at home, and it
    is no longer when the application subscribes it to ["user:updated"]. *)
Lemma closures_at_home_unless_moved_witness :
  let s := once USER_CREATED (Listener 1) initial in
  let w := OnceClosure 0 USER_CREATED (Listener 1) in
  wf s ∧ closures_at_home s ∧
  registered USER_CREATED s = [w] ∧
  registered USER_UPDATED (subscribe USER_UPDATED w s) = [w] ∧
  ¬ closures_at_home (subscribe USER_UPDATED w s) ∧
  closures_at_home (subscribe USER_CREATED w s) ∧
  closures_at_home (dispatch app 5 USER_CREATED id7 s).1.
Proof.
  intros s w.
  assert (Hwf : wf s) by by_evaluation.
  assert (Hhome : closures_at_home s).
  { apply home_once; [apply wf_initial|constructor]. }
  destruct (closures_at_home_unless_moved app s Hwf Hhome) as (Hsub & _ & _ & _ & _ & Hd).
  split; [exact Hwf|]. split; [exact Hhome|].
  split; [reflexivity|]. split; [reflexivity|]. split; [|split].
  - intros H. apply (proj1 (Hsub USER_UPDATED w)) in H.
    destruct H as [H _]. discriminate H.
  - apply (proj2 (Hsub USER_CREATED w)). split; [reflexivity|by exists 1].
  - exact (Hd 5 USER_CREATED id7).
Defined.

(** ** Dispatch and the registry *)

(** X16. [dispatch] itself changes nothing in the registry: when the
    listeners of the kind return without calling into the registry, the
    state after [dispatch(K, P)] is the state before with the calls of the
    listeners noted, so that the same [dispatch] can be repeated with the
    same calls. *)
Theorem dispatch_leaves_registry code K P s n :
  Forall (inert code P) (registered K s) →
  NoDup (registered K s) →
  length (registered K s) + 2 ≤ n →
  let tr := (λ f, (f, P)) <$> registered K s in
  dispatch code n K P s = (noted tr s, Normal) ∧
  dispatch code n K P (noted tr s) = (noted tr (noted tr s), Normal).
Proof.
  intros Hi Hnd Hn tr.
  assert (∀ s', registered K s' = registered K s →
                dispatch code n K P s' = (noted tr s', Normal)) as H.
  { intros s' E. rewrite (dispatch_plain code P) by
      (rewrite E; (done || (eapply Forall_impl; [exact Hi|]; apply inert_plain))).
    rewrite E. by rewrite (pass_inert code). }
  split; by apply H.
Qed.

(** Two listeners of ["user:created"], dispatched twice. *)
Lemma dispatch_leaves_registry_witness :
  let s := batch USER_CREATED [Listener 1; Listener 2] initial in
  let tr := [(Listener 1, id7); (Listener 2, id7)] in
  Forall (inert app id7) (registered USER_CREATED s) ∧
  NoDup (registered USER_CREATED s) ∧
  length (registered USER_CREATED s) + 2 ≤ 4 ∧
  dispatch app 4 USER_CREATED id7 s = (noted tr s, Normal) ∧
  dispatch app 4 USER_CREATED id7 (noted tr s) = (noted tr (noted tr s), Normal).
Proof.
  intros s tr.
  assert (Forall (inert app id7) (registered USER_CREATED s)) as Hi
    by (repeat constructor).
  assert (NoDup (registered USER_CREATED s)) as Hnd by by_evaluation.
  assert (length (registered USER_CREATED s) + 2 ≤ 4) as Hn by (simpl; lia).
  split; [exact Hi|]. split; [exact Hnd|]. split; [exact Hn|].
  exact (dispatch_leaves_registry app USER_CREATED id7 s 4 Hi Hnd Hn).
Defined.
